(** * Wikilink maintenance of a markdown vault

    A shallow embedding of the link utilities (the regular expressions,
    [findWikiLinks], [findBacklinks], [updateWikiLinks],
    [createWikiLinkMap], [validateWikiLinkTarget]) and of the vault
    coordinator built on them ([updateLinksInFile], [getOrUpdateLinkMap],
    [updateVaultLinks], [batchUpdateLinks], [validateVaultLinks]), followed
    by the properties established about them.

    Conventions of the embedding.
    - A JavaScript string is a list of code units; a code unit is an
      [ascii] (so texts range over code units below 256).  String literals
      are read through the coercion [list_ascii_of_string].
    - A regular expression is a value of [regex], run by a backtracking
      matcher that tries alternatives in the order the JavaScript engine
      does (greedy quantifiers, leftmost match).
    - [new RegExp(...)] is applied by the source to a pattern into which a
      base name is spliced unescaped.  The embedding splices the name as a
      literal, which is what the constructor builds for a name free of
      pattern metacharacters; [plain_name] records that side condition.
    - The file system, the index cache and the clock form an explicit
      [world]; asynchronous functions become state transformers that
      return either a value or the exception they throw. *)

From Stdlib Require Import Ascii String List ZArith Lia Bool Sorted Permutation.
From stdpp Require Import gmap strings list.
Import ListNotations.
Open Scope string_scope.
Open Scope list_scope.

Abbreviation str := (list ascii).
Coercion list_ascii_of_string : string >-> list.

(** ** Strings *)

Module Str.

Definition eqb (a b : str) : bool := bool_decide (a = b).

Fixpoint starts_with (p s : str) : bool :=
  match p, s with
  | [], _ => true
  | a :: p', b :: s' => Ascii.eqb b a && starts_with p' s'
  | _ :: _, [] => false
  end.

Definition ends_with (p s : str) : bool := starts_with (rev p) (rev s).

(** [s.split(sep)] for a one-character separator. *)
Fixpoint split (sep : ascii) (s : str) : list str :=
  match s with
  | [] => [[]]
  | c :: s' =>
      if Ascii.eqb c sep then [] :: split sep s'
      else match split sep s' with
           | h :: t => (c :: h) :: t
           | [] => [[c]]
           end
  end.

Fixpoint join (sep : str) (l : list str) : str :=
  match l with
  | [] => []
  | [x] => x
  | x :: l' => x ++ sep ++ join sep l'
  end.

(** White space as [String.prototype.trim] sees it, among code units
    below 256: TAB, LF, VT, FF, CR, SPACE and NBSP. *)
Definition is_space (c : ascii) : bool :=
  let n := nat_of_ascii c in
  (Nat.leb 9 n && Nat.leb n 13) || Nat.eqb n 32 || Nat.eqb n 160.

Fixpoint trim_start (s : str) : str :=
  match s with
  | c :: s' => if is_space c then trim_start s' else s
  | [] => []
  end.

Definition trim (s : str) : str := rev (trim_start (rev (trim_start s))).

(** The longest prefix of [s] made of characters satisfying [p], and the
    rest. *)
Fixpoint span (p : ascii -> bool) (s : str) : str * str :=
  match s with
  | c :: s' => if p c then let '(u, v) := span p s' in (c :: u, v) else ([], s)
  | [] => ([], [])
  end.

(** First occurrence of [pat] in [s]: the text before it and the text
    after it. *)
Fixpoint find_first (pat s : str) : option (str * str) :=
  if starts_with pat s then Some ([], drop (length pat) s)
  else match s with
       | [] => None
       | c :: s' =>
           match find_first pat s' with
           | Some (u, v) => Some (c :: u, v)
           | None => None
           end
       end.

End Str.

(** ** Paths (the [path] module of the runtime, POSIX flavour) *)

Module Path.

Definition sep : ascii := "/".

(** [normalizeString]: drops empty and [.] segments and resolves [..];
    [acc] holds the segments kept so far, last one first. *)
Fixpoint normalize_segments (allow_above_root : bool) (segs acc : list str)
  : list str :=
  match segs with
  | [] => rev acc
  | seg :: segs' =>
      if Str.eqb seg [] || Str.eqb seg "." then
        normalize_segments allow_above_root segs' acc
      else if Str.eqb seg ".." then
        match acc with
        | last :: acc' =>
            if Str.eqb last ".." then
              normalize_segments allow_above_root segs' (seg :: acc)
            else normalize_segments allow_above_root segs' acc'
        | [] =>
            if allow_above_root then
              normalize_segments allow_above_root segs' [seg]
            else normalize_segments allow_above_root segs' []
        end
      else normalize_segments allow_above_root segs' (seg :: acc)
  end.

Definition is_absolute (p : str) : bool := Str.starts_with "/" p.

Definition normalize (p : str) : str :=
  match p with
  | [] => "."
  | _ =>
      let abs := is_absolute p in
      let trailing := Str.ends_with "/" p in
      let body :=
        Str.join "/" (normalize_segments (negb abs) (Str.split sep p) []) in
      match body with
      | [] => if abs then "/" else if trailing then "./" else "."
      | _ =>
          let body' := if trailing then body ++ "/" else body in
          if abs then "/" ++ body' else body'
      end
  end.

(** [path.join(a, b)] *)
Definition join (a b : str) : str :=
  match a, b with
  | [], [] => "."
  | [], _ => normalize b
  | _, [] => normalize a
  | _, _ => normalize (a ++ "/" ++ b)
  end.

Fixpoint strip_common (a b : list str) : list str * list str :=
  match a, b with
  | x :: a', y :: b' => if Str.eqb x y then strip_common a' b' else (a, b)
  | _, _ => (a, b)
  end.

(** [path.relative(from, to)] for absolute paths (no working directory is
    consulted). *)
Definition relative (from to : str) : str :=
  let segs p := normalize_segments false (Str.split sep p) [] in
  let '(up, down) := strip_common (segs from) (segs to) in
  Str.join "/" (map (fun _ => (".." : str)) up ++ down).

Fixpoint strip_trailing_rev (r : str) : str :=
  match r with
  | c :: r' => if Ascii.eqb c sep then strip_trailing_rev r' else r
  | [] => []
  end.

Definition last_segment (p : str) : str :=
  let r := strip_trailing_rev (rev p) in
  rev (fst (Str.span (fun c => negb (Ascii.eqb c sep)) r)).

(** [path.basename(p, ext)] for a path without trailing separator: the
    final segment, without [ext] when the segment ends with it and is
    longer than it. *)
Definition basename (p ext : str) : str :=
  if Str.eqb p ext then []
  else
    let b := last_segment p in
    if Str.ends_with ext b && negb (Str.eqb b ext)
    then take (length b - length ext) b
    else b.

End Path.

(** ** Regular expressions *)

Module Regex.

(** The fragment of the pattern language the source uses.  Quantifiers
    only ever apply to a negated character class or to a non-capturing
    group taken at most once. *)
Inductive regex : Type :=
| Eps                              (* the empty pattern *)
| Chr (c : ascii)                  (* a literal character *)
| NoneOf (cs : str)                (* [^cs] *)
| StarNoneOf (cs : str)            (* [^cs]* *)
| PlusNoneOf (cs : str)            (* [^cs]+ *)
| Cat (r1 r2 : regex)              (* r1 r2 *)
| Opt (r : regex)                  (* (?:r)? *)
| Grp (i : nat) (r : regex).       (* (r), the i-th capturing group *)

Infix "<.>" := Cat (at level 65, right associativity).

(** A literal text, character by character. *)
Fixpoint lit (s : str) : regex :=
  match s with
  | [] => Eps
  | c :: s' => Chr c <.> lit s'
  end.

Definition captures := list (nat * str).

Definition group (i : nat) (caps : captures) : option str :=
  snd <$> List.find (fun e => Nat.eqb (fst e) i) caps.

(** What a pattern consumed when it went from [s] to the suffix [s']. *)
Definition consumed (s s' : str) : str := take (length s - length s') s.

(** Greedy repetition of a character test: the longest run first, then
    shorter ones on backtracking. *)
Fixpoint greedy {R} (p : ascii -> bool) (s : str) (k : str -> option R)
  : option R :=
  match s with
  | c :: s' =>
      if p c then
        match greedy p s' k with
        | Some r => Some r
        | None => k s
        end
      else k s
  | [] => k []
  end.

(** The test of a negated class [[^cs]]. *)
Definition outside (cs : str) (c : ascii) : bool :=
  forallb (fun x => negb (Ascii.eqb c x)) cs.

(** No character of [s] belongs to [cs]. *)
Definition avoids (cs s : str) : bool := forallb (outside cs) s.

(** The backtracking matcher, in continuation-passing style: [k] is the
    rest of the pattern, and [None] makes the caller try its next
    alternative. *)
Fixpoint run (r : regex) (s : str) (caps : captures)
  (k : str -> captures -> option (str * captures)) : option (str * captures) :=
  match r with
  | Eps => k s caps
  | Chr c =>
      match s with
      | x :: s' => if Ascii.eqb x c then k s' caps else None
      | [] => None
      end
  | NoneOf cs =>
      match s with
      | x :: s' => if outside cs x then k s' caps else None
      | [] => None
      end
  | StarNoneOf cs => greedy (outside cs) s (fun s' => k s' caps)
  | PlusNoneOf cs =>
      match s with
      | x :: s' =>
          if outside cs x then greedy (outside cs) s' (fun s'' => k s'' caps)
          else None
      | [] => None
      end
  | Cat r1 r2 => run r1 s caps (fun s' caps' => run r2 s' caps' k)
  | Opt r' =>
      match run r' s caps k with
      | Some res => Some res
      | None => k s caps
      end
  | Grp i r' =>
      run r' s caps (fun s' caps' => k s' ((i, consumed s s') :: caps'))
  end.

(** One attempt at the start of [s]: the matched text, the captures and
    the unread rest. *)
Definition exec (r : regex) (s : str) : option (str * captures * str) :=
  match run r s [] (fun s' caps => Some (s', caps)) with
  | Some (s', caps) => Some (consumed s s', caps, s')
  | None => None
  end.

(** All matches of a global pattern, left to right, as the loop
    [while ((m = re.exec(line)) !== null)] and [replace] with the [g] flag
    enumerate them: after a match the scan resumes behind it, otherwise one
    character further.  [skip] counts the characters of the current match
    still to be passed.  Every pattern of the source consumes at least the
    brackets, so a match is never empty. *)
Fixpoint match_all_from (r : regex) (s : str) (skip : nat)
  : list (str * captures) :=
  match s with
  | [] => []
  | _ :: s' =>
      match skip with
      | S n => match_all_from r s' n
      | O =>
          match exec r s with
          | Some (m, caps, _) => (m, caps) :: match_all_from r s' (length m - 1)
          | None => match_all_from r s' 0
          end
      end
  end.

Definition match_all (r : regex) (s : str) : list (str * captures) :=
  match_all_from r s 0.

(** [s.replace(re, f)] for a global pattern and a replacement callback. *)
Fixpoint replace_all_from (r : regex) (f : str -> captures -> str) (s : str)
  (skip : nat) : str :=
  match s with
  | [] => []
  | c :: s' =>
      match skip with
      | S n => replace_all_from r f s' n
      | O =>
          match exec r s with
          | Some (m, caps, _) => f m caps ++ replace_all_from r f s' (length m - 1)
          | None => c :: replace_all_from r f s' 0
          end
      end
  end.

Definition replace_all (r : regex) (f : str -> captures -> str) (s : str)
  : str :=
  replace_all_from r f s 0.

(** Characters with a meaning of their own in a pattern. *)
Definition metachars : str := "\^$.*+?()[]{}|/".

End Regex.

Import Regex.

(** A base name that the pattern constructor reads as a literal and that
    cannot be confused with link syntax: no pattern metacharacter, no
    [#] and no [!]. *)
Definition plain_name (n : str) : bool := avoids (metachars ++ "#!") n.

(** ** Wikilinks: parsing and rewriting *)

Record WikiLink : Type := mkWikiLink {
  text : str;              (* original link text including brackets *)
  target : str;            (* link target *)
  alias : option str;      (* display alias if specified *)
  line : nat;              (* line number in source file *)
  context : str;           (* full line containing the link *)
  isHeading : bool;        (* whether this links to a specific heading *)
  heading : option str     (* the heading being linked to *)
}.

Record Backlink : Type := mkBacklink {
  sourceFile : str;        (* file containing the link *)
  links : list WikiLink    (* all links to the target in this file *)
}.

(** [/\[\[([^\]|]+)(?:\|([^\]]+))?\]\]/g] *)
Definition WIKI_LINK_REGEX : regex :=
  lit "[[" <.> Grp 1 (PlusNoneOf "]|")
    <.> Opt (Chr "|" <.> Grp 2 (PlusNoneOf "]")) <.> lit "]]".

(** [/\[\[([^\]|#]+)#([^\]|]+)(?:\|([^\]]+))?\]\]/g] *)
Definition HEADING_LINK_REGEX : regex :=
  lit "[[" <.> Grp 1 (PlusNoneOf "]|#") <.> Chr "#" <.> Grp 2 (PlusNoneOf "]|")
    <.> Opt (Chr "|" <.> Grp 3 (PlusNoneOf "]")) <.> lit "]]".

(** [/!\[\[([^\]|]+)(?:\|([^\]]+))?\]\]/g] *)
Definition EMBEDDED_LINK_REGEX : regex :=
  Chr "!" <.> lit "[[" <.> Grp 1 (PlusNoneOf "]|")
    <.> Opt (Chr "|" <.> Grp 2 (PlusNoneOf "]")) <.> lit "]]".

Definition cap (i : nat) (caps : captures) : str :=
  default [] (group i caps).

Definition heading_occurrence (ln : str) (index : nat) (m : str * captures)
  : WikiLink :=
  {| text := fst m; target := cap 1 (snd m); heading := group 2 (snd m);
     alias := group 3 (snd m); line := index + 1; context := Str.trim ln;
     isHeading := true |}.

Definition plain_occurrence (ln : str) (index : nat) (m : str * captures)
  : WikiLink :=
  {| text := fst m; target := cap 1 (snd m); heading := None;
     alias := group 2 (snd m); line := index + 1; context := Str.trim ln;
     isHeading := false |}.

(** The regular-link loop: a match is skipped when some link collected so
    far (on this line or an earlier one) has the same text. *)
Definition push_unless_captured (ln : str) (index : nat)
  (acc : list WikiLink) (m : str * captures) : list WikiLink :=
  if existsb (fun l => Str.eqb (text l) (fst m)) acc then acc
  else acc ++ [plain_occurrence ln index m].

(** The body of [lines.forEach((line, index) => ...)]: heading links, then
    regular links, then embedded links, all pushed onto [acc]. *)
Definition scan_line (acc : list WikiLink) (ln : str) (index : nat)
  : list WikiLink :=
  let acc1 :=
    acc ++ map (heading_occurrence ln index) (match_all HEADING_LINK_REGEX ln) in
  let acc2 :=
    fold_left (push_unless_captured ln index) (match_all WIKI_LINK_REGEX ln) acc1 in
  acc2 ++ map (plain_occurrence ln index) (match_all EMBEDDED_LINK_REGEX ln).

Fixpoint scan_lines (acc : list WikiLink) (lns : list str) (index : nat)
  : list WikiLink :=
  match lns with
  | [] => acc
  | ln :: lns' => scan_lines (scan_line acc ln index) lns' (S index)
  end.

Definition newline : ascii := ascii_of_nat 10.

Definition findWikiLinks (content filePath : str) : list WikiLink :=
  scan_lines [] (Str.split newline content) 0.

(** Truthiness of an optional string: present and not empty. *)
Definition truthy (o : option str) : bool :=
  match o with
  | Some (_ :: _) => true
  | _ => false
  end.

Record UpdateOptions : Type := mkUpdateOptions {
  opt_destVaultName : option str;
  opt_moveToOtherVault : option bool
}.

Definition no_options : UpdateOptions := mkUpdateOptions None None.

Definition strike (m : str) (_ : captures) : str := "~~" ++ m ++ "~~".

(** [alias ? `|${alias}` : ''] *)
Definition alias_part (a : option str) : str :=
  if truthy a then "|" ++ default [] a else [].

(** The three patterns of a deletion. *)
Definition deleted_heading_re (base : str) : regex :=
  lit "[[" <.> lit base <.> Chr "#" <.> StarNoneOf "]" <.> lit "]]".
Definition deleted_link_re (base : str) : regex :=
  lit "[[" <.> lit base <.> Opt (Chr "|" <.> StarNoneOf "]") <.> lit "]]".
Definition deleted_embed_re (base : str) : regex :=
  Chr "!" <.> deleted_link_re base.

(** The three patterns of a move or rename. *)
Definition moved_heading_re (base : str) : regex :=
  lit "[[" <.> lit base <.> Grp 1 (Chr "#" <.> PlusNoneOf "]|")
    <.> Opt (Chr "|" <.> Grp 2 (PlusNoneOf "]")) <.> lit "]]".
Definition moved_link_re (base : str) : regex :=
  lit "[[" <.> lit base <.> Opt (Chr "|" <.> Grp 1 (PlusNoneOf "]"))
    <.> lit "]]".
Definition moved_embed_re (base : str) : regex :=
  Chr "!" <.> moved_link_re base.

(** The replacement callbacks of a move: [name] is the text put in place
    of the old base name. *)
Definition heading_to (name : str) (_ : str) (caps : captures) : str :=
  "[[" ++ name ++ cap 1 caps ++ alias_part (group 2 caps) ++ "]]".
Definition link_to (name : str) (_ : str) (caps : captures) : str :=
  "[[" ++ name ++ alias_part (group 1 caps) ++ "]]".
Definition embed_to (name : str) (_ : str) (caps : captures) : str :=
  "![[" ++ name ++ alias_part (group 1 caps) ++ "]]".

Definition rewrite_links (baseOldName name : str) (content : str) : str :=
  let c1 := replace_all (moved_heading_re baseOldName) (heading_to name) content in
  let c2 := replace_all (moved_link_re baseOldName) (link_to name) c1 in
  replace_all (moved_embed_re baseOldName) (embed_to name) c2.

Definition updateWikiLinks (content oldPath : str) (newPath : option str)
  (options : UpdateOptions) : str :=
  let baseOldName := Path.basename oldPath ".md" in
  if negb (truthy newPath) then
    (* deletion: strike through links *)
    replace_all (deleted_embed_re baseOldName) strike
      (replace_all (deleted_link_re baseOldName) strike
         (replace_all (deleted_heading_re baseOldName) strike content))
  else
    let baseNewName := Path.basename (default [] newPath) ".md" in
    if default false (opt_moveToOtherVault options)
       && truthy (opt_destVaultName options)
    then
      (* cross-vault move: prefix the old name with the vault *)
      let vaultPrefix := default [] (opt_destVaultName options) ++ "/" in
      rewrite_links baseOldName (vaultPrefix ++ baseOldName) content
    else
      (* move or rename within the vault *)
      rewrite_links baseOldName baseNewName content.

(** ** The patterns, read directly

    What each pattern accepts in front of a text, written as plain
    functions on the text.  The matcher is shown to agree with them
    ([exec_wiki], [exec_heading], [exec_embedded], [exec_moved_link],
    [exec_moved_heading], [exec_moved_embed]). *)

Definition is_nil (s : str) : bool :=
  match s with
  | [] => true
  | _ => false
  end.

(** [[^cs]+] in front of [s]: the run and the rest. *)
Definition plus_span (cs s : str) : option (str * str) :=
  match Str.span (outside cs) s with
  | ([], _) => None
  | (u, v) => Some (u, v)
  end.

(** [(?:\|([^\]]+))?\]\]] in front of [s]: the alias, if any, and the
    rest. *)
Definition alias_close (s : str) : option (option str * str) :=
  match s with
  | x :: s1 =>
      if Ascii.eqb x "|" then
        match plus_span "]" s1 with
        | Some (al, s2) =>
            if Str.starts_with "]]" s2 then Some (Some al, drop 2 s2) else None
        | None => None
        end
      else if Str.starts_with "]]" s then Some (None, drop 2 s) else None
  | [] => None
  end.

(** [(#[^\]|]+)(?:\|([^\]]+))?\]\]] in front of [s]. *)
Definition heading_close (s : str) : option (str * option str * str) :=
  match s with
  | x :: s1 =>
      if Ascii.eqb x "#" then
        match plus_span "]|" s1 with
        | Some (hd, s2) =>
            match alias_close s2 with
            | Some (al, rest) => Some (hd, al, rest)
            | None => None
            end
        | None => None
        end
      else None
  | [] => None
  end.

Definition add_cap (i : nat) (o : option str) (caps : captures) : captures :=
  match o with
  | Some a => (i, a) :: caps
  | None => caps
  end.

(** [WIKI_LINK_REGEX] in front of [s]: target, alias and rest. *)
Definition wiki_at (s : str) : option (str * option str * str) :=
  if Str.starts_with "[[" s then
    match plus_span "]|" (drop 2 s) with
    | Some (tgt, s2) =>
        match alias_close s2 with
        | Some (al, rest) => Some (tgt, al, rest)
        | None => None
        end
    | None => None
    end
  else None.

(** [HEADING_LINK_REGEX] in front of [s]: target, heading, alias and
    rest. *)
Definition heading_at (s : str) : option (str * str * option str * str) :=
  if Str.starts_with "[[" s then
    match plus_span "]|#" (drop 2 s) with
    | Some (tgt, x :: s2) =>
        if Ascii.eqb x "#" then
          match plus_span "]|" s2 with
          | Some (hd, s3) =>
              match alias_close s3 with
              | Some (al, rest) => Some (tgt, hd, al, rest)
              | None => None
              end
          | None => None
          end
        else None
    | _ => None
    end
  else None.

(** The written form of an optional alias, and the aliases a link can
    carry: not empty, without bracket. *)
Definition bar (al : option str) : str :=
  match al with
  | Some a => "|" ++ a
  | None => []
  end.

Definition good_alias (al : option str) : bool :=
  match al with
  | Some a => negb (is_nil a) && avoids "[]" a
  | None => true
  end.

(** A text that does not begin with a character outside the class. *)
Definition stops (cs v : str) : bool :=
  match v with
  | [] => true
  | c :: _ => negb (outside cs c)
  end.

Definition ends_with_bang (pre : str) : bool :=
  match last pre with
  | Some c => Ascii.eqb c "!"
  | None => false
  end.



(** ** A move, segment by segment

    A match of a pattern of [rewrite_links] holds no closing bracket but
    the two that end it.  A text is therefore cut at its closing brackets
    into segments, and a pass of [replace] acts on each segment that is
    followed by []]] on its own: it renames the leftmost link in it. *)

Inductive kind : Type := Heading | Link | Embed.

Definition opening (k : kind) : str :=
  match k with
  | Embed => "![["
  | _ => "[["
  end.

Definition moved_re (k : kind) (X : str) : regex :=
  match k with
  | Heading => moved_heading_re X
  | Link => moved_link_re X
  | Embed => moved_embed_re X
  end.

Definition callback (k : kind) (Y : str) : str -> captures -> str :=
  match k with
  | Heading => heading_to Y
  | Link => link_to Y
  | Embed => embed_to Y
  end.

(** What may stand between the name and the closing brackets of a regular
    or embedded link: nothing, or a bar and a non-empty alias. *)
Definition link_tail (r : str) : bool :=
  match r with
  | [] => true
  | c :: v => Ascii.eqb c "|" && negb (is_nil v)
  end.

(** The same for a heading link: [#], a non-empty heading, and then what a
    regular link may end with. *)
Definition heading_tail (r : str) : bool :=
  match r with
  | c :: w =>
      Ascii.eqb c "#"
      && negb (is_nil (fst (Str.span (outside "]|") w)))
      && link_tail (snd (Str.span (outside "]|") w))
  | [] => false
  end.

Definition tail_ok (k : kind) : str -> bool :=
  match k with
  | Heading => heading_tail
  | _ => link_tail
  end.

(** [s], a segment, is from its first character on a link of kind [k] to
    [X]. *)
Definition hit (k : kind) (X s : str) : bool :=
  Str.starts_with (opening k ++ X) s
  && tail_ok k (drop (length (opening k ++ X)) s).

Definition retarget (k : kind) (X Y s : str) : str :=
  opening k ++ Y ++ drop (length (opening k ++ X)) s.

(** One pass over a segment: the leftmost link to [X] gets the name [Y]. *)
Fixpoint rewrite_first (k : kind) (X Y s : str) : str :=
  match s with
  | [] => []
  | c :: s' =>
      if hit k X s then retarget k X Y s else c :: rewrite_first k X Y s'
  end.

Fixpoint any_hit (k : kind) (X s : str) : bool :=
  match s with
  | [] => false
  | _ :: s' => hit k X s || any_hit k X s'
  end.

(** A pass that may already have used its one rewrite of the segment. *)
Definition pass (k : kind) (X Y : str) (done : bool) (s : str) : str :=
  if done then s else rewrite_first k X Y s.

Definition three_passes (X Y : str) (uh up ue : bool) (s : str) : str :=
  pass Embed X Y ue (pass Link X Y up (pass Heading X Y uh s)).

(** A name as the proofs need it: not empty, and free of the characters
    of link syntax. *)
Definition wordy (N : str) : Prop := N <> [] /\ avoids "[]|#!" N = true.

Definition delim_start (r : str) : bool :=
  match r with
  | [] => true
  | c :: _ => Ascii.eqb c "|" || Ascii.eqb c "#"
  end.

(** The text begins with a closing bracket, or is empty. *)
Definition at_bracket (tl : str) : bool :=
  match tl with
  | [] => true
  | c :: _ => Ascii.eqb c "]"
  end.

Definition starts_closed (tl : str) : bool := Str.starts_with "]" tl.

Definition alias_of (r : str) : option str :=
  match r with
  | _ :: v => Some v
  | [] => None
  end.

(** None of the three patterns of a move away from [Y] matches anywhere
    in [T]: the text holds no link to [Y]. *)
Definition no_links_to (Y T : str) : Prop :=
  forall k, match_all (moved_re k Y) T = [].

(** ** The index: target name to backlinks *)

(** A [WikiLinkMap] is a plain object used as a dictionary.  It is kept as
    the list of its own properties in creation order; [entries] puts them
    in the order [Object.entries] enumerates them. *)
Definition WikiLinkMap : Type := list (str * list Backlink).

Module Obj.

(** Names that a plain object inherits from its prototype: reading one of
    them on a dictionary yields a function (or the prototype itself), not
    a list of backlinks. *)
Definition inherited : list str :=
  [ "constructor" : str; "hasOwnProperty" : str; "isPrototypeOf" : str;
    "propertyIsEnumerable" : str; "toLocaleString" : str; "toString" : str;
    "valueOf" : str; "__proto__" : str; "__defineGetter__" : str;
    "__defineSetter__" : str; "__lookupGetter__" : str;
    "__lookupSetter__" : str ].

Definition is_inherited (k : str) : bool := bool_decide (k ∈ inherited).

Definition get {V} (k : str) (o : list (str * V)) : option V :=
  snd <$> List.find (fun e => Str.eqb (fst e) k) o.

Fixpoint set {V} (k : str) (v : V) (o : list (str * V)) : list (str * V) :=
  match o with
  | [] => [(k, v)]
  | (k', v') :: o' =>
      if Str.eqb k' k then (k, v) :: o' else (k', v') :: set k v o'
  end.

Definition is_digit (c : ascii) : bool :=
  let n := nat_of_ascii c in Nat.leb 48 n && Nat.leb n 57.

Definition number_of (k : str) : N :=
  fold_left (fun acc c => (acc * 10 + N.of_nat (nat_of_ascii c - 48))%N) k 0%N.

(** A canonical array index: ["0"], or digits without a leading zero,
    below [2^32 - 1]. *)
Definition is_index (k : str) : bool :=
  match k with
  | [] => false
  | c :: k' =>
      forallb is_digit k
      && (negb (Ascii.eqb c "0") || bool_decide (k' = []))
      && (length k <=? 10)%nat && (number_of k <? 4294967295)%N
  end.

Fixpoint insert_by_index {V} (e : str * V) (l : list (str * V))
  : list (str * V) :=
  match l with
  | [] => [e]
  | e' :: l' =>
      if (number_of (fst e) <? number_of (fst e'))%N then e :: l
      else e' :: insert_by_index e l'
  end.

(** [Object.entries]: array indices in ascending order, then the other
    keys in creation order. *)
Definition entries {V} (o : list (str * V)) : list (str * V) :=
  foldr insert_by_index [] (List.filter (fun e => is_index (fst e)) o)
  ++ List.filter (fun e => negb (is_index (fst e))) o.

End Obj.

(** ** The world: files, cache, clock, console *)

Inductive ErrorCode : Type := InternalError | InvalidRequest | InvalidParams.

(** What a [throw] carries: an [McpError], or any other error. *)
Inductive exn : Type :=
| McpError (code : ErrorCode) (message : str)
| JsError (message : str).

Definition message_of (e : exn) : str :=
  match e with
  | McpError _ m => m
  | JsError m => m
  end.

Inductive result (A : Type) : Type :=
| Ok (a : A)
| Throw (e : exn).
Arguments Ok {A} a.
Arguments Throw {A} e.

Record world : Type := mkWorld {
  files : gmap str str;                  (* path to content *)
  unreadable : gset str;                 (* paths whose read fails *)
  unwritable : gset str;                 (* paths whose write fails *)
  cachedLinkMap : option WikiLinkMap;
  lastUpdateTime : Z;
  now : Z;                               (* what Date.now() returns *)
  console : list str                     (* lines of console.error *)
}.

Definition with_files (f : gmap str str) (w : world) : world :=
  mkWorld f (unreadable w) (unwritable w) (cachedLinkMap w)
          (lastUpdateTime w) (now w) (console w).

Definition with_cache (m : WikiLinkMap) (t : Z) (w : world) : world :=
  mkWorld (files w) (unreadable w) (unwritable w) (Some m) t (now w)
          (console w).

Definition with_console (l : str) (w : world) : world :=
  mkWorld (files w) (unreadable w) (unwritable w) (cachedLinkMap w)
          (lastUpdateTime w) (now w) (console w ++ [l]).

(** An asynchronous computation: from a world to a value or an exception,
    and the world it leaves. *)
Definition M (A : Type) : Type := world -> result A * world.

Definition ret {A} (a : A) : M A := fun w => (Ok a, w).
Definition throw {A} (e : exn) : M A := fun w => (Throw e, w).
Definition bind {A B} (m : M A) (k : A -> M B) : M B :=
  fun w =>
    match m w with
    | (Ok a, w') => k a w'
    | (Throw e, w') => (Throw e, w')
    end.
Definition try_catch {A} (m : M A) (h : exn -> M A) : M A :=
  fun w =>
    match m w with
    | (Ok a, w') => (Ok a, w')
    | (Throw e, w') => h e w'
    end.

Notation "'let!' x ':=' m 'in' k" := (bind m (fun x => k))
  (at level 10, x name, m at level 100, k at level 200).

Definition lift {A} (r : result A) : M A := fun w => (r, w).

(** [catch (error) { if (error instanceof McpError) throw error;
    throw new McpError(InternalError, `${what}: ${message}`) }] *)
Definition rethrow (what : str) (e : exn) : exn :=
  match e with
  | McpError _ _ => e
  | JsError m => McpError InternalError (what ++ ": " ++ m)
  end.

Definition guarded {A} (what : str) (m : M A) : M A :=
  try_catch m (fun e => throw (rethrow what e)).

Definition console_error (l : str) : M unit :=
  fun w => (Ok tt, with_console l w).

Definition date_now : M Z := fun w => (Ok (now w), w).

Module Fs.

Definition readFile (p : str) : M str :=
  fun w =>
    if bool_decide (p ∈ unreadable w) then
      (Throw (JsError ("EACCES: permission denied, open " ++ p)), w)
    else
      match files w !! p with
      | Some c => (Ok c, w)
      | None => (Throw (JsError ("ENOENT: no such file or directory, open " ++ p)), w)
      end.

Definition writeFile (p c : str) : M unit :=
  fun w =>
    if bool_decide (p ∈ unwritable w) then
      (Throw (JsError ("EACCES: permission denied, open " ++ p)), w)
    else (Ok tt, with_files (<[p := c]> (files w)) w).

(** [fs.access(p)] succeeded *)
Definition exists_ (p : str) : M bool :=
  fun w => (Ok (bool_decide (is_Some (files w !! p))), w).

End Fs.

(** The collaborators the link utilities import from the modules
    [./path.js] and [./files.js]: the check that a path stays inside the
    vault, and the enumeration of the markdown files of a vault (absolute
    paths). *)
Class Collaborators : Type := {
  validateVaultPath : str -> str -> option exn;
  getAllMarkdownFiles : str -> world -> result (list str)
}.

Definition validate `{Collaborators} (vaultPath p : str) : M unit :=
  match validateVaultPath vaultPath p with
  | Some e => throw e
  | None => ret tt
  end.

Definition enumerate `{Collaborators} (vaultPath : str) : M (list str) :=
  fun w => (getAllMarkdownFiles vaultPath w, w).

(** [for (const x of xs) { body }], threading an accumulator. *)
Fixpoint for_each {A S} (body : S -> A -> M S) (xs : list A) (s : S) : M S :=
  match xs with
  | [] => ret s
  | x :: xs' => let! s' := body s x in for_each body xs' s'
  end.

(** ** Building the index *)

Section LinkUtilities.

Context `{Collaborators}.

Fixpoint find_index {A} (p : A -> bool) (l : list A) : option nat :=
  match l with
  | [] => None
  | x :: l' => if p x then Some 0 else S <$> find_index p l'
  end.

Definition push_link (link : WikiLink) (bl : Backlink) : Backlink :=
  mkBacklink (sourceFile bl) (links bl ++ [link]).

(** The body of [links.forEach(link => ...)] in [createWikiLinkMap].  The
    entry of the source file is searched by the absolute path [file], and
    a new entry is stored under the path relative to the vault.  [None] is
    the [TypeError] raised when the target name is an inherited property
    of the dictionary. *)
Definition add_link (vaultPath file : str) (linkMap : WikiLinkMap)
  (link : WikiLink) : option WikiLinkMap :=
  let targetName := Path.basename (target link) ".md" in
  if Obj.is_inherited targetName then None
  else
    let backlinks := default [] (Obj.get targetName linkMap) in
    let backlinks' :=
      match find_index (fun bl => Str.eqb (sourceFile bl) file) backlinks with
      | Some i => alter (push_link link) i backlinks
      | None =>
          backlinks ++ [mkBacklink (Path.relative vaultPath file) [link]]
      end in
    Some (Obj.set targetName backlinks' linkMap).

(** Groups the links of one file; on a [TypeError] the entries made so far
    stay in the dictionary. *)
Fixpoint add_links (vaultPath file : str) (linkMap : WikiLinkMap)
  (ls : list WikiLink) : WikiLinkMap * option exn :=
  match ls with
  | [] => (linkMap, None)
  | link :: ls' =>
      match add_link vaultPath file linkMap link with
      | Some linkMap' => add_links vaultPath file linkMap' ls'
      | None => (linkMap, Some (JsError "linkMap[targetName].find is not a function"))
      end
  end.

Definition index_file (vaultPath : str) (linkMap : WikiLinkMap) (file : str)
  : M WikiLinkMap :=
  fun w =>
    match Fs.readFile file w with
    | (Ok content, w') =>
        match add_links vaultPath file linkMap (findWikiLinks content file) with
        | (linkMap', None) => (Ok linkMap', w')
        | (linkMap', Some e) =>
            (Ok linkMap',
             with_console ("Error processing file " ++ file ++ " for link map:") w')
        end
    | (Throw e, w') =>
        (Ok linkMap,
         with_console ("Error processing file " ++ file ++ " for link map:") w')
    end.

Definition createWikiLinkMap (vaultPath : str) : M WikiLinkMap :=
  guarded "Failed to create wikilink map"
    (let! files := enumerate vaultPath in
     for_each (index_file vaultPath) files []).

(** ** The coordinator *)

Definition CACHE_TTL : Z := 5 * 60 * 1000.

Definition set_cache (m : WikiLinkMap) (t : Z) : M unit :=
  fun w => (Ok tt, with_cache m t w).

Definition get_cache : M (option WikiLinkMap * Z) :=
  fun w => (Ok (cachedLinkMap w, lastUpdateTime w), w).

(** Gets or updates the cached link map. *)
Definition getOrUpdateLinkMap (vaultPath : str) (forceUpdate : bool)
  : M WikiLinkMap :=
  let! t := date_now in
  let! cache := get_cache in
  if negb (bool_decide (is_Some (fst cache))) || forceUpdate
     || (CACHE_TTL <? t - snd cache)%Z
  then
    let! m := createWikiLinkMap vaultPath in
    let! _ := set_cache m t in
    ret m
  else ret (default [] (fst cache)).

Record LinkUpdateOptions : Type := mkLinkUpdateOptions {
  filePath : str;
  oldPath : str;
  newPath : option str;                  (* a string or null *)
  isMovedToOtherVault : bool;
  isMovedFromOtherVault : bool;
  sourceVaultName : option str;
  destVaultName : option str
}.

Definition moved_note (sourceVaultName : str) : str :=
  [newline; newline] ++ "> [!info] Note: Moved from " ++ sourceVaultName.

(** Updates links in a single file. *)
Definition updateLinksInFile (o : LinkUpdateOptions) : M bool :=
  guarded "Failed to update links in file"
    (let! content := Fs.readFile (filePath o) in
     let updatedContent :=
       updateWikiLinks content (oldPath o) (newPath o)
         (mkUpdateOptions (destVaultName o) (Some (isMovedToOtherVault o))) in
     (* handle cross-vault moves if needed *)
     let finalContent :=
       if isMovedFromOtherVault o && truthy (sourceVaultName o)
          && truthy (newPath o)
       then updatedContent ++ moved_note (default [] (sourceVaultName o))
       else updatedContent in
     if negb (Str.eqb content finalContent) then
       let! _ := Fs.writeFile (filePath o) finalContent in
       ret true
     else ret false).

(** An argument of type [string | null | undefined]. *)
Inductive nullable : Type :=
| Null
| Undefined
| Given (s : str).

Definition to_option (x : nullable) : option str :=
  match x with
  | Given s => Some s
  | _ => None
  end.

Definition is_null (x : nullable) : bool :=
  match x with
  | Null => true
  | _ => false
  end.

(** [x || y] on strings: the first operand unless it is null, undefined or
    empty. *)
Definition or_else (x : option str) (y : str) : str :=
  if truthy x then default [] x else y.

(** [newPath || null] *)
Definition or_null (x : option str) : option str :=
  if truthy x then x else None.

(** One turn of the loop over the files of the vault: the file is
    processed unless it is the destination of the move; an exception of
    [updateLinksInFile] is logged and the loop goes on. *)
Definition update_one (vaultPath : str) (oldPath newPath : nullable)
  (isMovedToOtherVault isMovedFromOtherVault : bool)
  (sourceVaultName destVaultName : option str)
  (updatedFiles : nat) (file : str) : M nat :=
  if truthy (to_option newPath)
     && Str.eqb file (Path.join vaultPath (default [] (to_option newPath)))
  then ret updatedFiles
  else
    try_catch
      (let! wasUpdated :=
         updateLinksInFile
           {| filePath := file;
              oldPath := or_else (to_option oldPath) [];
              newPath := or_null (to_option newPath);
              isMovedToOtherVault := isMovedToOtherVault;
              isMovedFromOtherVault := isMovedFromOtherVault;
              sourceVaultName := sourceVaultName;
              destVaultName := destVaultName |} in
       ret (if wasUpdated then S updatedFiles else updatedFiles))
      (fun e =>
         let! _ := console_error ("Error updating links in " ++ file ++ ":") in
         ret updatedFiles).

Definition movedToOtherVault (oldPath newPath : nullable)
  (sourceVaultName destVaultName : option str) : bool :=
  negb (is_null oldPath) && is_null newPath
  && truthy sourceVaultName && truthy destVaultName.

Definition movedFromOtherVault (oldPath newPath : nullable)
  (sourceVaultName destVaultName : option str) : bool :=
  is_null oldPath && negb (is_null newPath)
  && truthy sourceVaultName && truthy destVaultName.

(** The same turn as the specification words it: the destination of the
    move is passed over; a document whose update fails is logged and left
    out of the count, and the walk goes on from the world as it was. *)
Definition skipping_step (vaultPath : str) (oldPath newPath : nullable)
  (isMovedToOtherVault isMovedFromOtherVault : bool)
  (sourceVaultName destVaultName : option str)
  (st : nat * world) (file : str) : nat * world :=
  if truthy (to_option newPath)
     && Str.eqb file (Path.join vaultPath (default [] (to_option newPath)))
  then st
  else
    match
      updateLinksInFile
        {| filePath := file;
           oldPath := or_else (to_option oldPath) [];
           newPath := or_null (to_option newPath);
           isMovedToOtherVault := isMovedToOtherVault;
           isMovedFromOtherVault := isMovedFromOtherVault;
           sourceVaultName := sourceVaultName;
           destVaultName := destVaultName |} (snd st)
    with
    | (Ok true, w') => (S (fst st), w')
    | (Ok false, w') => (fst st, w')
    | (Throw _, _) =>
        (fst st,
         with_console ("Error updating links in " ++ file ++ ":") (snd st))
    end.

(** Updates all links in the vault after a note operation; returns the
    number of files updated. *)
Definition updateVaultLinks (vaultPath : str) (oldPath newPath : nullable)
  (sourceVaultName destVaultName : option str) : M nat :=
  guarded "Failed to update vault links"
    (let! _ :=
       validate vaultPath
         (or_else (to_option oldPath) (or_else (to_option newPath) vaultPath)) in
     let! files := enumerate vaultPath in
     (* determine the type of operation *)
     let isMovedToOtherVault :=
       movedToOtherVault oldPath newPath sourceVaultName destVaultName in
     let isMovedFromOtherVault :=
       movedFromOtherVault oldPath newPath sourceVaultName destVaultName in
     (* force link map update since files are changing *)
     let! _ := getOrUpdateLinkMap vaultPath true in
     for_each
       (update_one vaultPath oldPath newPath isMovedToOtherVault
          isMovedFromOtherVault sourceVaultName destVaultName)
       files 0).

Record Update : Type := mkUpdate {
  u_oldPath : str;
  u_newPath : option str;                (* a string or undefined *)
  u_sourceVaultName : option str;
  u_destVaultName : option str
}.

(** [a.oldPath.split('/').length] *)
Definition depth (u : Update) : nat := length (Str.split "/" (u_oldPath u)).

(** [[...updates].sort((a, b) => depthB - depthA)].  The sort of the
    runtime is stable, so the result is the one of a stable insertion: an
    update goes in front of the first one that is not deeper than it. *)
Fixpoint insert_update (u : Update) (l : list Update) : list Update :=
  match l with
  | [] => [u]
  | v :: l' =>
      if (depth v <=? depth u)%nat then u :: l else v :: insert_update u l'
  end.

Definition sortedUpdates (updates : list Update) : list Update :=
  foldr insert_update [] updates.

Definition of_undefined (x : option str) : nullable :=
  match x with
  | Some s => Given s
  | None => Undefined
  end.

(** [links.reduce((sum, backlink) => sum + backlink.links.length, 0)] *)
Definition count_links (bls : list Backlink) : nat :=
  fold_left (fun sum bl => sum + length (links bl)) bls 0.

(** One turn of the loop of [batchUpdateLinks]. *)
Definition batch_one (vaultPath : str) (totals : nat * nat) (update : Update)
  : M (nat * nat) :=
  let! filesUpdated :=
    updateVaultLinks vaultPath (Given (u_oldPath update))
      (of_undefined (u_newPath update))
      (u_sourceVaultName update) (u_destVaultName update) in
  (* get affected links count from cached map *)
  let! linkMap := getOrUpdateLinkMap vaultPath false in
  let baseName := Path.basename (u_oldPath update) ".md" in
  if Obj.is_inherited baseName then
    throw (JsError "links.reduce is not a function")
  else
    let links := default [] (Obj.get baseName linkMap) in
    ret (fst totals + filesUpdated, snd totals + count_links links).

(** Batch updates links across multiple files. *)
Definition batchUpdateLinks (vaultPath : str) (updates : list Update)
  : M (nat * nat) :=
  guarded "Failed to batch update links"
    (let! _ := validate vaultPath [] in
     (* force link map update for batch operation *)
     let! _ := getOrUpdateLinkMap vaultPath true in
     (* sort updates by path depth (deepest first) *)
     for_each (batch_one vaultPath) (sortedUpdates updates) (0, 0)).

(** ** The integrity check *)

Record Validation : Type := mkValidation {
  brokenLinks : nat;
  repairedLinks : nat;
  affectedFiles : nat
}.

(** The replacement text of [String.prototype.replace] with a string
    pattern: [$$], [$&], [$`] and [$'] are expanded. *)
Fixpoint expand (template matched before after : str) : str :=
  match template with
  | "$"%char :: "$"%char :: t => "$"%char :: expand t matched before after
  | "$"%char :: "&"%char :: t => matched ++ expand t matched before after
  | "$"%char :: "`"%char :: t => before ++ expand t matched before after
  | "$"%char :: "'"%char :: t => after ++ expand t matched before after
  | c :: t => c :: expand t matched before after
  | [] => []
  end.

(** [content.replace(pattern, replacement)] with a string pattern: the
    first occurrence only. *)
Definition replace_first (content pattern replacement : str) : str :=
  match Str.find_first pattern content with
  | Some (before, after) =>
      before ++ expand replacement pattern before after ++ after
  | None => content
  end.

Definition broken_warning : str :=
  [newline; newline] ++ "> [!warning] Broken link: Target file doesn't exist".

(** Add warning callout for broken link. *)
Definition annotate (content : str) (link : WikiLink) : str :=
  replace_first content (text link) (text link ++ broken_warning).

(** One backlink of a missing target.  The two link counters grow inside
    the loop over the links, before the write is attempted. *)
Definition repair_backlink (vaultPath : str) (v : Validation)
  (backlink : Backlink) : M Validation :=
  try_catch
    (let filePath := Path.join vaultPath (sourceFile backlink) in
     let! content := Fs.readFile filePath in
     let n := length (links backlink) in
     let content' := fold_left annotate (links backlink) content in
     let v' := mkValidation (brokenLinks v + n) (repairedLinks v + n)
                            (affectedFiles v) in
     let fileUpdated := negb (Nat.eqb n 0) in
     if fileUpdated then
       try_catch
         (let! _ := Fs.writeFile filePath content' in
          ret (mkValidation (brokenLinks v') (repairedLinks v')
                            (S (affectedFiles v'))))
         (fun e =>
            let! _ := console_error
                        ("Error repairing links in " ++ sourceFile backlink ++ ":") in
            ret v')
     else ret v')
    (fun e =>
       let! _ := console_error
                   ("Error repairing links in " ++ sourceFile backlink ++ ":") in
       ret v).

(** One entry of the index: when no file [<target>.md] lies at the vault
    root, every backlink is annotated. *)
Definition check_target (vaultPath : str) (v : Validation)
  (entry : str * list Backlink) : M Validation :=
  let targetPath := Path.join vaultPath (fst entry ++ ".md") in
  let! targetExists := Fs.exists_ targetPath in
  if negb targetExists then
    for_each (repair_backlink vaultPath) (snd entry) v
  else ret v.

(** Validates and repairs broken links in the vault. *)
Definition validateVaultLinks (vaultPath : str) : M Validation :=
  guarded "Failed to validate vault links"
    (let! _ := validate vaultPath [] in
     (* get fresh link map *)
     let! linkMap := getOrUpdateLinkMap vaultPath true in
     (* check each linked file *)
     for_each (check_target vaultPath) (Obj.entries linkMap)
       (mkValidation 0 0 0)).

End LinkUtilities.

(** ** Backlinks of one note, and the existence of a target *)

Section MoreLinkUtilities.

Context `{Collaborators}.

(** The links of [links] that point to the note named [targetName]. *)
Definition relevantLinks (targetName : str) (links : list WikiLink) : list WikiLink :=
  List.filter
    (fun link => Str.eqb (Path.basename (target link) ".md") targetName) links.

(** One turn of the loop of [findBacklinks]: the target file itself is
    passed over; a file that cannot be read is logged and the loop goes
    on. *)
Definition backlinks_in (vaultPath targetPath targetName : str)
  (backlinks : list Backlink) (file : str) : M (list Backlink) :=
  if Str.eqb file targetPath then ret backlinks
  else
    try_catch
      (let! content := Fs.readFile file in
       let links := findWikiLinks content file in
       let relevant := relevantLinks targetName links in
       if (0 <? length relevant)%nat then
         ret (backlinks ++ [mkBacklink (Path.relative vaultPath file) relevant])
       else ret backlinks)
      (fun e =>
         let! _ := console_error
                     ("Error processing file " ++ file ++ " for backlinks:") in
         ret backlinks).

(** Finds all backlinks to a specific file. *)
Definition findBacklinks (vaultPath targetPath : str) : M (list Backlink) :=
  guarded "Failed to find backlinks"
    (let! _ := validate vaultPath targetPath in
     let targetName := Path.basename targetPath ".md" in
     let! files := enumerate vaultPath in
     for_each (backlinks_in vaultPath targetPath targetName) files []).

(** Validates if a wikilink target exists in the vault. *)
Definition validateWikiLinkTarget (vaultPath target : str) : M bool :=
  guarded "Failed to validate wikilink target"
    (let targetPath :=
       Path.join vaultPath (Path.basename target ".md" ++ ".md") in
     let! _ := validate vaultPath targetPath in
     Fs.exists_ targetPath).

End MoreLinkUtilities.

(** ** The count of a turn of the batch *)

Section CountOfTheBatch.

Context `{Collaborators}.

(** What a turn of the loop of [batchUpdateLinks] does once
    [updateVaultLinks] has returned [filesUpdated]: it adds the number to
    the files, looks at the cache without forcing a refresh (the clock is
    read anew there) and adds the links the index holds under the old base
    name.  [batch_one] is [updateVaultLinks] followed by this. *)
Definition count_affected_links (vaultPath : str) (totals : nat * nat)
  (update : Update) (filesUpdated : nat) : M (nat * nat) :=
  let! linkMap := getOrUpdateLinkMap vaultPath false in
  let baseName := Path.basename (u_oldPath update) ".md" in
  if Obj.is_inherited baseName then
    throw (JsError "links.reduce is not a function")
  else
    let links := default [] (Obj.get baseName linkMap) in
    ret (fst totals + filesUpdated, snd totals + count_links links).

End CountOfTheBatch.


(** ** A vault to run the functions on *)

(** Collaborators for the examples: every path is accepted, and the files
    of a vault are the [.md] paths below its root. *)
Definition markdown_files_below (vaultPath : str) (w : world)
  : result (list str) :=
  Ok (List.filter
        (fun p => Str.starts_with (vaultPath ++ "/") p && Str.ends_with ".md" p)
        (fst <$> map_to_list (files w))).

Definition permissive : Collaborators :=
  {| validateVaultPath := fun _ _ => None;
     getAllMarkdownFiles := markdown_files_below |}.

Definition vault_of (fs : list (str * str)) : world :=
  mkWorld (list_to_map fs) ∅ ∅ None 0 0 [].

Definition read (p : str) (w : world) : option str := files w !! p.

(** The vaults of the examples. *)

(** A note linking to a report that is moved to the vault [Archive]. *)
Definition report_vault : world :=
  vault_of [("/v/a.md" : str, "[[Report|Q1]]" : str)].

(** A note [New.md] that arrived from the vault [Src], next to a note that
    has nothing to do with it. *)
Definition arrival_vault : world :=
  vault_of [("/v/Other.md" : str, "text" : str);
            ("/v/New.md" : str, "moved here" : str)].

(** One note with links to two notes that do not exist. *)
Definition broken_vault : world :=
  vault_of [("/v/a.md" : str, "[[M1]] and [[M2]]" : str)].

(** Two vaults side by side, and the world a moment after the index of the
    first one was built. *)
Definition two_vaults : world :=
  vault_of [("/a/x.md" : str, "[[Y]]" : str); ("/b/z.md" : str, "[[W]]" : str)].

Definition index_of_a : WikiLinkMap :=
  match fst (@getOrUpdateLinkMap permissive "/a" true two_vaults) with
  | Ok m => m
  | Throw _ => []
  end.

Definition two_vaults_indexed : world :=
  snd (@getOrUpdateLinkMap permissive "/a" true two_vaults).

Definition two_vaults_later : world :=
  mkWorld (files two_vaults_indexed) (unreadable two_vaults_indexed)
          (unwritable two_vaults_indexed) (cachedLinkMap two_vaults_indexed)
          (lastUpdateTime two_vaults_indexed) 60000 (console two_vaults_indexed).

(** More vaults. *)

(** A vault with links to one note from three files, the note itself
    among them. *)
Definition linked_vault : world :=
  vault_of [("/v/a.md" : str, "[[Note]] and [[Note|n]]" : str);
            ("/v/Note.md" : str, "see [[Note#top]]" : str);
            ("/v/sub/b.md" : str, "![[Note]]" : str)].

(** Its files, in the order of the enumeration. *)
Definition linked_files : list str :=
  ["/v/Note.md" : str; "/v/sub/b.md" : str; "/v/a.md" : str].

(** Two notes that link to each other. *)
Definition intact_vault : world :=
  vault_of [("/v/a.md" : str, "[[b]]" : str); ("/v/b.md" : str, "[[a|A]]" : str)].

(** A note with a link to one of its own headings, next to a note that has
    just arrived. *)
Definition heading_vault : world :=
  vault_of [("/v/Other.md" : str, "see [[#Intro]]" : str);
            ("/v/New.md" : str, "moved here" : str)].

(** Collaborators whose enumeration of the files fails. *)
Definition unlistable : Collaborators :=
  {| validateVaultPath := fun _ _ => None;
     getAllMarkdownFiles := fun _ _ =>
       Throw (JsError "EACCES: permission denied, scandir") |}.

(** The first of these vaults after the note [Note.md] was removed, and the
    same a minute later. *)
Definition linked_vault_updated : world :=
  snd (@updateVaultLinks permissive "/v" (Given "Note.md") Undefined None None
         linked_vault).

Definition linked_vault_later : world :=
  mkWorld (files linked_vault_updated) (unreadable linked_vault_updated)
          (unwritable linked_vault_updated) (cachedLinkMap linked_vault_updated)
          (lastUpdateTime linked_vault_updated) 60000 (console linked_vault_updated).

(** The argument of [updateLinksInFile] for the file [a.md] of that vault
    when [Note.md] is renamed to [New.md]. *)
Definition rename_in_a : LinkUpdateOptions :=
  {| filePath := "/v/a.md"; oldPath := "Note.md"; newPath := Some ("New.md" : str);
     isMovedToOtherVault := false; isMovedFromOtherVault := false;
     sourceVaultName := None; destVaultName := None |}.

(** ** Vocabulary of the properties *)

(** *** Of the parser *)

(** An alias as the patterns capture it: not empty, without closing
    bracket. *)
Definition captured_alias (al : option str) : Prop :=
  match al with
  | Some a => a <> [] /\ avoids "]" a = true
  | None => True
  end.

(** The written form of a link, put together from its fields. *)
Definition written (l : WikiLink) : str :=
  "[[" ++ target l
       ++ match heading l with Some h => "#" ++ h | None => [] end
       ++ bar (alias l) ++ "]]".

(** A record of the regular scan: not a heading link, and its text begins
    with the brackets (the text of an embed begins with [!]). *)
Definition is_regular (l : WikiLink) : bool :=
  negb (isHeading l) && Str.starts_with "[[" (text l).

(** How a record comes about on the line [ln] of index [index]. *)
Inductive produced (ln : str) (index : nat) (l : WikiLink) : Prop :=
| by_heading m :
    m ∈ match_all HEADING_LINK_REGEX ln -> l = heading_occurrence ln index m ->
    produced ln index l
| by_regular m :
    m ∈ match_all WIKI_LINK_REGEX ln -> l = plain_occurrence ln index m ->
    produced ln index l
| by_embed m :
    m ∈ match_all EMBEDDED_LINK_REGEX ln -> l = plain_occurrence ln index m ->
    produced ln index l.

(** *** Of the rewriting *)

(** The pattern [r] matches only in front of a text that begins with [P]. *)
Definition needs (P : str) (r : regex) : Prop :=
  forall s, Str.starts_with P s = false -> exec r s = None.

(** The written form of an optional heading. *)
Definition hash (hd : option str) : str :=
  match hd with
  | Some h => "#" ++ h
  | None => []
  end.

(** The headings a link can carry: not empty, without bracket or bar. *)
Definition good_heading (hd : option str) : bool :=
  match hd with
  | Some h => negb (is_nil h) && avoids "[]|" h
  | None => true
  end.

(** *** Of the coordinator *)

(** The text [updateLinksInFile] wants the file to hold: the links
    rewritten, and the note of a move from another vault appended. *)
Definition finalContent (o : LinkUpdateOptions) (content : str) : str :=
  let updatedContent :=
    updateWikiLinks content (oldPath o) (newPath o)
      (mkUpdateOptions (destVaultName o) (Some (isMovedToOtherVault o))) in
  if isMovedFromOtherVault o && truthy (sourceVaultName o) && truthy (newPath o)
  then updatedContent ++ moved_note (default [] (sourceVaultName o))
  else updatedContent.

(** The world with more lines on the console. *)
Definition with_log (log : list str) (w : world) : world :=
  mkWorld (files w) (unreadable w) (unwritable w) (cachedLinkMap w)
          (lastUpdateTime w) (now w) (console w ++ log).

(** The argument [updateVaultLinks] hands to [updateLinksInFile] for one
    file of the vault. *)
Definition options_for (oldPath newPath : nullable)
  (sourceVaultName destVaultName : option str) (file : str) : LinkUpdateOptions :=
  {| filePath := file;
     oldPath := or_else (to_option oldPath) [];
     newPath := or_null (to_option newPath);
     isMovedToOtherVault :=
       movedToOtherVault oldPath newPath sourceVaultName destVaultName;
     isMovedFromOtherVault :=
       movedFromOtherVault oldPath newPath sourceVaultName destVaultName;
     sourceVaultName := sourceVaultName;
     destVaultName := destVaultName |}.

(** The file the loop of [updateVaultLinks] passes over. *)
Definition is_destination (vaultPath : str) (newPath : nullable) (file : str) : bool :=
  truthy (to_option newPath)
  && Str.eqb file (Path.join vaultPath (default [] (to_option newPath))).

(** A file the loop can rewrite: not the destination, readable and
    writable. *)
Definition rewritable (vaultPath : str) (newPath : nullable) (w : world)
  (file : str) : bool :=
  negb (is_destination vaultPath newPath file)
  && negb (bool_decide (file ∈ unreadable w))
  && negb (bool_decide (file ∈ unwritable w)).

(** What stays when files and console change. *)
Definition same_frame (w w' : world) : Prop :=
  unreadable w' = unreadable w /\ unwritable w' = unwritable w
  /\ now w' = now w /\ cachedLinkMap w' = cachedLinkMap w
  /\ lastUpdateTime w' = lastUpdateTime w.

(** A file whose text the loop changes: it can be rewritten, and the text
    wanted for it differs from the one it holds. *)
Definition changes (vaultPath : str) (oldPath newPath : nullable)
  (src dst : option str) (w : world) (file : str) : bool :=
  rewritable vaultPath newPath w file
  && match files w !! file with
     | Some c => negb (Str.eqb c (finalContent (options_for oldPath newPath src dst file) c))
     | None => false
     end.

(** The counts of the integrity check agree: every broken link is counted
    as repaired, and no more files than links. *)
Definition counted (v : Validation) : Prop :=
  repairedLinks v = brokenLinks v /\ affectedFiles v <= brokenLinks v.

(** *** Of the index and the backlinks *)

(** The links the index holds for the name [K]. *)
Definition links_to (K : str) (m : WikiLinkMap) : nat :=
  count_links (default [] (Obj.get K m)).

(** No link of the list points to a name that a dictionary inherits. *)
Definition ordinary_targets (ls : list WikiLink) : Prop :=
  Forall (fun l => Obj.is_inherited (Path.basename (target l) ".md") = false) ls.

(** The links [findWikiLinks] finds in a file of the world, none when the
    file cannot be read. *)
Definition links_of (w : world) (file : str) : list WikiLink :=
  if bool_decide (file ∈ unreadable w) then []
  else match files w !! file with
       | Some content => findWikiLinks content file
       | None => []
       end.

(** A file that gets an entry from [findBacklinks]: not the target itself,
    and holding at least one link to the target's name. *)
Definition links_back (targetPath : str) (w : world) (file : str) : bool :=
  negb (Str.eqb file targetPath)
  && (0 <? length (relevantLinks (Path.basename targetPath ".md") (links_of w file)))%nat.

(** The entry of such a file. *)
Definition backlink_from (vaultPath targetPath : str) (w : world) (file : str)
  : Backlink :=
  mkBacklink (Path.relative vaultPath file)
    (relevantLinks (Path.basename targetPath ".md") (links_of w file)).

(** A segment that can stand in a relative path: not empty, not beginning
    with the separator. *)
Definition proper_segment (seg : str) : Prop :=
  seg <> [] /\ Str.starts_with "/" seg = false.

(** An entry of the index as the loop makes them: the source is a relative
    path, and the entry holds one link. *)
Definition lone_link (bl : Backlink) : Prop :=
  Path.is_absolute (sourceFile bl) = false /\ length (links bl) = 1.

(** An index all of whose entries are such. *)
Definition ungrouped (m : WikiLinkMap) : Prop :=
  Forall (fun entry => Forall lone_link (snd entry)) m.

(** * Properties *)

(** ** The monad and the loops *)

Lemma for_each_app {A S} (body : S -> A -> M S) (l1 l2 : list A) (s : S) :
  forall w,
    for_each body (l1 ++ l2) s w
    = bind (for_each body l1 s) (for_each body l2) w.
Proof.
  revert s; induction l1 as [|x l1 IH]; intros s w; simpl.
  - reflexivity.
  - unfold bind in *. destruct (body s x w) as [[s'|e] w']; [|reflexivity].
    apply IH.
Qed.

(** A loop whose body never throws never throws, and is a left fold. *)
Lemma for_each_total {A S} (body : S -> A -> M S) (step : S * world -> A -> S * world) :
  (forall s x w, body s x w = (Ok (fst (step (s, w) x)), snd (step (s, w) x))) ->
  forall l s w,
    for_each body l s w
    = (Ok (fst (fold_left step l (s, w))), snd (fold_left step l (s, w))).
Proof.
  intros Hb l; induction l as [|x l IH]; intros s w; simpl.
  - reflexivity.
  - unfold bind. rewrite Hb. rewrite IH.
    destruct (step (s, w) x); reflexivity.
Qed.

Section CoordinatorFacts.

Context `{Collaborators}.

(** Reading or writing fails before anything is changed. *)
Lemma readFile_world p w r w' : Fs.readFile p w = (r, w') -> w' = w.
Proof.
  unfold Fs.readFile. case_bool_decide; [congruence|].
  destruct (files w !! p); congruence.
Qed.

Lemma writeFile_throw p c w e w' :
  Fs.writeFile p c w = (Throw e, w') -> w' = w.
Proof. unfold Fs.writeFile. case_bool_decide; congruence. Qed.

Lemma updateLinksInFile_throw o w e w' :
  updateLinksInFile o w = (Throw e, w') -> w' = w.
Proof.
  unfold updateLinksInFile, guarded, try_catch, bind.
  destruct (Fs.readFile (filePath o) w) as [[c|e0] w0] eqn:Hr.
  - apply readFile_world in Hr; subst w0.
    destruct (negb _).
    + destruct (Fs.writeFile _ _ w) as [[[]|e1] w1] eqn:Hw; unfold ret, throw.
      * congruence.
      * apply writeFile_throw in Hw. congruence.
    + unfold ret. congruence.
  - apply readFile_world in Hr; subst w0. unfold throw. congruence.
Qed.

Lemma update_one_skipping vaultPath oldPath newPath toOther fromOther src dst n file w :
  update_one vaultPath oldPath newPath toOther fromOther src dst n file w
  = (Ok (fst (skipping_step vaultPath oldPath newPath toOther fromOther src dst (n, w) file)),
     snd (skipping_step vaultPath oldPath newPath toOther fromOther src dst (n, w) file)).
Proof.
  unfold update_one, skipping_step. simpl fst; simpl snd.
  destruct (truthy (to_option newPath) && _); [reflexivity|].
  unfold try_catch, bind.
  destruct (updateLinksInFile _ w) as [[[]|e] w'] eqn:Hu; try reflexivity.
  apply updateLinksInFile_throw in Hu; subst w'. reflexivity.
Qed.

Lemma index_file_ok vaultPath m file w :
  exists m' w', index_file vaultPath m file w = (Ok m', w').
Proof.
  unfold index_file. destruct (Fs.readFile file w) as [[c|e] w']; [|eauto].
  destruct (add_links _ _ _ _) as [m' [e|]]; eauto.
Qed.

Lemma index_files_ok vaultPath fs : forall m w,
  exists m' w', for_each (index_file vaultPath) fs m w = (Ok m', w').
Proof.
  induction fs as [|f fs IH]; intros m w; simpl.
  - unfold ret; eauto.
  - unfold bind. destruct (index_file_ok vaultPath m f w) as (m1 & w1 & ->).
    apply IH.
Qed.

(** Indexing reads files and writes to the console only. *)
Lemma index_file_files vaultPath m file w r w' :
  index_file vaultPath m file w = (r, w') -> files w' = files w.
Proof.
  unfold index_file. destruct (Fs.readFile file w) as [[c|e] w0] eqn:Hr;
    apply readFile_world in Hr; subst w0.
  - destruct (add_links _ _ _ _) as [m' [e|]]; intros [= <- <-]; reflexivity.
  - intros [= <- <-]; reflexivity.
Qed.

Lemma createWikiLinkMap_ok vaultPath fs w :
  getAllMarkdownFiles vaultPath w = Ok fs ->
  exists m w', createWikiLinkMap vaultPath w = (Ok m, w').
Proof.
  intros Hfs. unfold createWikiLinkMap, guarded, try_catch, bind, enumerate.
  rewrite Hfs. destruct (index_files_ok vaultPath fs [] w) as (m & w' & ->).
  eauto.
Qed.

Lemma createWikiLinkMap_throw vaultPath e w :
  getAllMarkdownFiles vaultPath w = Throw e ->
  createWikiLinkMap vaultPath w
  = (Throw (rethrow "Failed to create wikilink map" e), w).
Proof.
  intros Hfs. unfold createWikiLinkMap, guarded, try_catch, bind, enumerate.
  rewrite Hfs. reflexivity.
Qed.

Lemma forced_refresh vaultPath w :
  getOrUpdateLinkMap vaultPath true w
  = match createWikiLinkMap vaultPath w with
    | (Ok m, w') => (Ok m, with_cache m (now w) w')
    | (Throw e, w') => (Throw e, w')
    end.
Proof.
  unfold getOrUpdateLinkMap, bind, date_now, get_cache. simpl fst; simpl snd.
  rewrite orb_true_r. simpl.
  destruct (createWikiLinkMap vaultPath w) as [[m|e] w']; reflexivity.
Qed.

(** C8: in [updateVaultLinks] a failure of the path validation or of the
    file enumeration is thrown to the caller and aborts the call, with the
    world untouched; once both have succeeded the call returns a count
    whatever happens to single documents: the result is the walk of
    [skipping_step] over all the files, in which a document whose read or
    write fails is logged, left out of the count, and followed by the
    remaining documents. *)
Theorem updateVaultLinks_failure_tiers
  (vaultPath : str) (oldPath newPath : nullable) (src dst : option str)
  (w : world) :
  updateVaultLinks vaultPath oldPath newPath src dst w
  = match
      validateVaultPath vaultPath
        (or_else (to_option oldPath) (or_else (to_option newPath) vaultPath)),
      getAllMarkdownFiles vaultPath w
    with
    | Some e, _ => (Throw (rethrow "Failed to update vault links" e), w)
    | None, Throw e => (Throw (rethrow "Failed to update vault links" e), w)
    | None, Ok files =>
        let refreshed := snd (getOrUpdateLinkMap vaultPath true w) in
        let final :=
          fold_left
            (skipping_step vaultPath oldPath newPath
               (movedToOtherVault oldPath newPath src dst)
               (movedFromOtherVault oldPath newPath src dst) src dst)
            files (0, refreshed) in
        (Ok (fst final), snd final)
    end.
Proof.
  unfold updateVaultLinks, guarded, try_catch, bind, validate, enumerate.
  destruct (validateVaultPath vaultPath _) as [e|]; [reflexivity|].
  unfold ret at 1.
  destruct (getAllMarkdownFiles vaultPath w) as [fs|e] eqn:Hfs; [|reflexivity].
  rewrite forced_refresh.
  destruct (createWikiLinkMap_ok vaultPath fs w Hfs) as (m & w1 & ->).
  cbn [snd].
  rewrite (for_each_total _ _ (update_one_skipping vaultPath oldPath newPath _ _ src dst)).
  reflexivity.
Qed.

(** C10: the cache is keyed on time only.  Once a forced refresh has
    stored the index built for vault [A], an unforced call for another
    vault [B], made while no more than [CACHE_TTL] has elapsed since that
    build, returns the index of [A] and builds nothing. *)
Theorem cache_ignores_vault_root
  (A B : str) (w w1 w2 : world) (m : WikiLinkMap) :
  A <> B ->
  getOrUpdateLinkMap A true w = (Ok m, w1) ->
  cachedLinkMap w2 = cachedLinkMap w1 ->
  lastUpdateTime w2 = lastUpdateTime w1 ->
  (now w2 - lastUpdateTime w1 <= CACHE_TTL)%Z ->
  fst (createWikiLinkMap A w) = Ok m
  /\ getOrUpdateLinkMap B false w2 = (Ok m, w2).
Proof.
  intros _ Hbuild Hc Ht Hfresh. rewrite forced_refresh in Hbuild.
  destruct (createWikiLinkMap A w) as [[m0|e] w0]; [|discriminate].
  injection Hbuild as -> <-. split; [reflexivity|].
  unfold getOrUpdateLinkMap, bind, date_now, get_cache. cbn [fst snd].
  rewrite Hc, Ht. cbn [cachedLinkMap lastUpdateTime with_cache] in *.
  rewrite bool_decide_eq_true_2 by eauto. cbn [negb orb].
  replace (CACHE_TTL <? now w2 - now w)%Z with false by (symmetry; apply Z.ltb_ge; lia).
  reflexivity.
Qed.

Lemma insert_update_perm u l : Permutation (u :: l) (insert_update u l).
Proof.
  induction l as [|v l IH]; simpl; [reflexivity|].
  destruct (depth v <=? depth u)%nat; [reflexivity|].
  rewrite perm_swap. now apply perm_skip.
Qed.

Lemma insert_update_sorted u l :
  StronglySorted (fun a b => depth b <= depth a) l ->
  StronglySorted (fun a b => depth b <= depth a) (insert_update u l).
Proof.
  induction 1 as [|v l Hs IH Hv]; simpl.
  - repeat constructor.
  - destruct (depth v <=? depth u)%nat eqn:E.
    + apply Nat.leb_le in E. constructor; [constructor; assumption|].
      constructor; [assumption|].
      eapply Forall_impl; [exact Hv|]. intros b Hb; simpl in Hb; lia.
    + apply Nat.leb_gt in E. constructor; [assumption|].
      rewrite <- (insert_update_perm u l). constructor; [lia|assumption].
  Qed.

(** C7: [batchUpdateLinks] runs its per-update work (the call of
    [updateVaultLinks] and the link count) in a loop over a rearrangement
    of the updates in which the number of segments of [oldPath] never
    increases: an update with more segments comes before every update with
    fewer, whatever the order of the input. *)
Theorem batchUpdateLinks_deepest_first (vaultPath : str) (updates : list Update) :
  exists order : list Update,
    batchUpdateLinks vaultPath updates
    = guarded "Failed to batch update links"
        (let! _ := validate vaultPath [] in
         let! _ := getOrUpdateLinkMap vaultPath true in
         for_each (batch_one vaultPath) order (0, 0))
    /\ Permutation updates order
    /\ StronglySorted (fun a b => depth b <= depth a) order.
Proof.
  exists (sortedUpdates updates). split; [reflexivity|].
  unfold sortedUpdates. induction updates as [|u l [IHp IHs]]; simpl.
  - split; constructor.
  - split.
    + rewrite <- insert_update_perm. now apply perm_skip.
    + now apply insert_update_sorted.
Qed.

End CoordinatorFacts.

Lemma cache_ignores_vault_root_witness :
  fst (@createWikiLinkMap permissive "/a" two_vaults) = Ok index_of_a
  /\ @getOrUpdateLinkMap permissive "/b" false two_vaults_later
     = (Ok index_of_a, two_vaults_later).
Proof.
  apply (@cache_ignores_vault_root permissive "/a" "/b" two_vaults
           two_vaults_indexed two_vaults_later index_of_a).
  - discriminate.
  - vm_compute. reflexivity.
  - reflexivity.
  - reflexivity.
  - vm_compute. discriminate.
Defined.

(** ** The two cross-vault classifications *)

(** An operation classified as moved to another vault has no new path, and
    without a new path [updateWikiLinks] takes its deletion branch whatever
    the options say: the branch of the cross-vault prefix is out of reach
    of [updateVaultLinks]. *)
Lemma moved_to_other_vault_has_no_new_path
  (oldPath newPath : nullable) (src dst : option str) :
  movedToOtherVault oldPath newPath src dst = true ->
  or_null (to_option newPath) = None.
Proof.
  unfold movedToOtherVault. destruct newPath; try reflexivity.
  cbn. now rewrite andb_false_r.
Qed.

Lemma deletion_ignores_options (content oldPath : str) (options : UpdateOptions) :
  updateWikiLinks content oldPath None options
  = updateWikiLinks content oldPath None no_options.
Proof. reflexivity. Qed.

(** The walk over the vault never touches the destination of a move. *)
Lemma destination_is_passed_over `{Collaborators}
  (vaultPath : str) (oldPath newPath : nullable) (toOther fromOther : bool)
  (src dst : option str) (st : nat * world) :
  truthy (to_option newPath) = true ->
  skipping_step vaultPath oldPath newPath toOther fromOther src dst st
    (Path.join vaultPath (default [] (to_option newPath)))
  = st.
Proof.
  intros Hn. unfold skipping_step. rewrite Hn. unfold Str.eqb.
  now rewrite bool_decide_eq_true_2.
Qed.

(** ** The functions at work on small vaults *)

(** C1: a note moved to another vault ([oldPath] given, [newPath] null,
    both vault names given) is classified as moved to the other vault, and
    yet the link [[[Report|Q1]]] of the vault is struck through as for a
    deletion instead of becoming [[[Archive/Report|Q1]]]. *)
Theorem moved_to_other_vault_strikes_links :
  movedToOtherVault (Given "Report.md") Null
    (Some ("Main" : str)) (Some ("Archive" : str)) = true
  /\ read "/v/a.md"
       (snd (@updateVaultLinks permissive "/v" (Given "Report.md") Null
               (Some ("Main" : str)) (Some ("Archive" : str)) report_vault))
     = Some ("~~[[Report|Q1]]~~" : str)
  /\ updateWikiLinks "[[Report|Q1]]" "Report.md" (Some ("Report.md" : str))
       (mkUpdateOptions (Some ("Archive" : str)) (Some true))
     = "[[Archive/Report|Q1]]".
Proof. vm_compute. repeat split. Qed.

(** C2: when [New.md] arrives from the vault [Src] ([oldPath] null,
    [newPath] given, both vault names given), the note recording the
    origin is appended to the other document of the vault and not to
    [New.md]. *)
Theorem moved_from_note_misses_destination :
  movedFromOtherVault Null (Given "New.md")
    (Some ("Src" : str)) (Some ("Dst" : str)) = true
  /\ read "/v/New.md"
       (snd (@updateVaultLinks permissive "/v" Null (Given "New.md")
               (Some ("Src" : str)) (Some ("Dst" : str)) arrival_vault))
     = Some ("moved here" : str)
  /\ read "/v/Other.md"
       (snd (@updateVaultLinks permissive "/v" Null (Given "New.md")
               (Some ("Src" : str)) (Some ("Dst" : str)) arrival_vault))
     = Some ("text" ++ moved_note "Src").
Proof. vm_compute. repeat split. Qed.

(** C3: deleting [Note] strikes [[[Note]]] and [[[Note|Alt]]] through as
    a whole, but of the embed [![[Note]]] only the part behind the
    exclamation mark is wrapped. *)
Theorem deletion_splits_embed :
  updateWikiLinks "[[Note]]" "Note.md" None no_options = "~~[[Note]]~~"
  /\ updateWikiLinks "[[Note|Alt]]" "Note.md" None no_options
     = "~~[[Note|Alt]]~~"
  /\ updateWikiLinks "![[Note]]" "Note.md" None no_options = "!~~[[Note]]~~"
  /\ updateWikiLinks "![[Note]]" "Note.md" None no_options
     <> ("~~![[Note]]~~" : str).
Proof. vm_compute. repeat split. discriminate. Qed.

(** C5: one document with links to two missing notes is written twice
    and counted twice in [affectedFiles]. *)
Theorem validation_counts_document_twice :
  fst (@validateVaultLinks permissive "/v" broken_vault)
  = Ok {| brokenLinks := 2; repairedLinks := 2; affectedFiles := 2 |}
  /\ dom (files broken_vault) = {[ ("/v/a.md" : str) ]}.
Proof. split; [vm_compute; reflexivity|]. apply set_eq; intros p. unfold broken_vault, vault_of; simpl. set_solver. Qed.

(** ** The matcher *)

Lemma consumed_app (u v : str) : consumed (u ++ v) v = u.
Proof.
  unfold consumed. rewrite length_app.
  replace (length u + length v - length v) with (length u) by lia.
  apply take_app_length.
Qed.

Lemma span_eq p s : fst (Str.span p s) ++ snd (Str.span p s) = s.
Proof.
  induction s as [|c s IH]; simpl; [reflexivity|].
  destruct (p c); [|reflexivity].
  destruct (Str.span p s) as [u v]; simpl in *. now rewrite IH.
Qed.

Lemma span_all p s : Forall (fun c => p c = true) (fst (Str.span p s)).
Proof.
  induction s as [|c s IH]; simpl; [constructor|].
  destruct (p c) eqn:E; [|constructor].
  destruct (Str.span p s) as [u v]; simpl in *. now constructor.
Qed.

Lemma span_stop p s c t : snd (Str.span p s) = c :: t -> p c = false.
Proof.
  induction s as [|x s IH]; simpl; [discriminate|].
  destruct (p x) eqn:E.
  - destruct (Str.span p s) as [u v]; simpl in *. exact IH.
  - intros [= -> _]. exact E.
Qed.

(** The run of [p]-characters in front of a stop. *)
Lemma span_app p (u v : str) :
  Forall (fun c => p c = true) u ->
  match v with [] => True | c :: _ => p c = false end ->
  Str.span p (u ++ v) = (u, v).
Proof.
  intros Hu Hv. induction Hu as [|c u Hc Hu IH]; simpl.
  - destruct v as [|c v]; [reflexivity|]. simpl. now rewrite Hv.
  - rewrite Hc, IH. reflexivity.
Qed.

Lemma greedy_span {R} p s (k : str -> option R) :
  (forall c t, p c = true -> k (c :: t) = None) ->
  greedy p s k = k (snd (Str.span p s)).
Proof.
  intros Hk. induction s as [|c s IH]; simpl; [reflexivity|].
  destruct (p c) eqn:E; [|reflexivity].
  rewrite IH. destruct (Str.span p s) as [u v]; simpl.
  destruct (k v); [reflexivity|]. now apply Hk.
Qed.

Lemma starts_with_app (u s : str) : Str.starts_with u (u ++ s) = true.
Proof. induction u; simpl; [reflexivity|]. now rewrite Ascii.eqb_refl. Qed.

Lemma starts_with_spec (u s : str) :
  Str.starts_with u s = true <-> exists r, s = u ++ r.
Proof.
  split.
  - revert s; induction u as [|a u IH]; intros s Hs; simpl in *.
    + now exists s.
    + destruct s as [|b s]; [discriminate|].
      apply andb_true_iff in Hs as [Hab Hs]. apply Ascii.eqb_eq in Hab as ->.
      destruct (IH _ Hs) as [r ->]. now exists r.
  - intros [r ->]. apply starts_with_app.
Qed.

Lemma run_lit u r s caps k :
  run (lit u <.> r) s caps k
  = if Str.starts_with u s then run r (drop (length u) s) caps k else None.
Proof.
  revert s; induction u as [|a u IH]; intros s.
  - reflexivity.
  - destruct s as [|b s]; [reflexivity|].
    cbn [lit]. change (run ((Chr a <.> lit u) <.> r) (b :: s) caps k)
      with (if Ascii.eqb b a then run (lit u <.> r) s caps k else None).
    cbn [Str.starts_with length drop].
    destruct (Ascii.eqb b a); [apply IH|reflexivity].
Qed.

Lemma run_lit_end u s caps k :
  run (lit u) s caps k
  = if Str.starts_with u s then k (drop (length u) s) caps else None.
Proof.
  revert s; induction u as [|a u IH]; intros s.
  - reflexivity.
  - destruct s as [|b s]; [reflexivity|].
    cbn [lit]. change (run (Chr a <.> lit u) (b :: s) caps k)
      with (if Ascii.eqb b a then run (lit u) s caps k else None).
    cbn [Str.starts_with length drop].
    destruct (Ascii.eqb b a); [apply IH|reflexivity].
Qed.

(** Every continuation is entered on a suffix of the input. *)
Lemma greedy_suffix {R} p s (k : str -> option R) res :
  greedy p s k = Some res -> exists u v, s = u ++ v /\ k v = Some res.
Proof.
  induction s as [|c s IH]; simpl.
  - intros Hk. now exists [], [].
  - destruct (p c).
    + destruct (greedy p s k) eqn:E.
      * intros [= ->]. destruct (IH eq_refl) as (u & v & -> & Hk).
        now exists (c :: u), v.
      * intros Hk. now exists [], (c :: s).
    + intros Hk. now exists [], (c :: s).
Qed.

Lemma run_suffix r : forall s caps k res,
  run r s caps k = Some res ->
  exists u v caps', s = u ++ v /\ k v caps' = Some res.
Proof.
  induction r as [|a|cs|cs|cs|r1 IH1 r2 IH2|r IH|i r IH]; intros s caps k res; simpl.
  - intros Hk. now exists [], s, caps.
  - destruct s as [|x s]; [discriminate|]. destruct (Ascii.eqb x a); [|discriminate].
    intros Hk. now exists [x], s, caps.
  - destruct s as [|x s]; [discriminate|]. destruct (outside cs x); [|discriminate].
    intros Hk. now exists [x], s, caps.
  - intros Hg. apply greedy_suffix in Hg as (u & v & -> & Hk). now exists u, v, caps.
  - destruct s as [|x s]; [discriminate|]. destruct (outside cs x); [|discriminate].
    intros Hg. apply greedy_suffix in Hg as (u & v & -> & Hk). now exists (x :: u), v, caps.
  - intros Hr. apply IH1 in Hr as (u & v & caps1 & -> & Hr).
    apply IH2 in Hr as (u' & v' & caps2 & -> & Hk).
    exists (u ++ u'), v', caps2. now rewrite app_assoc.
  - destruct (run r s caps k) eqn:E.
    + intros [= ->]. now apply IH in E.
    + intros Hk. now exists [], s, caps.
  - intros Hr. apply IH in Hr as (u & v & caps1 & -> & Hk). eauto.
Qed.

Lemma exec_sound r s m caps rest :
  exec r s = Some (m, caps, rest) -> s = m ++ rest.
Proof.
  unfold exec. destruct (run r s [] _) as [[s' caps']|] eqn:E; [|discriminate].
  intros [= <- <- <-]. apply run_suffix in E as (u & v & c & -> & [= -> ->]).
  now rewrite consumed_app.
Qed.

Lemma match_all_from_skip r (u v : str) :
  match_all_from r (u ++ v) (length u) = match_all_from r v 0.
Proof.
  induction u as [|c u IH]; simpl; [|exact IH].
  destruct v; reflexivity.
Qed.

Lemma replace_all_from_skip r f (u v : str) :
  replace_all_from r f (u ++ v) (length u) = replace_all_from r f v 0.
Proof.
  induction u as [|c u IH]; simpl; [|exact IH].
  destruct v; reflexivity.
Qed.

Lemma match_all_hit r s m caps rest :
  exec r s = Some (m, caps, rest) -> m <> [] ->
  match_all r s = (m, caps) :: match_all r rest.
Proof.
  intros He Hm. pose proof (exec_sound _ _ _ _ _ He) as ->.
  unfold match_all. destruct m as [|c m]; [congruence|].
  cbn [app match_all_from]. cbn [app] in He. rewrite He.
  cbn [length]. replace (S (length m) - 1) with (length m) by lia.
  now rewrite match_all_from_skip.
Qed.

Lemma match_all_miss r c s :
  exec r (c :: s) = None -> match_all r (c :: s) = match_all r s.
Proof. unfold match_all; simpl. now intros ->. Qed.

Lemma replace_all_hit r f s m caps rest :
  exec r s = Some (m, caps, rest) -> m <> [] ->
  replace_all r f s = f m caps ++ replace_all r f rest.
Proof.
  intros He Hm. pose proof (exec_sound _ _ _ _ _ He) as ->.
  unfold replace_all. destruct m as [|c m]; [congruence|].
  cbn [app replace_all_from]. cbn [app] in He. rewrite He.
  cbn [length]. replace (S (length m) - 1) with (length m) by lia.
  now rewrite replace_all_from_skip.
Qed.

Lemma replace_all_miss r f c s :
  exec r (c :: s) = None -> replace_all r f (c :: s) = c :: replace_all r f s.
Proof. unfold replace_all; simpl. now intros ->. Qed.

(** ** The patterns of the scan *)

Lemma in_class (x : ascii) (cs : str) :
  existsb (Ascii.eqb x) cs = true -> x ∈ cs.
Proof.
  intros Hx. apply existsb_exists in Hx as (y & Hy & E).
  apply Ascii.eqb_eq in E as ->. now apply list_elem_of_In.
Qed.

Lemma sub_class (cs' cs : str) :
  forallb (fun x => existsb (Ascii.eqb x) cs) cs' = true ->
  forall x, x ∈ cs' -> x ∈ cs.
Proof.
  rewrite forallb_forall. intros Hs x Hx. apply in_class, Hs.
  now apply list_elem_of_In.
Qed.

(** Membership in, and inclusion of, classes given by literals. *)
Ltac class_solver :=
  first [ apply in_class; reflexivity | apply sub_class; reflexivity ].

Lemma outside_in cs c x : outside cs c = true -> x ∈ cs -> Ascii.eqb c x = false.
Proof.
  unfold outside. rewrite forallb_forall. intros Hc Hx.
  apply list_elem_of_In in Hx. specialize (Hc x Hx). now apply negb_true_iff in Hc.
Qed.

Ltac not_in_class H :=
  repeat match goal with
  | |- context [Ascii.eqb ?c ?x] =>
      rewrite (outside_in _ c x H) by class_solver
  end.

Lemma run_plus cs s caps k :
  (forall c t, outside cs c = true -> k (c :: t) caps = None) ->
  run (PlusNoneOf cs) s caps k
  = match plus_span cs s with
    | Some (u, v) => k v caps
    | None => None
    end.
Proof.
  intros Hk. unfold plus_span. destruct s as [|x s]; [reflexivity|].
  cbn [run Str.span]. destruct (outside cs x) eqn:E; [|reflexivity].
  rewrite greedy_span by (intros; now apply Hk).
  destruct (Str.span (outside cs) s) as [u v]. reflexivity.
Qed.

Lemma plus_span_eq cs s u v : plus_span cs s = Some (u, v) -> s = u ++ v /\ u <> [].
Proof.
  unfold plus_span. pose proof (span_eq (outside cs) s) as He.
  destruct (Str.span (outside cs) s) as [[|a u'] v']; [discriminate|].
  intros [= <- <-]. split; [now rewrite <- He|discriminate].
Qed.

Lemma run_grp_plus i cs s caps k :
  (forall c t caps', outside cs c = true -> k (c :: t) caps' = None) ->
  run (Grp i (PlusNoneOf cs)) s caps k
  = match plus_span cs s with
    | Some (u, v) => k v ((i, u) :: caps)
    | None => None
    end.
Proof.
  intros Hk. cbn [run]. fold (run (PlusNoneOf cs)).
  change (run (PlusNoneOf cs) s caps
            (fun s' caps' => k s' ((i, consumed s s') :: caps')) = 
          match plus_span cs s with Some (u, v) => k v ((i, u) :: caps) | None => None end).
  rewrite run_plus by (intros; now apply Hk).
  destruct (plus_span cs s) as [[u v]|] eqn:E; [|reflexivity].
  apply plus_span_eq in E as [-> _]. now rewrite consumed_app.
Qed.

Lemma run_alias_close i s caps k :
  run (Opt (Chr "|" <.> Grp i (PlusNoneOf "]")) <.> lit "]]") s caps k
  = match alias_close s with
    | Some (al, rest) => k rest (add_cap i al caps)
    | None => None
    end.
Proof.
  change (match run (Chr "|" <.> Grp i (PlusNoneOf "]")) s caps
                  (fun s' caps' => run (lit "]]") s' caps' k) with
          | Some res => Some res
          | None => run (lit "]]") s caps k
          end = match alias_close s with
                | Some (al, rest) => k rest (add_cap i al caps)
                | None => None
                end).
  destruct s as [|x s1]; [reflexivity|].
  change (run (Chr "|" <.> Grp i (PlusNoneOf "]")) (x :: s1) caps
            (fun s' caps' => run (lit "]]") s' caps' k))
    with (if Ascii.eqb x "|" then
            run (Grp i (PlusNoneOf "]")) s1 caps
              (fun s' caps' => run (lit "]]") s' caps' k)
          else None).
  unfold alias_close. destruct (Ascii.eqb x "|") eqn:Ex.
  - apply Ascii.eqb_eq in Ex as ->.
    rewrite run_grp_plus.
    2:{ intros c t caps' Hc. rewrite run_lit_end. cbn. now not_in_class Hc. }
    rewrite (run_lit_end "]]" ("|"%char :: s1)).
    change (Str.starts_with "]]" ("|"%char :: s1)) with false.
    destruct (plus_span "]" s1) as [[al s2]|]; [|reflexivity].
    rewrite run_lit_end. cbn [length add_cap].
    destruct (Str.starts_with "]]" s2); [|reflexivity].
    now destruct (k _ _).
  - rewrite run_lit_end. cbn [length].
    destruct (Str.starts_with "]]" (x :: s1)); reflexivity.
Qed.

Lemma alias_close_outside c t : outside "]|" c = true -> alias_close (c :: t) = None.
Proof. intros Hc. unfold alias_close. cbn. now not_in_class Hc. Qed.

Lemma exec_wiki s :
  exec WIKI_LINK_REGEX s
  = match wiki_at s with
    | Some (tgt, al, rest) => Some (consumed s rest, add_cap 2 al [(1, tgt)], rest)
    | None => None
    end.
Proof.
  unfold exec, WIKI_LINK_REGEX, wiki_at. rewrite run_lit. change (length (list_ascii_of_string "[[")) with 2.
  destruct (Str.starts_with "[[" s); [|reflexivity].
  change (run (Grp 1 (PlusNoneOf "]|") <.> ?r) ?s ?c ?k)
    with (run (Grp 1 (PlusNoneOf "]|")) s c (fun s' caps' => run r s' caps' k)).
  rewrite run_grp_plus.
  2:{ intros c t caps' Hc. rewrite run_alias_close. now rewrite alias_close_outside. }
  destruct (plus_span "]|" (drop 2 s)) as [[tgt s2]|]; [|reflexivity].
  rewrite run_alias_close. destruct (alias_close s2) as [[al rest]|]; reflexivity.
Qed.

Lemma exec_heading s :
  exec HEADING_LINK_REGEX s
  = match heading_at s with
    | Some (tgt, hd, al, rest) =>
        Some (consumed s rest, add_cap 3 al [(2, hd); (1, tgt)], rest)
    | None => None
    end.
Proof.
  unfold exec, HEADING_LINK_REGEX, heading_at. rewrite run_lit. change (length (list_ascii_of_string "[[")) with 2.
  destruct (Str.starts_with "[[" s); [|reflexivity].
  change (run (Grp 1 (PlusNoneOf "]|#") <.> ?r) ?s ?c ?k)
    with (run (Grp 1 (PlusNoneOf "]|#")) s c (fun s' caps' => run r s' caps' k)).
  rewrite run_grp_plus.
  2:{ intros c t caps' Hc. cbn. now not_in_class Hc. }
  destruct (plus_span "]|#" (drop 2 s)) as [[tgt [|x s2]]|]; [reflexivity| |reflexivity].
  change (run (Chr "#" <.> ?r) (x :: s2) ?c ?k)
    with (if Ascii.eqb x "#" then run r s2 c k else None).
  destruct (Ascii.eqb x "#"); [|reflexivity].
  change (run (Grp 2 (PlusNoneOf "]|") <.> ?r) ?s ?c ?k)
    with (run (Grp 2 (PlusNoneOf "]|")) s c (fun s' caps' => run r s' caps' k)).
  rewrite run_grp_plus.
  2:{ intros c t caps' Hc. rewrite run_alias_close. now rewrite alias_close_outside. }
  destruct (plus_span "]|" s2) as [[hd s3]|]; [|reflexivity].
  rewrite run_alias_close. destruct (alias_close s3) as [[al rest]|]; reflexivity.
Qed.

Lemma exec_embedded s :
  exec EMBEDDED_LINK_REGEX s
  = match s with
    | x :: s' =>
        if Ascii.eqb x "!" then
          match wiki_at s' with
          | Some (tgt, al, rest) =>
              Some (consumed s rest, add_cap 2 al [(1, tgt)], rest)
          | None => None
          end
        else None
    | [] => None
    end.
Proof.
  destruct s as [|x s']; [reflexivity|].
  unfold exec, EMBEDDED_LINK_REGEX.
  change (run (Chr "!" <.> ?r) (x :: s') ?c ?k)
    with (if Ascii.eqb x "!" then run r s' c k else None).
  destruct (Ascii.eqb x "!"); [|reflexivity].
  pose proof (exec_wiki s') as Hw. unfold exec, WIKI_LINK_REGEX in Hw.
  destruct (run _ s' [] _) as [[r c]|].
  - destruct (wiki_at s') as [[[tgt al] rest]|]; [|discriminate].
    injection Hw as _ -> ->. reflexivity.
  - destruct (wiki_at s') as [[[tgt al] rest]|]; [discriminate|reflexivity].
Qed.

Lemma avoids_app cs (u v : str) : avoids cs (u ++ v) = avoids cs u && avoids cs v.
Proof. apply forallb_app. Qed.

Lemma outside_sub (cs cs' : str) c :
  (forall x, x ∈ cs' -> x ∈ cs) -> outside cs c = true -> outside cs' c = true.
Proof.
  unfold outside. rewrite !forallb_forall. intros Hs Hc x Hx. apply Hc.
  apply list_elem_of_In, Hs, list_elem_of_In, Hx.
Qed.

Lemma avoids_sub (cs cs' s : str) :
  (forall x, x ∈ cs' -> x ∈ cs) -> avoids cs s = true -> avoids cs' s = true.
Proof.
  unfold avoids. rewrite !forallb_forall. intros Hs Hc x Hx.
  eapply outside_sub; eauto.
Qed.

Lemma avoids_Forall cs s :
  avoids cs s = true -> Forall (fun c => outside cs c = true) s.
Proof. unfold avoids. rewrite forallb_forall, List.Forall_forall. auto. Qed.

Lemma plus_span_run cs (u v : str) :
  u <> [] -> avoids cs u = true -> stops cs v = true ->
  plus_span cs (u ++ v) = Some (u, v).
Proof.
  intros Hu Ha Hv. unfold plus_span. rewrite span_app.
  - destruct u; [congruence|reflexivity].
  - now apply avoids_Forall.
  - destruct v as [|c v]; [exact I|]. now apply negb_true_iff in Hv.
Qed.

Lemma plus_span_stop cs (v : str) : stops cs v = true -> plus_span cs v = None.
Proof.
  unfold plus_span. destruct v as [|c v]; [reflexivity|]. cbn.
  intros Hv. apply negb_true_iff in Hv. now rewrite Hv.
Qed.

Lemma alias_close_shape al post :
  good_alias al = true -> alias_close (bar al ++ "]]" ++ post) = Some (al, post).
Proof.
  destruct al as [a|]; cbn [good_alias bar]; [|reflexivity].
  intros Ha. apply andb_true_iff in Ha as [Hn Ha].
  change (("|" ++ a) ++ "]]" ++ post) with ("|"%char :: (a ++ "]"%char :: "]"%char :: post)).
  unfold alias_close. rewrite Ascii.eqb_refl. rewrite plus_span_run.
  - reflexivity.
  - now destruct a.
  - eapply avoids_sub; [|exact Ha]. class_solver.
  - reflexivity.
Qed.

Lemma wiki_at_shape T al post :
  T <> [] -> avoids "]|" T = true -> good_alias al = true ->
  wiki_at ("[[" ++ T ++ bar al ++ "]]" ++ post) = Some (T, al, post).
Proof.
  intros Hn HT Hal. unfold wiki_at.
  change (Str.starts_with "[[" ("[[" ++ T ++ bar al ++ "]]" ++ post)) with true.
  cbn iota. change (drop 2 ("[[" ++ ?x)) with x.
  rewrite plus_span_run; [|assumption..|].
  - now rewrite alias_close_shape.
  - destruct al; reflexivity.
Qed.

Lemma heading_at_shape N Hd al post :
  N <> [] -> avoids "]|#" N = true -> Hd <> [] -> avoids "]|" Hd = true ->
  good_alias al = true ->
  heading_at ("[[" ++ N ++ "#" ++ Hd ++ bar al ++ "]]" ++ post)
  = Some (N, Hd, al, post).
Proof.
  intros Hn HN Hh HH Hal. unfold heading_at.
  change (Str.starts_with "[[" ("[[" ++ ?x)) with true.
  cbn iota. change (drop 2 ("[[" ++ ?x)) with x.
  rewrite plus_span_run; [|assumption..|reflexivity].
  change (list_ascii_of_string "#" ++ ?x) with ("#"%char :: x).
  cbn iota. rewrite Ascii.eqb_refl.
  rewrite plus_span_run; [|assumption..|].
  - now rewrite alias_close_shape.
  - destruct al; reflexivity.
Qed.

Lemma consumed_shape (body post : str) :
  consumed (body ++ "]]" ++ post) post = body ++ "]]".
Proof. rewrite app_assoc. apply consumed_app. Qed.

Lemma wiki_at_first c t : outside "[" c = true -> wiki_at (c :: t) = None.
Proof. intros Hc. unfold wiki_at. cbn. now not_in_class Hc. Qed.

Lemma heading_at_first c t : outside "[" c = true -> heading_at (c :: t) = None.
Proof. intros Hc. unfold heading_at. cbn. now not_in_class Hc. Qed.

Lemma match_all_wiki_skip pre s :
  avoids "[" pre = true ->
  match_all WIKI_LINK_REGEX (pre ++ s) = match_all WIKI_LINK_REGEX s.
Proof.
  induction pre as [|c pre IH]; [reflexivity|]. cbn [avoids forallb].
  intros Hp. apply andb_true_iff in Hp as [Hc Hp].
  rewrite <- app_comm_cons, match_all_miss; [now apply IH|].
  now rewrite exec_wiki, wiki_at_first.
Qed.

Lemma match_all_heading_skip pre s :
  avoids "[" pre = true ->
  match_all HEADING_LINK_REGEX (pre ++ s) = match_all HEADING_LINK_REGEX s.
Proof.
  induction pre as [|c pre IH]; [reflexivity|]. cbn [avoids forallb].
  intros Hp. apply andb_true_iff in Hp as [Hc Hp].
  rewrite <- app_comm_cons, match_all_miss; [now apply IH|].
  now rewrite exec_heading, heading_at_first.
Qed.

Lemma match_all_embedded_skip pre s :
  avoids "[" pre = true ->
  match_all EMBEDDED_LINK_REGEX (pre ++ s)
  = if ends_with_bang pre then match_all EMBEDDED_LINK_REGEX ("!"%char :: s)
    else match_all EMBEDDED_LINK_REGEX s.
Proof.
  induction pre as [|c pre IH]; [reflexivity|]. cbn [avoids forallb].
  intros Hp. apply andb_true_iff in Hp as [Hc Hp].
  destruct pre as [|d pre].
  - unfold ends_with_bang. cbn [last app]. destruct (Ascii.eqb c "!") eqn:E.
    + now apply Ascii.eqb_eq in E as ->.
    + rewrite match_all_miss; [reflexivity|]. rewrite exec_embedded. now rewrite E.
  - rewrite <- app_comm_cons, match_all_miss.
    + rewrite IH by assumption. reflexivity.
    + rewrite exec_embedded. destruct (Ascii.eqb c "!"); [|reflexivity].
      cbn [avoids forallb] in Hp. apply andb_true_iff in Hp as [Hd _].
      rewrite <- app_comm_cons. now rewrite wiki_at_first.
Qed.

Lemma match_all_wiki_none post :
  avoids "[" post = true -> match_all WIKI_LINK_REGEX post = [].
Proof.
  intros Hp. rewrite <- (app_nil_r post). now rewrite match_all_wiki_skip.
Qed.

Lemma match_all_heading_none post :
  avoids "[" post = true -> match_all HEADING_LINK_REGEX post = [].
Proof.
  intros Hp. rewrite <- (app_nil_r post). now rewrite match_all_heading_skip.
Qed.

Lemma match_all_embedded_none s :
  avoids "[" s = true -> match_all EMBEDDED_LINK_REGEX s = [].
Proof.
  induction s as [|c s IH]; [reflexivity|]. cbn [avoids forallb].
  intros Hp. apply andb_true_iff in Hp as [Hc Hp].
  rewrite match_all_miss; [now apply IH|]. rewrite exec_embedded.
  destruct (Ascii.eqb c "!"); [|reflexivity].
  destruct s as [|d s]; [reflexivity|].
  cbn [avoids forallb] in Hp. apply andb_true_iff in Hp as [Hd _].
  now rewrite wiki_at_first.
Qed.

(** No embedded link begins inside a link whose parts are free of [[]. *)
Lemma match_all_embedded_inside (body post : str) :
  avoids "[" body = true -> avoids "[" post = true ->
  match_all EMBEDDED_LINK_REGEX ("[[" ++ body ++ "]]" ++ post) = [].
Proof.
  intros Hb Hp.
  change ("[[" ++ body ++ "]]" ++ post) with ("["%char :: "["%char :: body ++ "]]" ++ post).
  rewrite match_all_miss by (now rewrite exec_embedded).
  rewrite match_all_miss by (now rewrite exec_embedded).
  apply match_all_embedded_none. rewrite !avoids_app, Hb, Hp. reflexivity.
Qed.

Lemma existsb_snoc {A} (p : A -> bool) l x : existsb p (l ++ [x]) = existsb p l || p x.
Proof. rewrite existsb_app. cbn. now rewrite orb_false_r. Qed.

Lemma str_eqb_refl (s : str) : Str.eqb s s = true.
Proof. unfold Str.eqb. now apply bool_decide_eq_true_2. Qed.

(** A match whose text was already collected is not pushed again. *)
Lemma captured_text_is_skipped ln index acc m :
  existsb (fun l => Str.eqb (text l) (fst m)) acc = true ->
  push_unless_captured ln index acc m = acc.
Proof. unfold push_unless_captured. now intros ->. Qed.

(** On any line, the scan of regular links adds no occurrence whose text
    was collected before it started, heading links of the line included. *)
Lemma regular_scan_adds_no_captured_text ln index ms acc :
  exists added,
    fold_left (push_unless_captured ln index) ms acc = acc ++ added
    /\ Forall (fun l => existsb (fun l' => Str.eqb (text l') (text l)) acc = false)
         added.
Proof.
  revert acc. induction ms as [|m ms IH]; intros acc.
  - exists []. split; [now rewrite app_nil_r | constructor].
  - cbn [fold_left]. unfold push_unless_captured at 2.
    destruct (existsb _ acc) eqn:E; [apply IH|].
    destruct (IH (acc ++ [plain_occurrence ln index m])) as (added & -> & Hall).
    exists (plain_occurrence ln index m :: added). split.
    + now rewrite <- app_assoc.
    + constructor; [exact E|].
      eapply Forall_impl; [exact Hall|]. intros l Hl. cbn beta in Hl.
      rewrite existsb_snoc in Hl. now apply orb_false_elim in Hl.
Qed.

(** On a line whose only bracket sequence is a heading link
    [[[N#Hd]]] or [[[N#Hd|alias]]], whatever was collected before, the scan
    adds one occurrence for that span, marked as a heading link with
    target [N] and heading [Hd]: the scan of regular links finds the same
    text and does not record it again.  (When the link is preceded by an
    exclamation mark, the embed [![[N#Hd]]], which is another span, is
    recorded as well.) *)
Theorem heading_link_recorded_once
  (acc : list WikiLink) (pre N Hd : str) (al : option str) (post : str) (index : nat) :
  avoids "[" pre = true -> avoids "[" post = true ->
  N <> [] -> avoids "[]|#" N = true ->
  Hd <> [] -> avoids "[]|" Hd = true ->
  good_alias al = true ->
  let raw := "[[" ++ N ++ "#" ++ Hd ++ bar al ++ "]]" in
  let ln := pre ++ raw ++ post in
  scan_line acc ln index
  = acc
    ++ [ {| text := raw; target := N; alias := al; line := index + 1;
            context := Str.trim ln; isHeading := true; heading := Some Hd |} ]
    ++ (if ends_with_bang pre
        then [ {| text := "!" ++ raw; target := N ++ "#" ++ Hd; alias := al;
                  line := index + 1; context := Str.trim ln;
                  isHeading := false; heading := None |} ]
        else []).
Proof.
  intros Hpre Hpost HN0 HN HH0 HH Hal raw ln.
  assert (HN' : avoids "]|#" N = true) by (eapply avoids_sub; [|exact HN]; class_solver).
  assert (HH' : avoids "]|" Hd = true) by (eapply avoids_sub; [|exact HH]; class_solver).
  assert (Hat : heading_at (raw ++ post) = Some (N, Hd, al, post)).
  { unfold raw. rewrite <- !app_assoc. now apply heading_at_shape. }
  assert (Hwt : wiki_at (raw ++ post) = Some (N ++ "#" ++ Hd, al, post)).
  { unfold raw. rewrite <- !app_assoc.
    rewrite (app_assoc N), (app_assoc (N ++ "#")), <- (app_assoc N).
    apply wiki_at_shape; [now destruct N| |assumption].
    rewrite !avoids_app, HH'.
    rewrite (avoids_sub "[]|#" "]|" N); [reflexivity| |assumption].
    class_solver. }
  (* the heading pattern finds the link, and nothing else *)
  assert (Hh : match_all HEADING_LINK_REGEX ln
               = [(raw, add_cap 3 al [(2, Hd); (1, N)])]).
  { unfold ln. rewrite match_all_heading_skip by assumption.
    rewrite (match_all_hit _ _ raw (add_cap 3 al [(2, Hd); (1, N)]) post).
    - now rewrite match_all_heading_none.
    - now rewrite exec_heading, Hat, consumed_app.
    - discriminate. }
  (* so does the pattern of regular links, with the same text *)
  assert (Hw : match_all WIKI_LINK_REGEX ln
               = [(raw, add_cap 2 al [(1, N ++ "#" ++ Hd)])]).
  { unfold ln. rewrite match_all_wiki_skip by assumption.
    rewrite (match_all_hit _ _ raw (add_cap 2 al [(1, N ++ "#" ++ Hd)]) post).
    - now rewrite match_all_wiki_none.
    - now rewrite exec_wiki, Hwt, consumed_app.
    - discriminate. }
  assert (He : match_all EMBEDDED_LINK_REGEX ln
               = if ends_with_bang pre
                 then [("!" ++ raw, add_cap 2 al [(1, N ++ "#" ++ Hd)])]
                 else []).
  { unfold ln. rewrite match_all_embedded_skip by assumption.
    destruct (ends_with_bang pre).
    - rewrite (match_all_hit _ _ ("!" ++ raw) (add_cap 2 al [(1, N ++ "#" ++ Hd)]) post).
      + f_equal. apply match_all_embedded_none. assumption.
      + rewrite exec_embedded. rewrite Ascii.eqb_refl, Hwt.
        change ("!"%char :: raw ++ post) with (("!" ++ raw) ++ post).
        now rewrite consumed_app.
      + discriminate.
    - unfold raw. rewrite <- !app_assoc.
      rewrite (app_assoc N), (app_assoc (N ++ "#")), (app_assoc ((N ++ "#") ++ Hd)).
      apply match_all_embedded_inside; [|assumption].
      rewrite !avoids_app.
      rewrite (avoids_sub "[]|#" "[" N), (avoids_sub "[]|" "[" Hd); try assumption;
        try class_solver.
      destruct al as [a|]; [|reflexivity]. cbn [good_alias] in Hal.
      apply andb_true_iff in Hal as [_ Ha]. cbn [bar].
      rewrite avoids_app, (avoids_sub "[]" "[" a); [reflexivity| |assumption].
      class_solver. }
  unfold scan_line. fold ln. rewrite Hh, Hw, He. cbn [map fold_left].
  unfold push_unless_captured. cbn [fst]. rewrite existsb_snoc.
  cbn [heading_occurrence text fst]. rewrite str_eqb_refl, orb_true_r.
  rewrite <- app_assoc. f_equal.
  assert (Hg3 : group 3 (add_cap 3 al [(2, Hd); (1, N)]) = al) by now destruct al.
  assert (Hg2 : group 2 (add_cap 3 al [(2, Hd); (1, N)]) = Some Hd) by now destruct al.
  assert (Hc1 : cap 1 (add_cap 3 al [(2, Hd); (1, N)]) = N) by now destruct al.
  assert (Hg2' : group 2 (add_cap 2 al [(1, N ++ "#" ++ Hd)]) = al) by now destruct al.
  assert (Hc1' : cap 1 (add_cap 2 al [(1, N ++ "#" ++ Hd)]) = N ++ "#" ++ Hd) by now destruct al.
  unfold heading_occurrence; cbn [fst snd]. rewrite Hg3, Hg2, Hc1.
  cbn [app]. f_equal.
  destruct (ends_with_bang pre); [|reflexivity].
  cbn [map]. unfold plain_occurrence; cbn [fst snd]. now rewrite Hg2', Hc1'.
Qed.



(** ** Links inside a segment *)

Lemma tail_ok_delim k r : tail_ok k r = true -> delim_start r = true.
Proof.
  destruct k, r as [|c r]; cbn; try reflexivity; try discriminate; intros Hr.
  - apply andb_true_iff in Hr as [Hr _]. apply andb_true_iff in Hr as [-> _].
    apply orb_true_r.
  - apply andb_true_iff in Hr as [-> _]. reflexivity.
  - apply andb_true_iff in Hr as [-> _]. reflexivity.
Qed.

Lemma starts_with_split (u v s : str) :
  Str.starts_with (u ++ v) s
  = Str.starts_with u s && Str.starts_with v (drop (length u) s).
Proof.
  revert s; induction u as [|a u IH]; intros s; [reflexivity|].
  destruct s as [|b s]; [reflexivity|]. cbn [app Str.starts_with length drop].
  rewrite IH. now rewrite andb_assoc.
Qed.

Lemma drop_app_length' (u v : str) : drop (length u) (u ++ v) = v.
Proof. apply drop_app_length. Qed.

Lemma hit_shape k X r : hit k X (opening k ++ X ++ r) = tail_ok k r.
Proof.
  unfold hit. rewrite (app_assoc (opening k) X r), starts_with_app, drop_app_length'. reflexivity.
Qed.

Lemma hit_inv k X s :
  hit k X s = true -> exists r, s = opening k ++ X ++ r /\ tail_ok k r = true.
Proof.
  unfold hit. intros Hh. apply andb_true_iff in Hh as [Hs Ht].
  apply starts_with_spec in Hs as [r ->]. rewrite drop_app_length' in Ht.
  exists r. now rewrite <- app_assoc.
Qed.

Lemma retarget_shape k X Y r :
  retarget k X Y (opening k ++ X ++ r) = opening k ++ Y ++ r.
Proof. unfold retarget. now rewrite (app_assoc (opening k) X r), drop_app_length'. Qed.

(** A link starts with a bracket or with an exclamation mark. *)
Lemma hit_first k X c t :
  hit k X (c :: t) = true ->
  match k with Embed => c = "!"%char | _ => c = "["%char end.
Proof.
  intros Hh. apply hit_inv in Hh as (r & He & _).
  destruct k; cbn in He; now injection He.
Qed.

Lemma hit_second k X c t :
  k <> Embed -> hit k X ("["%char :: c :: t) = true -> c = "["%char.
Proof.
  intros Hk Hh. apply hit_inv in Hh as (r & He & _).
  destruct k; [| |congruence]; cbn in He; now injection He.
Qed.

Lemma hit_embed X c t :
  hit Embed X (c :: t) = Ascii.eqb c "!" && hit Link X t.
Proof.
  unfold hit. cbn [opening]. 
  change ("![[" ++ X) with ("!"%char :: ("[[" ++ X)).
  cbn [Str.starts_with length drop]. now rewrite andb_assoc.
Qed.

(** A name is not the start of a link. *)
Lemma hit_name k X c t : outside "[]|#!" c = true -> hit k X (c :: t) = false.
Proof.
  intros Hc. destruct (hit k X (c :: t)) eqn:E; [|reflexivity].
  apply hit_first in E. destruct k; subst c; discriminate.
Qed.

Lemma hit_bracket_name k X c t :
  outside "[]|#!" c = true -> hit k X ("["%char :: c :: t) = false.
Proof.
  intros Hc. destruct (hit k X ("["%char :: c :: t)) eqn:E; [|reflexivity].
  destruct k.
  - apply hit_second in E; [subst c; discriminate|discriminate].
  - apply hit_second in E; [subst c; discriminate|discriminate].
  - apply hit_first in E. discriminate.
Qed.

(** Passing over a name, and over the opening of a link that is not a hit. *)
Lemma rewrite_first_name k X Y N r :
  avoids "[]|#!" N = true ->
  rewrite_first k X Y (N ++ r) = N ++ rewrite_first k X Y r.
Proof.
  induction N as [|c N IH]; [reflexivity|]. cbn [avoids forallb].
  intros HN. apply andb_true_iff in HN as [Hc HN].
  cbn [app rewrite_first]. rewrite hit_name by assumption. now rewrite IH.
Qed.

Lemma rewrite_first_open k X Y N r :
  wordy N -> hit k X ("[[" ++ N ++ r) = false ->
  rewrite_first k X Y ("[[" ++ N ++ r) = "[[" ++ N ++ rewrite_first k X Y r.
Proof.
  intros [HN0 HN] Hh.
  change ("[[" ++ N ++ r) with ("["%char :: "["%char :: N ++ r) in *.
  cbn [rewrite_first]. rewrite Hh.
  destruct N as [|c N]; [congruence|].
  pose proof HN as HN'. cbn [avoids forallb] in HN'. apply andb_true_iff in HN' as [Hc _].
  cbn [app]. rewrite hit_bracket_name by assumption.
  change (c :: N ++ r) with ((c :: N) ++ r). now rewrite rewrite_first_name.
Qed.

Lemma rewrite_first_bang k X Y N r :
  wordy N -> hit k X ("![[" ++ N ++ r) = false -> hit k X ("[[" ++ N ++ r) = false ->
  rewrite_first k X Y ("![[" ++ N ++ r) = "![[" ++ N ++ rewrite_first k X Y r.
Proof.
  intros HN Hb Hh.
  change ("![[" ++ N ++ r) with ("!"%char :: "[[" ++ N ++ r) in *.
  cbn [rewrite_first]. rewrite Hb. now rewrite rewrite_first_open.
Qed.

Lemma wordy_sub cs N : wordy N -> (forall x, x ∈ cs -> x ∈ ("[]|#!" : str)) -> avoids cs N = true.
Proof. intros [_ HN] Hs. eapply avoids_sub; eauto. Qed.

Lemma wordy_cons N : wordy N -> exists c N', N = c :: N' /\ outside "[]|#!" c = true.
Proof.
  intros [HN0 HN]. destruct N as [|c N']; [congruence|].
  cbn [avoids forallb] in HN. apply andb_true_iff in HN as [Hc _]. eauto.
Qed.

(** ** Two names in front of a delimiter *)

Lemma name_clash (X Z r : str) :
  avoids "|#" X = true -> avoids "|#" Z = true -> delim_start r = true ->
  Str.starts_with X (Z ++ r) = true ->
  delim_start (drop (length X) (Z ++ r)) = true ->
  X = Z.
Proof.
  revert Z; induction X as [|x X IH]; intros Z HX HZ Hr Hs Hd.
  - destruct Z as [|z Z]; [reflexivity|]. exfalso.
    cbn [avoids forallb] in HZ. apply andb_true_iff in HZ as [Hz _].
    cbn in Hd. revert Hd. now not_in_class Hz.
  - cbn [avoids forallb] in HX. apply andb_true_iff in HX as [Hx HX].
    destruct Z as [|z Z].
    + exfalso. cbn [app] in Hs. destruct r as [|c r]; [discriminate|].
      cbn [Str.starts_with] in Hs. apply andb_true_iff in Hs as [Hc _].
      apply Ascii.eqb_eq in Hc as ->. cbn in Hr. revert Hr. now not_in_class Hx.
    + cbn [avoids forallb] in HZ. apply andb_true_iff in HZ as [Hz HZ].
      cbn [app Str.starts_with] in Hs. apply andb_true_iff in Hs as [Hc Hs].
      apply Ascii.eqb_eq in Hc as ->. f_equal. now apply IH.
Qed.

Lemma hit_other k X Z r :
  wordy X -> wordy Z -> X <> Z -> delim_start r = true ->
  hit k X (opening k ++ Z ++ r) = false.
Proof.
  intros HX HZ Hne Hr. destruct (hit k X (opening k ++ Z ++ r)) eqn:E; [|reflexivity].
  exfalso. apply Hne. unfold hit in E. apply andb_true_iff in E as [Hs Ht].
  rewrite starts_with_split in Hs. apply andb_true_iff in Hs as [_ Hs].
  rewrite drop_app_length' in Hs.
  rewrite length_app, <- drop_drop, drop_app_length' in Ht.
  apply tail_ok_delim in Ht.
  apply (name_clash X Z r); try assumption; eapply wordy_sub; eauto; class_solver.
Qed.

Lemma hit_same k X r : hit k X (opening k ++ X ++ r) = tail_ok k r.
Proof. apply hit_shape. Qed.

(** A regular or heading pattern does not match at an exclamation mark, an
    embed pattern does not match at a bracket. *)
Lemma hit_bang k X t : k <> Embed -> hit k X ("!"%char :: t) = false.
Proof.
  intros Hk. destruct (hit k X ("!"%char :: t)) eqn:E; [|reflexivity].
  apply hit_first in E. destruct k; congruence.
Qed.

Lemma hit_embed_bracket X t : hit Embed X ("["%char :: t) = false.
Proof. now rewrite hit_embed. Qed.

Lemma link_not_heading r : link_tail r = true -> heading_tail r = false.
Proof.
  destruct r as [|c r]; [reflexivity|]. cbn. intros Hr.
  apply andb_true_iff in Hr as [Hc _]. apply Ascii.eqb_eq in Hc as ->. reflexivity.
Qed.

Lemma heading_not_link r : heading_tail r = true -> link_tail r = false.
Proof.
  destruct r as [|c r]; [discriminate|]. cbn. intros Hr.
  apply andb_true_iff in Hr as [Hr _]. apply andb_true_iff in Hr as [Hc _].
  apply Ascii.eqb_eq in Hc as ->. reflexivity.
Qed.

(** ** What a pass leaves unchanged *)

Section Closure.

Variables (k : kind) (X Y : str).
Hypothesis HX : wordy X.
Hypothesis HY : wordy Y.

Lemma opening_cons : exists c o, opening k = c :: o /\ (c = "["%char \/ c = "!"%char).
Proof. destruct k; cbn; eauto. Qed.

Lemma rewrite_first_nil_iff r : is_nil (rewrite_first k X Y r) = is_nil r.
Proof.
  destruct r as [|c r]; [reflexivity|]. cbn [rewrite_first].
  destruct (hit k X (c :: r)); [|reflexivity].
  unfold retarget. destruct opening_cons as (a & o & -> & _). reflexivity.
Qed.

Lemma front_hit_char c r :
  hit k X (c :: r) = true ->
  (c = "["%char \/ c = "!"%char)
  /\ exists t, retarget k X Y (c :: r) = c :: t.
Proof.
  intros Hh. apply hit_inv in Hh as (r0 & He & _). rewrite He, retarget_shape.
  destruct opening_cons as (a & o & Ho & Ha). rewrite Ho in *.
  injection He as -> _. split; [exact Ha|]. eauto.
Qed.

Lemma link_tail_rewrite r : link_tail (rewrite_first k X Y r) = link_tail r.
Proof.
  destruct r as [|c r]; [reflexivity|]. cbn [rewrite_first].
  destruct (hit k X (c :: r)) eqn:E.
  - apply front_hit_char in E as ([-> | ->] & t & ->); reflexivity.
  - cbn [link_tail]. now rewrite rewrite_first_nil_iff.
Qed.

Lemma span_through p (u r : str) :
  forallb p u = true ->
  Str.span p (u ++ r) = (u ++ fst (Str.span p r), snd (Str.span p r)).
Proof.
  induction u as [|c u IH]; cbn [forallb app Str.span].
  - now destruct (Str.span p r).
  - intros Hu. apply andb_true_iff in Hu as [-> Hu]. rewrite IH by assumption.
    reflexivity.
Qed.

Lemma opening_outside : forallb (outside "]|") (opening k) = true.
Proof. now destruct k. Qed.

Lemma span_rewrite w :
  is_nil (fst (Str.span (outside "]|") (rewrite_first k X Y w)))
  = is_nil (fst (Str.span (outside "]|") w))
  /\ link_tail (snd (Str.span (outside "]|") (rewrite_first k X Y w)))
     = link_tail (snd (Str.span (outside "]|") w)).
Proof.
  induction w as [|c w IH]; [split; reflexivity|]. cbn [rewrite_first].
  destruct (hit k X (c :: w)) eqn:E.
  - apply hit_inv in E as (r0 & -> & _). rewrite retarget_shape.
    rewrite !(app_assoc (opening k)).
    assert (HoX : forallb (outside "]|") (opening k ++ X) = true).
    { rewrite forallb_app, opening_outside. eapply wordy_sub; eauto. class_solver. }
    assert (HoY : forallb (outside "]|") (opening k ++ Y) = true).
    { rewrite forallb_app, opening_outside. eapply wordy_sub; eauto. class_solver. }
    rewrite !span_through by assumption. cbn [fst snd]. split; [|reflexivity].
    destruct opening_cons as (a & o & -> & _). reflexivity.
  - cbn [Str.span]. destruct (outside "]|" c).
    + destruct IH as [IH1 IH2].
      destruct (Str.span (outside "]|") (rewrite_first k X Y w)),
               (Str.span (outside "]|") w). cbn [fst snd] in *.
      split; [reflexivity|assumption].
    + cbn [fst snd link_tail]. split; [reflexivity|]. now rewrite rewrite_first_nil_iff.
Qed.

Lemma heading_tail_rewrite r : heading_tail (rewrite_first k X Y r) = heading_tail r.
Proof.
  destruct r as [|c r]; [reflexivity|]. cbn [rewrite_first].
  destruct (hit k X (c :: r)) eqn:E.
  - apply front_hit_char in E as ([-> | ->] & t & ->); reflexivity.
  - cbn [heading_tail]. destruct (span_rewrite r) as [-> ->]. reflexivity.
Qed.

Lemma tail_ok_rewrite j r : tail_ok j (rewrite_first k X Y r) = tail_ok j r.
Proof. destruct j; cbn [tail_ok]; auto using heading_tail_rewrite, link_tail_rewrite. Qed.

(** A name in front of the rewritten text was in front of the text. *)
Lemma name_through Z t :
  avoids "[]|#!" Z = true ->
  Str.starts_with Z (rewrite_first k X Y t) = Str.starts_with Z t
  /\ (Str.starts_with Z t = true ->
      drop (length Z) (rewrite_first k X Y t)
      = rewrite_first k X Y (drop (length Z) t)).
Proof.
  revert t; induction Z as [|z Z IH]; intros t HZ; [split; reflexivity|].
  cbn [avoids forallb] in HZ. apply andb_true_iff in HZ as [Hz HZ].
  destruct t as [|c t]; [split; [reflexivity|discriminate]|].
  cbn [rewrite_first]. destruct (hit k X (c :: t)) eqn:E.
  - apply front_hit_char in E as (Hc & t' & ->). cbn [Str.starts_with].
    assert (Ascii.eqb c z = false) as ->.
    { apply Ascii.eqb_neq. intros <-. destruct Hc as [-> | ->]; discriminate. }
    split; [reflexivity|discriminate].
  - cbn [Str.starts_with length drop]. destruct (IH t HZ) as [-> IH2].
    split; [reflexivity|]. intros Hs. apply andb_true_iff in Hs as [_ Hs]. auto.
Qed.

Lemma hit_cons_opening j Z c N r :
  j <> Embed -> wordy Z -> hit j Z (c :: opening k ++ N ++ r) = false.
Proof.
  intros Hj HZ. destruct (hit j Z _) eqn:E; [|reflexivity]. exfalso.
  apply hit_inv in E as (r' & He & _).
  destruct (wordy_cons Z HZ) as (z & Z' & -> & Hz).
  destruct j; [| |congruence]; destruct k; cbn in He; injection He as _ He;
    try discriminate; subst z; discriminate.
Qed.

Lemma hit_cons_rewrite j Z c t :
  j <> Embed -> wordy Z ->
  hit j Z (c :: rewrite_first k X Y t) = hit j Z (c :: t).
Proof.
  intros Hj HZ. destruct t as [|d t]; [reflexivity|]. cbn [rewrite_first].
  destruct (hit k X (d :: t)) eqn:E.
  - apply hit_inv in E as (r0 & -> & _). rewrite retarget_shape.
    now rewrite !hit_cons_opening.
  - assert (Ho : opening j = "[[") by (destruct j; [reflexivity..|congruence]).
    unfold hit. rewrite Ho.
    change ("[[" ++ Z) with ("["%char :: "["%char :: Z).
    cbn [Str.starts_with length drop].
    destruct HZ as [_ HZ]. destruct (name_through Z t HZ) as [-> Hd].
    destruct (Str.starts_with Z t) eqn:Es; [|now rewrite !andb_false_r].
    rewrite Hd by reflexivity. now rewrite tail_ok_rewrite.
Qed.

Lemma hit_link_rewrite Z t :
  wordy Z -> (k = Link -> hit Link X t = false) ->
  hit Link Z (rewrite_first k X Y t) = hit Link Z t.
Proof.
  intros HZ Hk. destruct t as [|d t]; [reflexivity|]. cbn [rewrite_first].
  destruct (hit k X (d :: t)) eqn:E.
  - destruct k.
    + (* a heading link in front: no regular link on either side *)
      apply hit_inv in E as (r0 & -> & Hr). rewrite retarget_shape.
      change (opening Heading) with (opening Link).
      cbn [tail_ok] in Hr. pose proof (tail_ok_delim Heading r0 Hr) as Hd.
      apply heading_not_link in Hr.
      destruct (decide (Z = X)) as [->|HZX].
      * rewrite (hit_same Link X r0). cbn [tail_ok]. rewrite Hr.
        destruct (decide (X = Y)) as [->|HXY]; [now rewrite (hit_same Link Y r0)|].
        now apply (hit_other Link).
      * rewrite (hit_other Link Z X) by assumption.
        destruct (decide (Z = Y)) as [->|HZY]; [now rewrite (hit_same Link Y r0)|].
        now apply (hit_other Link).
    + rewrite Hk in E; [discriminate|reflexivity].
    + apply hit_inv in E as (r0 & -> & Hr). rewrite retarget_shape.
      cbn [opening]. change ("![[" ++ ?x) with ("!"%char :: "[[" ++ x).
      now rewrite !hit_bang.
  - now apply hit_cons_rewrite.
Qed.

Lemma hit_embed_cons_rewrite Z c t :
  wordy Z -> (k = Link -> hit Link X t = false) ->
  hit Embed Z (c :: rewrite_first k X Y t) = hit Embed Z (c :: t).
Proof. intros HZ Hk. rewrite !hit_embed. now rewrite hit_link_rewrite. Qed.

End Closure.

Section Passes.

Variables (X Y : str).
Hypothesis HX : wordy X.
Hypothesis HY : wordy Y.
Hypothesis HXY : X <> Y.

Lemma tail_ok_pass j k u r : tail_ok j (pass k X Y u r) = tail_ok j r.
Proof. destruct u; [reflexivity|]. now apply tail_ok_rewrite. Qed.

Lemma tail_ok_three j uh up ue r :
  tail_ok j (three_passes X Y uh up ue r) = tail_ok j r.
Proof. unfold three_passes. now rewrite !tail_ok_pass. Qed.

Lemma hit_cons_pass j Z c k u t :
  j <> Embed -> wordy Z -> hit j Z (c :: pass k X Y u t) = hit j Z (c :: t).
Proof. intros Hj HZ. destruct u; [reflexivity|]. now apply hit_cons_rewrite. Qed.

Lemma hit_cons_three j Z c uh up ue t :
  j <> Embed -> wordy Z ->
  hit j Z (c :: three_passes X Y uh up ue t) = hit j Z (c :: t).
Proof. intros Hj HZ. unfold three_passes. now rewrite !hit_cons_pass. Qed.

Lemma hit_embed_cons_three Z c uh ue t :
  wordy Z ->
  hit Embed Z (c :: three_passes X Y uh true ue t) = hit Embed Z (c :: t).
Proof.
  intros HZ. unfold three_passes. cbn [pass].
  destruct ue, uh; cbn [pass]; try reflexivity;
    rewrite ?hit_embed_cons_rewrite; try reflexivity; try assumption; discriminate.
Qed.

Lemma rewrite_first_front k r :
  tail_ok k r = true ->
  rewrite_first k X Y (opening k ++ X ++ r) = opening k ++ Y ++ r.
Proof.
  intros Hr. pose proof (hit_shape k X r) as Hh. rewrite Hr in Hh.
  pose proof (retarget_shape k X Y r) as Ht.
  destruct (opening_cons k) as (a & o & Ho & _). rewrite Ho in *.
  cbn [app rewrite_first] in *. now rewrite Hh.
Qed.

Lemma pass_open k u N r :
  wordy N -> (u = false -> hit k X ("[[" ++ N ++ r) = false) ->
  pass k X Y u ("[[" ++ N ++ r) = "[[" ++ N ++ pass k X Y u r.
Proof.
  intros HN Hh. destruct u; [reflexivity|]. cbn [pass].
  apply rewrite_first_open; auto.
Qed.

Lemma pass_bang k u N r :
  wordy N ->
  (u = false -> hit k X ("![[" ++ N ++ r) = false) ->
  (u = false -> hit k X ("[[" ++ N ++ r) = false) ->
  pass k X Y u ("![[" ++ N ++ r) = "![[" ++ N ++ pass k X Y u r.
Proof.
  intros HN Hb Hh. destruct u; [reflexivity|]. cbn [pass].
  apply rewrite_first_bang; auto.
Qed.

Lemma pass_cons k u c t :
  (u = false -> hit k X (c :: t) = false) ->
  pass k X Y u (c :: t) = c :: pass k X Y u t.
Proof.
  intros Hh. destruct u; [reflexivity|]. cbn [pass rewrite_first].
  now rewrite Hh.
Qed.

Lemma fire_heading up ue r :
  heading_tail r = true ->
  three_passes X Y false up ue ("[[" ++ X ++ r)
  = "[[" ++ Y ++ three_passes X Y true up ue r.
Proof.
  intros Hr. unfold three_passes. cbn [pass].
  rewrite (rewrite_first_front Heading) by assumption. cbn [opening].
  pose proof (tail_ok_delim Heading r Hr) as Hd.
  rewrite pass_open; [|assumption|intros _; now apply (hit_other Link)].
  rewrite pass_open; [reflexivity|assumption|intros _; apply hit_embed_bracket].
Qed.

Lemma fire_link uh ue r :
  link_tail r = true ->
  three_passes X Y uh false ue ("[[" ++ X ++ r)
  = "[[" ++ Y ++ three_passes X Y uh true ue r.
Proof.
  intros Hr. unfold three_passes.
  rewrite pass_open; [|assumption|].
  2:{ intros _. rewrite (hit_same Heading). now apply link_not_heading. }
  cbn [pass].
  rewrite (rewrite_first_front Link) by (cbn [tail_ok]; now rewrite tail_ok_pass with (j := Link)).
  cbn [opening].
  rewrite pass_open; [reflexivity|assumption|intros _; apply hit_embed_bracket].
Qed.

Lemma fire_embed uh r :
  link_tail r = true ->
  three_passes X Y uh true false ("![[" ++ X ++ r)
  = "![[" ++ Y ++ three_passes X Y uh true true r.
Proof.
  intros Hr. unfold three_passes.
  rewrite pass_bang; [|assumption| |].
  2:{ intros _. now apply hit_bang. }
  2:{ intros _. rewrite (hit_same Heading). now apply link_not_heading. }
  cbn [pass].
  rewrite (rewrite_first_front Embed) by (cbn [tail_ok]; now rewrite tail_ok_pass with (j := Link)).
  reflexivity.
Qed.

(** After the pass of regular links no regular link to [X] is in front. *)
Lemma no_hit_after t : hit Link X (rewrite_first Link X Y t) = false.
Proof.
  destruct t as [|d t]; [reflexivity|]. cbn [rewrite_first].
  destruct (hit Link X (d :: t)) eqn:E.
  - apply hit_inv in E as (r0 & -> & Hr). rewrite retarget_shape.
    apply hit_other; try assumption. now apply (tail_ok_delim Link).
  - rewrite hit_cons_rewrite; [assumption|assumption|assumption|discriminate|assumption].
Qed.

Lemma no_fire uh up ue c t :
  (uh = false -> hit Heading X (c :: t) = false) ->
  (up = false -> hit Link X (c :: t) = false) ->
  (ue = false -> up = true -> hit Embed X (c :: t) = false) ->
  three_passes X Y uh up ue (c :: t) = c :: three_passes X Y uh up ue t.
Proof.
  intros Hh Hp He. unfold three_passes.
  rewrite (pass_cons Heading) by assumption.
  rewrite (pass_cons Link).
  2:{ intros Hu. rewrite hit_cons_pass; [auto|discriminate|assumption]. }
  rewrite (pass_cons Embed); [reflexivity|].
  intros Hu. destruct up.
  - cbn [pass]. destruct uh; cbn [pass]; [auto|].
    rewrite hit_embed_cons_rewrite; [auto|assumption..|discriminate].
  - cbn [pass]. rewrite hit_embed. rewrite no_hit_after. apply andb_false_r.
Qed.

End Passes.

Lemma any_hit_cons k Y c s :
  any_hit k Y (c :: s) = false -> hit k Y (c :: s) = false /\ any_hit k Y s = false.
Proof. cbn [any_hit]. now intros ?%orb_false_iff. Qed.

Lemma any_hit_suffix k Y (u r : str) :
  any_hit k Y (u ++ r) = false -> any_hit k Y r = false.
Proof.
  induction u as [|c u IH]; [auto|]. cbn [app]. intros H%any_hit_cons. now apply IH.
Qed.

Lemma seg_round_flags X Y :
  wordy X -> wordy Y -> X <> Y ->
  forall n s, length s <= n ->
    (forall k, any_hit k Y s = false) ->
    forall uh up ue,
      three_passes Y X uh up ue (three_passes X Y uh up ue s) = s.
Proof.
  intros HX HY HXY. assert (HYX : Y <> X) by congruence.
  induction n as [|n IH]; intros s Hn Hno uh up ue.
  - destruct s; [|cbn in Hn; lia]. now destruct uh, up, ue.
  - destruct s as [|c s']; [now destruct uh, up, ue|].
    destruct (negb uh && hit Heading X (c :: s')) eqn:EA.
    { (* the heading pass rewrites here *)
      apply andb_true_iff in EA as [Hu Hh]. apply negb_true_iff in Hu as ->.
      apply hit_inv in Hh as (r & Hs & Hr). cbn [opening tail_ok] in Hs, Hr.
      rewrite Hs in *. rewrite fire_heading by assumption.
      rewrite fire_heading; try assumption.
      2:{ now rewrite (tail_ok_three X Y HX HY Heading). }
      rewrite IH; [reflexivity| |].
      - rewrite !length_app in Hn. simpl in Hn. lia.
      - intros k. apply (any_hit_suffix k Y ("[[" ++ X) r). rewrite <- app_assoc. apply Hno. }
    destruct (negb up && hit Link X (c :: s')) eqn:EB.
    { apply andb_true_iff in EB as [Hu Hh]. apply negb_true_iff in Hu as ->.
      apply hit_inv in Hh as (r & Hs & Hr). cbn [opening tail_ok] in Hs, Hr.
      rewrite Hs in *. rewrite fire_link by assumption.
      rewrite fire_link; try assumption.
      2:{ now rewrite (tail_ok_three X Y HX HY Link). }
      rewrite IH; [reflexivity| |].
      - rewrite !length_app in Hn. simpl in Hn. lia.
      - intros k. apply (any_hit_suffix k Y ("[[" ++ X) r). rewrite <- app_assoc. apply Hno. }
    destruct (negb ue && up && hit Embed X (c :: s')) eqn:EC.
    { apply andb_true_iff in EC as [Hu Hh]. apply andb_true_iff in Hu as [Hu ->].
      apply negb_true_iff in Hu as ->.
      apply hit_inv in Hh as (r & Hs & Hr). cbn [opening tail_ok] in Hs, Hr.
      rewrite Hs in *. rewrite fire_embed by assumption.
      rewrite fire_embed; try assumption.
      2:{ now rewrite (tail_ok_three X Y HX HY Link). }
      rewrite IH; [reflexivity| |].
      - rewrite !length_app in Hn. simpl in Hn. lia.
      - intros k. apply (any_hit_suffix k Y ("![[" ++ X) r). rewrite <- app_assoc. apply Hno. }
    (* no pass rewrites here *)
    rewrite (no_fire X Y HX HY HXY).
    2:{ intros ->. exact EA. }
    2:{ intros ->. exact EB. }
    2:{ intros -> ->. exact EC. }
    pose proof (fun k => proj1 (any_hit_cons k Y c s' (Hno k))) as Hc.
    pose proof (fun k => proj2 (any_hit_cons k Y c s' (Hno k))) as Hs'.
    rewrite (no_fire Y X HY HX HYX).
    + rewrite IH; [reflexivity|cbn [length] in Hn; lia|assumption].
    + intros _. rewrite (hit_cons_three X Y HX HY); [apply Hc|discriminate|assumption].
    + intros _. rewrite (hit_cons_three X Y HX HY); [apply Hc|discriminate|assumption].
    + intros _ ->. rewrite (hit_embed_cons_three X Y HX HY); [apply Hc|assumption].
Qed.

Lemma span_over p (w tl : str) :
  match tl with [] => True | c :: _ => p c = false end ->
  Str.span p (w ++ tl) = (fst (Str.span p w), snd (Str.span p w) ++ tl).
Proof.
  intros Htl. induction w as [|x w IH]; cbn [app Str.span].
  - destruct tl as [|c tl]; [reflexivity|]. cbn. now rewrite Htl.
  - destruct (p x); [|reflexivity]. rewrite IH.
    now destruct (Str.span p w).
Qed.

Lemma avoids_cons cs c s : avoids cs (c :: s) = outside cs c && avoids cs s.
Proof. reflexivity. Qed.

Lemma span_avoids cs p (w : str) :
  avoids cs w = true ->
  avoids cs (fst (Str.span p w)) = true /\ avoids cs (snd (Str.span p w)) = true.
Proof.
  induction w as [|x w IH]; [split; reflexivity|]. rewrite avoids_cons.
  intros Hw. apply andb_true_iff in Hw as [Hx Hw]. cbn [Str.span].
  destruct (p x).
  - destruct (IH Hw) as [H1 H2]. destruct (Str.span p w) as [u v]; cbn [fst snd] in *.
    split; [|assumption]. unfold avoids in *. cbn [forallb]. now rewrite Hx.
  - cbn [fst snd]. split; [reflexivity|]. unfold avoids in *. cbn [forallb]. now rewrite Hx.
Qed.

Lemma at_bracket_stops cs tl :
  at_bracket tl = true -> "]"%char ∈ cs -> stops cs tl = true.
Proof.
  destruct tl as [|c tl]; [reflexivity|]. cbn. intros Hc%Ascii.eqb_eq Hin. subst c.
  apply negb_true_iff. destruct (outside cs "]") eqn:E; [|reflexivity].
  pose proof (outside_in _ _ _ E Hin) as E'. now rewrite Ascii.eqb_refl in E'.
Qed.

Lemma starts_with_close c t :
  Str.starts_with "]]" (c :: t) = Ascii.eqb c "]" && Str.starts_with "]" t.
Proof. reflexivity. Qed.

Lemma alias_close_seg r rest :
  avoids "]" r = true ->
  alias_close (r ++ "]]" ++ rest)
  = if link_tail r then Some (alias_of r, rest) else None.
Proof.
  intros Hr. destruct r as [|c v]; [reflexivity|].
  rewrite avoids_cons in Hr. apply andb_true_iff in Hr as [Hc Hv].
  cbn [app alias_close link_tail alias_of].
  destruct (Ascii.eqb c "|") eqn:E.
  - destruct v as [|v0 v].
    + rewrite app_nil_l, plus_span_stop; reflexivity.
    + rewrite plus_span_run; [reflexivity|discriminate|assumption|reflexivity].
  - rewrite starts_with_close. now not_in_class Hc.
Qed.

Lemma alias_close_open r tl :
  avoids "]" r = true -> at_bracket tl = true -> Str.starts_with "]]" tl = false ->
  alias_close (r ++ tl) = None.
Proof.
  intros Hr Hb Hs. destruct r as [|c v].
  - rewrite app_nil_l. unfold alias_close. destruct tl as [|x tl]; [reflexivity|].
    cbn in Hb. apply Ascii.eqb_eq in Hb as ->. cbn [Ascii.eqb]. cbn. cbn in Hs. now rewrite Hs.
  - rewrite avoids_cons in Hr. apply andb_true_iff in Hr as [Hc Hv].
    cbn [app alias_close]. destruct (Ascii.eqb c "|") eqn:E.
    + destruct v as [|v0 v].
      * rewrite app_nil_l, plus_span_stop; [reflexivity|].
        apply at_bracket_stops; [assumption|class_solver].
      * rewrite plus_span_run; [now rewrite Hs|discriminate|assumption|].
        apply at_bracket_stops; [assumption|class_solver].
    + rewrite starts_with_close. now not_in_class Hc.
Qed.

Lemma heading_close_seg r rest :
  avoids "]" r = true ->
  heading_close (r ++ "]]" ++ rest)
  = if heading_tail r
    then Some (fst (Str.span (outside "]|") (drop 1 r)),
               alias_of (snd (Str.span (outside "]|") (drop 1 r))), rest)
    else None.
Proof.
  intros Hr. destruct r as [|c w]; [reflexivity|].
  rewrite avoids_cons in Hr. apply andb_true_iff in Hr as [Hc Hw].
  change (drop 1 (c :: w)) with w.
  cbn [app heading_close heading_tail].
  destruct (Ascii.eqb c "#"); [|reflexivity]. cbn [andb].
  unfold plus_span. rewrite span_over by reflexivity.
  destruct (span_avoids "]" (outside "]|") w Hw) as [_ Hv].
  destruct (Str.span (outside "]|") w) as [hd v]; cbn [fst snd] in *.
  destruct hd as [|h0 hd]; [reflexivity|]. cbn [is_nil negb andb].
  rewrite alias_close_seg by assumption. now destruct (link_tail v).
Qed.

Lemma heading_close_open r tl :
  avoids "]" r = true -> at_bracket tl = true -> Str.starts_with "]]" tl = false ->
  heading_close (r ++ tl) = None.
Proof.
  intros Hr Hb Hs. destruct r as [|c w].
  - rewrite app_nil_l. destruct tl as [|x tl]; [reflexivity|].
    cbn in Hb. apply Ascii.eqb_eq in Hb as ->. reflexivity.
  - rewrite avoids_cons in Hr. apply andb_true_iff in Hr as [Hc Hw].
    cbn [app heading_close]. destruct (Ascii.eqb c "#"); [|reflexivity].
    unfold plus_span. rewrite span_over.
    2:{ destruct tl as [|x tl]; [exact I|]. cbn in Hb. now apply Ascii.eqb_eq in Hb as ->. }
    destruct (span_avoids "]" (outside "]|") w Hw) as [_ Hv].
    destruct (Str.span (outside "]|") w) as [hd v]; cbn [fst snd] in *.
    destruct hd as [|h0 hd]; [reflexivity|].
    now rewrite alias_close_open.
Qed.

Lemma alias_part_of v : link_tail v = true -> alias_part (alias_of v) = v.
Proof.
  destruct v as [|c v]; [reflexivity|]. cbn [link_tail alias_of].
  intros Hv. apply andb_true_iff in Hv as [Hc Hv]. apply Ascii.eqb_eq in Hc as ->.
  destruct v; [discriminate|reflexivity].
Qed.

(** ** The patterns of a move, read directly *)

Lemma run_chr c r x s caps k :
  run (Chr c <.> r) (x :: s) caps k = if Ascii.eqb x c then run r s caps k else None.
Proof. reflexivity. Qed.

Lemma exec_moved_link X s :
  exec (moved_link_re X) s
  = if Str.starts_with ("[[" ++ X) s then
      match alias_close (drop (length ("[[" ++ X)) s) with
      | Some (al, rest) => Some (consumed s rest, add_cap 1 al [], rest)
      | None => None
      end
    else None.
Proof.
  unfold exec, moved_link_re. rewrite starts_with_split, run_lit.
  destruct (Str.starts_with "[[" s); [|reflexivity]. cbn [andb].
  rewrite run_lit. destruct (Str.starts_with X _); [|reflexivity].
  rewrite run_alias_close, length_app, <- drop_drop.
  now destruct (alias_close _) as [[al rest]|].
Qed.

Lemma exec_moved_heading X s :
  exec (moved_heading_re X) s
  = if Str.starts_with ("[[" ++ X) s then
      match heading_close (drop (length ("[[" ++ X)) s) with
      | Some (hd, al, rest) =>
          Some (consumed s rest, add_cap 2 al [(1, "#"%char :: hd)], rest)
      | None => None
      end
    else None.
Proof.
  unfold exec, moved_heading_re. rewrite starts_with_split, run_lit.
  destruct (Str.starts_with "[[" s); [|reflexivity]. cbn [andb].
  rewrite run_lit. destruct (Str.starts_with X _); [|reflexivity].
  rewrite length_app, <- drop_drop.
  destruct (drop (length X) (drop (length ("[[" : str)) s)) as [|x s1]; [reflexivity|].
  change (run (Grp 1 (Chr "#" <.> PlusNoneOf "]|") <.> ?r) (x :: s1) ?c ?k)
    with (if Ascii.eqb x "#" then
            run (PlusNoneOf "]|") s1 c
              (fun s' caps' => run r s' ((1, consumed (x :: s1) s') :: caps') k)
          else None).
  cbn [heading_close]. destruct (Ascii.eqb x "#") eqn:Ex; [|reflexivity].
  rewrite run_plus.
  2:{ intros c t Hc. rewrite run_alias_close. now rewrite alias_close_outside. }
  destruct (plus_span "]|" s1) as [[hd s2]|] eqn:Ep; [|reflexivity].
  apply plus_span_eq in Ep as [-> _].
  rewrite run_alias_close.
  change (x :: hd ++ s2) with ((x :: hd) ++ s2). rewrite consumed_app.
  apply Ascii.eqb_eq in Ex as ->.
  now destruct (alias_close s2) as [[al rest]|].
Qed.

Lemma exec_moved_embed X x s :
  exec (moved_embed_re X) (x :: s)
  = if Ascii.eqb x "!" && Str.starts_with ("[[" ++ X) s then
      match alias_close (drop (length ("[[" ++ X)) s) with
      | Some (al, rest) => Some (consumed (x :: s) rest, add_cap 1 al [], rest)
      | None => None
      end
    else None.
Proof.
  pose proof (exec_moved_link X s) as Hl. unfold exec in *.
  unfold moved_embed_re. rewrite run_chr.
  destruct (Ascii.eqb x "!"); [|reflexivity]. cbn [andb].
  destruct (run (moved_link_re X) s [] _) as [[s' caps]|];
    destruct (Str.starts_with ("[[" ++ X) s); try discriminate; try reflexivity.
  - destruct (alias_close _) as [[al rest]|]; [|discriminate].
    now injection Hl as _ -> ->.
  - destruct (alias_close _) as [[al rest]|]; [discriminate|reflexivity].
Qed.

Lemma starts_with_ext (p t tl : str) :
  avoids "]" p = true -> at_bracket tl = true ->
  Str.starts_with p (t ++ tl) = Str.starts_with p t.
Proof.
  revert t; induction p as [|a p IH]; intros t Hp Hb; [reflexivity|].
  rewrite avoids_cons in Hp. apply andb_true_iff in Hp as [Ha Hp].
  destruct t as [|c t].
  - rewrite app_nil_l. destruct tl as [|x tl]; [reflexivity|].
    cbn in Hb. apply Ascii.eqb_eq in Hb as ->. cbn [Str.starts_with].
    rewrite Ascii.eqb_sym. now not_in_class Ha.
  - cbn [app Str.starts_with]. now rewrite IH.
Qed.

Lemma drop_starts (p t tl : str) :
  Str.starts_with p t = true ->
  drop (length p) (t ++ tl) = drop (length p) t ++ tl.
Proof.
  intros [r ->]%starts_with_spec. now rewrite <- app_assoc, !drop_app_length'.
Qed.

Lemma avoids_drop cs n (t : str) : avoids cs t = true -> avoids cs (drop n t) = true.
Proof.
  intros Ht. rewrite <- (take_drop n t) in Ht. rewrite avoids_app in Ht.
  now apply andb_true_iff in Ht as [_ Ht].
Qed.

Lemma opening_avoids k : avoids "]" (opening k) = true.
Proof. now destruct k. Qed.

Lemma head_avoids k X : wordy X -> avoids "]" (opening k ++ X) = true.
Proof.
  intros HX. rewrite avoids_app, opening_avoids. eapply wordy_sub; eauto. class_solver.
Qed.

Lemma group_add i al : group i (add_cap i al []) = al.
Proof. destruct al; cbn; [|reflexivity]. now rewrite Nat.eqb_refl. Qed.

Section ExecOnSegments.

Variables (X Y : str).
Hypothesis HX : wordy X.

Lemma exec_seg k t rest :
  avoids "]" t = true ->
  if hit k X t then
    exists caps,
      exec (moved_re k X) (t ++ "]]" ++ rest) = Some (t ++ "]]", caps, rest)
      /\ callback k Y (t ++ "]]") caps = retarget k X Y t ++ "]]"
  else exec (moved_re k X) (t ++ "]]" ++ rest) = None.
Proof.
  intros Ht. destruct k.
  - (* heading links *)
    cbn [moved_re callback]. rewrite exec_moved_heading.
    rewrite starts_with_ext; [|apply (head_avoids Heading); assumption|reflexivity].
    unfold hit. cbn [opening tail_ok].
    destruct (Str.starts_with ("[[" ++ X) t) eqn:E; [|reflexivity]. cbn [andb].
    rewrite drop_starts by assumption.
    rewrite heading_close_seg by now apply avoids_drop.
    apply starts_with_spec in E as [r ->]. rewrite drop_app_length'.
    destruct (heading_tail r) eqn:Er; [|reflexivity].
    eexists. split; [now rewrite consumed_shape|].
    unfold retarget. cbn [opening]. rewrite drop_app_length'.
    unfold heading_to.
    destruct r as [|c w]; [discriminate|]. cbn [heading_tail] in Er.
    apply andb_true_iff in Er as [Er Hv]. apply andb_true_iff in Er as [Hc _].
    apply Ascii.eqb_eq in Hc as ->. change (drop 1 ("#"%char :: w)) with w.
    pose proof (span_eq (outside "]|") w) as Hw.
    destruct (Str.span (outside "]|") w) as [hd v]; cbn [fst snd] in *.
    assert (Hc1 : cap 1 (add_cap 2 (alias_of v) [(1, "#"%char :: hd)]) = "#"%char :: hd)
      by now destruct (alias_of v).
    assert (Hg2 : group 2 (add_cap 2 (alias_of v) [(1, "#"%char :: hd)]) = alias_of v)
      by now destruct (alias_of v).
    rewrite Hc1, Hg2, alias_part_of by assumption. subst w.
    rewrite <- !app_assoc. cbn [app]. now rewrite <- app_assoc.
  - (* regular links *)
    cbn [moved_re callback]. rewrite exec_moved_link.
    rewrite starts_with_ext; [|apply (head_avoids Link); assumption|reflexivity].
    unfold hit. cbn [opening tail_ok].
    destruct (Str.starts_with ("[[" ++ X) t) eqn:E; [|reflexivity]. cbn [andb].
    rewrite drop_starts by assumption.
    rewrite alias_close_seg by now apply avoids_drop.
    apply starts_with_spec in E as [r ->]. rewrite drop_app_length'.
    destruct (link_tail r) eqn:Er; [|reflexivity].
    eexists. split; [now rewrite consumed_shape|].
    unfold retarget. cbn [opening]. rewrite drop_app_length'.
    unfold link_to. rewrite group_add, alias_part_of by assumption.
    now rewrite <- !app_assoc.
  - (* embedded links *)
    cbn [moved_re callback]. unfold hit. cbn [opening tail_ok].
    destruct t as [|x t].
    + reflexivity.
    + rewrite avoids_cons in Ht. apply andb_true_iff in Ht as [Hx Ht].
      cbn [app]. rewrite exec_moved_embed.
      change ("![[" ++ X) with ("!"%char :: "[[" ++ X).
      cbn [Str.starts_with length drop].
      destruct (Ascii.eqb x "!") eqn:Ex; [|reflexivity]. cbn [andb].
      apply Ascii.eqb_eq in Ex as ->.
      rewrite starts_with_ext; [|apply (head_avoids Link); assumption|reflexivity].
      destruct (Str.starts_with ("[[" ++ X) t) eqn:E; [|reflexivity]. cbn [andb].
      rewrite drop_starts by assumption.
      rewrite alias_close_seg by now apply avoids_drop.
      apply starts_with_spec in E as [r ->]. rewrite drop_app_length'.
      destruct (link_tail r) eqn:Er; [|reflexivity].
      eexists. split.
      * change ("!"%char :: (("[[" ++ X) ++ r) ++ "]]" ++ rest)
          with (("!"%char :: ("[[" ++ X) ++ r) ++ "]]" ++ rest).
        now rewrite consumed_shape.
      * unfold retarget. cbn [opening].
        change ("![[" ++ X) with ("!"%char :: "[[" ++ X).
        cbn [length app drop]. rewrite drop_app_length'.
        unfold embed_to. rewrite group_add, alias_part_of by assumption.
        now rewrite <- !app_assoc.
Qed.

Lemma exec_open k t tl :
  avoids "]" t = true -> at_bracket tl = true -> Str.starts_with "]]" tl = false ->
  exec (moved_re k X) (t ++ tl) = None.
Proof.
  intros Ht Hb Hs. destruct k; cbn [moved_re].
  - rewrite exec_moved_heading.
    rewrite starts_with_ext; [|apply (head_avoids Heading); assumption|assumption].
    destruct (Str.starts_with ("[[" ++ X) t) eqn:E; [|reflexivity].
    rewrite drop_starts by assumption.
    now rewrite heading_close_open by (try apply avoids_drop; assumption).
  - rewrite exec_moved_link.
    rewrite starts_with_ext; [|apply (head_avoids Link); assumption|assumption].
    destruct (Str.starts_with ("[[" ++ X) t) eqn:E; [|reflexivity].
    rewrite drop_starts by assumption.
    now rewrite alias_close_open by (try apply avoids_drop; assumption).
  - destruct t as [|x t].
    + rewrite app_nil_l. destruct tl as [|c tl]; [reflexivity|].
      cbn in Hb. apply Ascii.eqb_eq in Hb as ->. now rewrite exec_moved_embed.
    + rewrite avoids_cons in Ht. apply andb_true_iff in Ht as [Hx Ht].
      cbn [app]. rewrite exec_moved_embed.
      destruct (Ascii.eqb x "!"); [|reflexivity]. cbn [andb].
      rewrite starts_with_ext; [|apply (head_avoids Link); assumption|assumption].
      destruct (Str.starts_with ("[[" ++ X) t) eqn:E; [|reflexivity].
      rewrite drop_starts by assumption.
      now rewrite alias_close_open by (try apply avoids_drop; assumption).
Qed.

End ExecOnSegments.

Lemma app_close (s tl : str) :
  starts_closed tl = true -> exists rest, s ++ "]"%char :: tl = s ++ "]]" ++ rest /\ tl = "]"%char :: rest.
Proof.
  unfold starts_closed. destruct tl as [|c tl]; [discriminate|]. cbn.
  rewrite andb_true_r. intros ->%Ascii.eqb_eq. now exists tl.
Qed.

Lemma not_closed (tl : str) :
  starts_closed tl = false ->
  at_bracket ("]"%char :: tl) = true /\ Str.starts_with "]]" ("]"%char :: tl) = false.
Proof. unfold starts_closed. intros Hs. split; [reflexivity|exact Hs]. Qed.

Lemma avoids_retarget k X Y t :
  wordy Y -> avoids "]" t = true -> avoids "]" (retarget k X Y t) = true.
Proof.
  intros HY Ht. unfold retarget. rewrite app_assoc, avoids_app.
  rewrite (head_avoids k Y HY). now apply avoids_drop.
Qed.

Lemma avoids_rewrite_first k X Y t :
  wordy Y -> avoids "]" t = true -> avoids "]" (rewrite_first k X Y t) = true.
Proof.
  intros HY. induction t as [|c t IH]; [reflexivity|]. intros Ht. cbn [rewrite_first].
  destruct (hit k X (c :: t)); [now apply avoids_retarget|].
  rewrite avoids_cons in *. apply andb_true_iff in Ht as [-> Ht]. now apply IH.
Qed.

(** Every text is a run without closing bracket, followed by nothing or by
    a closing bracket and more text. *)
Lemma segment_of (T : str) :
  exists s tl, T = s ++ tl /\ avoids "]" s = true /\ at_bracket tl = true.
Proof.
  exists (fst (Str.span (outside "]") T)), (snd (Str.span (outside "]") T)).
  split; [now rewrite span_eq|]. split.
  - pose proof (span_all (outside "]") T) as Ha. unfold avoids.
    now apply forallb_forall, List.Forall_forall.
  - pose proof (span_stop (outside "]") T) as Hs.
    destruct (snd (Str.span (outside "]") T)) as [|c tl]; [reflexivity|].
    specialize (Hs c tl eq_refl). cbn in *. now destruct (Ascii.eqb c "]").
Qed.

Section SegmentsOfAText.

Variables (k : kind) (X Y : str).
Hypothesis HX : wordy X.

Lemma exec_at_bracket tl : exec (moved_re k X) ("]"%char :: tl) = None.
Proof.
  destruct (starts_closed tl) eqn:E.
  - destruct (app_close [] tl E) as (rest & He & _). cbn [app] in He.
    change ("]"%char :: tl) with ([] ++ "]"%char :: tl). rewrite He.
    pose proof (exec_seg X Y HX k [] rest eq_refl) as Hs.
    now destruct k.
  - destruct (not_closed tl E) as [Hb Hs].
    now apply (exec_open X HX k []).
Qed.

Lemma replace_all_segment s tl :
  avoids "]" s = true ->
  replace_all (moved_re k X) (callback k Y) (s ++ "]"%char :: tl)
  = (if starts_closed tl then rewrite_first k X Y s else s)
    ++ "]"%char :: replace_all (moved_re k X) (callback k Y) tl.
Proof.
  induction s as [|c s IH]; intros Hs.
  - rewrite app_nil_l, replace_all_miss by apply exec_at_bracket.
    now destruct (starts_closed tl).
  - pose proof Hs as Hs'. rewrite avoids_cons in Hs'. apply andb_true_iff in Hs' as [_ Hs'].
    destruct (starts_closed tl) eqn:E.
    + destruct (app_close (c :: s) tl E) as (rest & He & Htl). rewrite He.
      pose proof (exec_seg X Y HX k (c :: s) rest Hs) as Hx.
      cbn [rewrite_first]. destruct (hit k X (c :: s)).
      * destruct Hx as (caps & Hx & Hc).
        rewrite (replace_all_hit _ _ _ _ _ _ Hx) by discriminate.
        rewrite Hc, Htl, replace_all_miss by apply exec_at_bracket.
        now rewrite <- !app_assoc.
      * rewrite <- He. cbn [app]. rewrite replace_all_miss by (rewrite <- He in Hx; exact Hx).
        rewrite IH by assumption. reflexivity.
    + destruct (not_closed tl E) as [Hb Ht].
      cbn [app]. rewrite replace_all_miss.
      2:{ change (c :: s ++ "]"%char :: tl) with ((c :: s) ++ "]"%char :: tl).
          now apply exec_open. }
      rewrite IH by assumption. reflexivity.
Qed.

Lemma replace_all_open s :
  avoids "]" s = true -> replace_all (moved_re k X) (callback k Y) s = s.
Proof.
  induction s as [|c s IH]; [reflexivity|]. intros Hs.
  pose proof Hs as Hs'. rewrite avoids_cons in Hs'. apply andb_true_iff in Hs' as [_ Hs'].
  rewrite replace_all_miss; [now rewrite IH|].
  rewrite <- (app_nil_r (c :: s)). now apply exec_open.
Qed.

Lemma match_all_segment s tl :
  avoids "]" s = true ->
  match_all (moved_re k X) (s ++ "]"%char :: tl) = [] ->
  (starts_closed tl = true -> any_hit k X s = false)
  /\ match_all (moved_re k X) tl = [].
Proof.
  induction s as [|c s IH]; intros Hs Hm.
  - rewrite app_nil_l, match_all_miss in Hm by apply exec_at_bracket. now split.
  - pose proof Hs as Hs'. rewrite avoids_cons in Hs'. apply andb_true_iff in Hs' as [_ Hs'].
    destruct (starts_closed tl) eqn:E.
    + destruct (app_close (c :: s) tl E) as (rest & He & Htl).
      pose proof (exec_seg X Y HX k (c :: s) rest Hs) as Hx. rewrite <- He in Hx.
      cbn [any_hit]. destruct (hit k X (c :: s)).
      * destruct Hx as (caps & Hx & _).
        rewrite (match_all_hit _ _ _ _ _ Hx) in Hm by discriminate. discriminate.
      * cbn [app] in Hm, Hx. rewrite match_all_miss in Hm by assumption.
        destruct (IH Hs' Hm) as [H1 H2]. split; [|assumption]. intros _. now apply H1.
    + destruct (not_closed tl E) as [Hb Ht].
      cbn [app] in Hm. rewrite match_all_miss in Hm.
      2:{ change (c :: s ++ "]"%char :: tl) with ((c :: s) ++ "]"%char :: tl).
          now apply exec_open. }
      destruct (IH Hs' Hm) as [_ H2]. split; [discriminate|assumption].
Qed.

(** A pass does not create or remove a closing bracket at the front. *)
Lemma starts_closed_replace T :
  wordy Y ->
  starts_closed (replace_all (moved_re k X) (callback k Y) T) = starts_closed T.
Proof.
  intros HY. destruct (segment_of T) as (s & tl & -> & Hs & Htl).
  destruct tl as [|c tl].
  - rewrite app_nil_r, replace_all_open by assumption. reflexivity.
  - cbn in Htl. apply Ascii.eqb_eq in Htl as ->.
    rewrite replace_all_segment by assumption.
    destruct s as [|c s]; [now destruct (starts_closed tl)|].
    pose proof Hs as Hs'. rewrite avoids_cons in Hs'. apply andb_true_iff in Hs' as [Hc _].
    assert (Hn : starts_closed ((c :: s) ++ "]"%char :: tl) = false).
    { unfold starts_closed. cbn. now not_in_class Hc. }
    rewrite Hn. destruct (starts_closed tl); [|exact Hn].
    pose proof (avoids_rewrite_first k X Y (c :: s) HY Hs) as Ha.
    pose proof (rewrite_first_nil_iff k X Y (c :: s)) as Hnil.
    destruct (rewrite_first k X Y (c :: s)) as [|d r]; [discriminate|].
    rewrite avoids_cons in Ha. apply andb_true_iff in Ha as [Hd _].
    unfold starts_closed. cbn. now not_in_class Hd.
Qed.

End SegmentsOfAText.

Lemma rewrite_links_eq X Y T :
  rewrite_links X Y T
  = replace_all (moved_re Embed X) (callback Embed Y)
      (replace_all (moved_re Link X) (callback Link Y)
         (replace_all (moved_re Heading X) (callback Heading Y) T)).
Proof. reflexivity. Qed.

Section RoundTrip.

Variables (X Y : str).
Hypothesis HX : wordy X.
Hypothesis HY : wordy Y.

Lemma rewrite_links_segment s tl :
  avoids "]" s = true ->
  rewrite_links X Y (s ++ "]"%char :: tl)
  = (if starts_closed tl then three_passes X Y false false false s else s)
    ++ "]"%char :: rewrite_links X Y tl.
Proof.
  intros Hs. rewrite !rewrite_links_eq.
  rewrite (replace_all_segment Heading X Y HX) by assumption.
  rewrite (replace_all_segment Link X Y HX).
  2:{ destruct (starts_closed tl); [now apply avoids_rewrite_first|assumption]. }
  rewrite (starts_closed_replace Heading X Y HX) by assumption.
  rewrite (replace_all_segment Embed X Y HX).
  2:{ destruct (starts_closed tl); [|assumption].
      apply avoids_rewrite_first; [assumption|]. now apply avoids_rewrite_first. }
  rewrite (starts_closed_replace Link X Y HX), (starts_closed_replace Heading X Y HX) by assumption.
  now destruct (starts_closed tl).
Qed.

Lemma rewrite_links_open s : avoids "]" s = true -> rewrite_links X Y s = s.
Proof.
  intros Hs. rewrite rewrite_links_eq.
  now rewrite (replace_all_open Heading X Y HX s Hs), (replace_all_open Link X Y HX s Hs),
    (replace_all_open Embed X Y HX s Hs).
Qed.

Lemma starts_closed_rewrite_links T :
  starts_closed (rewrite_links X Y T) = starts_closed T.
Proof.
  rewrite rewrite_links_eq.
  now rewrite (starts_closed_replace Embed X Y HX), (starts_closed_replace Link X Y HX),
    (starts_closed_replace Heading X Y HX).
Qed.

Lemma avoids_three_passes s :
  avoids "]" s = true -> avoids "]" (three_passes X Y false false false s) = true.
Proof.
  intros Hs. unfold three_passes, pass.
  repeat (apply avoids_rewrite_first; [assumption|]). assumption.
Qed.

End RoundTrip.

Lemma round_trip_links X Y :
  wordy X -> wordy Y -> X <> Y ->
  forall n T, length T <= n -> no_links_to Y T ->
    rewrite_links Y X (rewrite_links X Y T) = T.
Proof.
  intros HX HY HXY. induction n as [|n IH]; intros T Hn Hno.
  - destruct T; [reflexivity|cbn in Hn; lia].
  - destruct (segment_of T) as (s & tl & -> & Hs & Htl).
    destruct tl as [|c tl].
    + rewrite app_nil_r.
      now rewrite (rewrite_links_open X Y HX s Hs), (rewrite_links_open Y X HY s Hs).
    + cbn in Htl. apply Ascii.eqb_eq in Htl as ->.
      rewrite (rewrite_links_segment X Y HX HY) by assumption.
      rewrite (rewrite_links_segment Y X HY HX).
      2:{ destruct (starts_closed tl); [now apply avoids_three_passes|assumption]. }
      rewrite (starts_closed_rewrite_links X Y HX HY).
      assert (Htl : no_links_to Y tl).
      { intros k. now destruct (match_all_segment k Y X HY s tl Hs (Hno k)). }
      rewrite IH; [|rewrite length_app in Hn; cbn in Hn; lia|assumption].
      destruct (starts_closed tl) eqn:E; [|reflexivity].
      rewrite (seg_round_flags X Y HX HY HXY (length s)); [reflexivity|lia|].
      intros k. now destruct (match_all_segment k Y X HY s tl Hs (Hno k)) as [H1 _]; auto.
Qed.

(** ** Renaming there and back *)

Lemma plain_wordy N : N <> [] -> plain_name N = true -> wordy N.
Proof.
  intros HN Hp. split; [assumption|]. eapply avoids_sub; [|exact Hp].
  class_solver.
Qed.

Lemma replace_all_no_match r f T : match_all r T = [] -> replace_all r f T = T.
Proof.
  unfold match_all, replace_all. induction T as [|c T IH]; [reflexivity|].
  cbn [match_all_from replace_all_from].
  destruct (exec r (c :: T)) as [[[m caps] rest]|]; [discriminate|].
  intros Hm. now rewrite IH.
Qed.

Lemma rewrite_links_no_match X Y T : no_links_to X T -> rewrite_links X Y T = T.
Proof.
  intros Hno. rewrite rewrite_links_eq.
  rewrite (replace_all_no_match _ _ T (Hno Heading)).
  rewrite (replace_all_no_match _ _ T (Hno Link)).
  now rewrite (replace_all_no_match _ _ T (Hno Embed)).
Qed.

Lemma basename_nil : Path.basename [] ".md" = [].
Proof. reflexivity. Qed.

(** C6, as amended: for base names [A] and [B] that are not empty and
    free of pattern metacharacters, [#] and [!], and a text that holds no
    link to [B], renaming [A] to [B] and then [B] to [A] gives the text
    back, character for character: regular, heading and embedded links,
    with their heading and alias. *)
Theorem rename_round_trip
  (content pathA pathB : str) (options : UpdateOptions) :
  let A := Path.basename pathA ".md" in
  let B := Path.basename pathB ".md" in
  A <> [] -> plain_name A = true ->
  B <> [] -> plain_name B = true ->
  default false (opt_moveToOtherVault options)
    && truthy (opt_destVaultName options) = false ->
  no_links_to B content ->
  updateWikiLinks
    (updateWikiLinks content pathA (Some pathB) options)
    pathB (Some pathA) options
  = content.
Proof.
  intros A B HA0 HA HB0 HB Hopt Hno.
  assert (HpA : truthy (Some pathA) = true).
  { destruct pathA; [|reflexivity]. exfalso. apply HA0. apply basename_nil. }
  assert (HpB : truthy (Some pathB) = true).
  { destruct pathB; [|reflexivity]. exfalso. apply HB0. apply basename_nil. }
  unfold updateWikiLinks. rewrite HpA, HpB, Hopt. cbn [negb]. unfold id, default; cbn [from_option].
  fold A B. clearbody A B.
  destruct (decide (A = B)) as [E|E].
  - subst B. now rewrite !(rewrite_links_no_match A A content Hno).
  - apply (round_trip_links A B (plain_wordy A HA0 HA) (plain_wordy B HB0 HB) E
             (length content)); [lia|assumption].
Qed.

Lemma rename_round_trip_witness :
  updateWikiLinks
    (updateWikiLinks "see [[A]], [[A#h|x]] and ![[A|y]]" "A.md"
       (Some ("B.md" : str)) no_options)
    "B.md" (Some ("A.md" : str)) no_options
  = "see [[A]], [[A#h|x]] and ![[A|y]]".
Proof.
  apply (rename_round_trip "see [[A]], [[A#h|x]] and ![[A|y]]" "A.md" "B.md" no_options).
  - discriminate.
  - reflexivity.
  - discriminate.
  - reflexivity.
  - reflexivity.
  - intros k; destruct k; reflexivity.
Defined.

(** C6 fails as stated: a text that already links to [B] does not come
    back. *)
Lemma round_trip_lost_on_existing_link :
  updateWikiLinks
    (updateWikiLinks "[[A]] [[B]]" "A.md" (Some ("B.md" : str)) no_options)
    "B.md" (Some ("A.md" : str)) no_options
  <> ("[[A]] [[B]]" : str).
Proof. vm_compute. discriminate. Qed.


Lemma heading_link_recorded_once_witness :
  scan_line [] "see [[Note#Heading]]." 0
  = [ {| text := "[[Note#Heading]]"; target := "Note"; alias := None; line := 1;
         context := "see [[Note#Heading]]."; isHeading := true;
         heading := Some ("Heading" : str) |} ].
Proof.
  exact (heading_link_recorded_once [] "see " "Note" "Heading" None "." 0
           eq_refl eq_refl ltac:(discriminate) eq_refl ltac:(discriminate) eq_refl eq_refl).
Defined.


(** Every match enumerated in a text is what the pattern accepts at some
    position of it. *)
(** * Further properties *)

(** ** The matches of a pattern in a text *)

Lemma match_all_from_exec r : forall s skip,
  Forall (fun mc => exists pre rest,
            s = pre ++ fst mc ++ rest
            /\ exec r (fst mc ++ rest) = Some (fst mc, snd mc, rest))
         (match_all_from r s skip).
Proof.
  induction s as [|c s IH]; intros skip; cbn [match_all_from]; [constructor|].
  assert (Hshift : forall n,
    Forall (fun mc => exists pre rest,
              c :: s = pre ++ fst mc ++ rest
              /\ exec r (fst mc ++ rest) = Some (fst mc, snd mc, rest))
           (match_all_from r s n)).
  { intros n. eapply Forall_impl; [apply IH|].
    intros mc (pre & rest & -> & He). now exists (c :: pre), rest. }
  destruct skip as [|n]; [|apply Hshift].
  destruct (exec r (c :: s)) as [[[m caps] rest]|] eqn:E; [|apply Hshift].
  constructor; [|apply Hshift].
  pose proof (exec_sound _ _ _ _ _ E) as Hs.
  exists [], rest. cbn [fst snd app]. now rewrite <- Hs.
Qed.

Lemma match_all_exec r s :
  Forall (fun mc => exists pre rest,
            s = pre ++ fst mc ++ rest
            /\ exec r (fst mc ++ rest) = Some (fst mc, snd mc, rest))
         (match_all r s).
Proof. apply match_all_from_exec. Qed.

(** What the regular scan pushes: occurrences of some of the matches, in
    their order. *)
Lemma regular_scan_pushes ln index ms : forall acc,
  exists ms',
    fold_left (push_unless_captured ln index) ms acc
    = acc ++ map (plain_occurrence ln index) ms'
    /\ sublist ms' ms
    /\ NoDup (fst <$> ms')
    /\ Forall (fun m => existsb (fun l => Str.eqb (text l) (fst m)) acc = false) ms'.
Proof.
  induction ms as [|m ms IH]; intros acc.
  - exists []. cbn. rewrite app_nil_r. repeat split; constructor.
  - cbn [fold_left]. unfold push_unless_captured at 2.
    destruct (existsb _ acc) eqn:E.
    + destruct (IH acc) as (ms' & -> & Hsub & Hnd & Hall).
      exists ms'. repeat split; try assumption. now apply sublist_cons.
    + destruct (IH (acc ++ [plain_occurrence ln index m])) as (ms' & -> & Hsub & Hnd & Hall).
      exists (m :: ms'). rewrite <- app_assoc. cbn [map app].
      assert (Hall' : Forall (fun m' => existsb (fun l => Str.eqb (text l) (fst m')) acc = false
                                        /\ fst m' <> fst m) ms').
      { eapply Forall_impl; [exact Hall|]. intros m' Hm'. cbn beta in Hm'.
        rewrite existsb_snoc in Hm'. apply orb_false_elim in Hm' as [H1 H2].
        split; [exact H1|]. cbn [plain_occurrence text] in H2.
        unfold Str.eqb in H2. apply bool_decide_eq_false in H2. congruence. }
      repeat split.
      * now apply sublist_skip.
      * cbn [fmap list_fmap]. constructor; [|exact Hnd].
        intros Hin. apply list_elem_of_fmap in Hin as (m' & Heq & Hin).
        rewrite Forall_forall in Hall'. destruct (Hall' m' Hin) as [_ Hne].
        congruence.
      * constructor; [exact E|]. eapply Forall_impl; [exact Hall'|]. now intros ? [? _].
Qed.

(** The occurrences one line adds to the list. *)
Lemma scan_line_shape acc ln index :
  exists ps,
    scan_line acc ln index
    = acc ++ map (heading_occurrence ln index) (match_all HEADING_LINK_REGEX ln)
          ++ map (plain_occurrence ln index) ps
          ++ map (plain_occurrence ln index) (match_all EMBEDDED_LINK_REGEX ln)
    /\ sublist ps (match_all WIKI_LINK_REGEX ln)
    /\ NoDup (fst <$> ps)
    /\ Forall (fun m => existsb (fun l => Str.eqb (text l) (fst m))
                          (acc ++ map (heading_occurrence ln index)
                                      (match_all HEADING_LINK_REGEX ln)) = false) ps.
Proof.
  unfold scan_line.
  destruct (regular_scan_pushes ln index (match_all WIKI_LINK_REGEX ln)
              (acc ++ map (heading_occurrence ln index) (match_all HEADING_LINK_REGEX ln)))
    as (ps & -> & Hsub & Hnd & Hall).
  exists ps. rewrite <- !app_assoc. repeat split; assumption.
Qed.


Lemma plus_span_inv cs s u v :
  plus_span cs s = Some (u, v) -> s = u ++ v /\ u <> [] /\ avoids cs u = true.
Proof.
  intros Hp. destruct (plus_span_eq _ _ _ _ Hp) as [-> Hu]. repeat split; [exact Hu|].
  unfold plus_span in Hp. pose proof (span_all (outside cs) (u ++ v)) as Hall.
  destruct (Str.span (outside cs) (u ++ v)) as [u' v'] eqn:E.
  destruct u'; [discriminate|]. injection Hp as <- <-. cbn [fst] in Hall.
  unfold avoids. apply forallb_forall. intros x Hx.
  rewrite Forall_forall in Hall. apply Hall. now apply list_elem_of_In.
Qed.

Lemma starts_with_drop (u s : str) :
  Str.starts_with u s = true -> s = u ++ drop (length u) s.
Proof.
  intros Hs. apply starts_with_spec in Hs as [r ->]. now rewrite drop_app_length'.
Qed.

Lemma alias_close_inv s al rest :
  alias_close s = Some (al, rest) ->
  s = bar al ++ "]]" ++ rest /\ captured_alias al.
Proof.
  unfold alias_close. destruct s as [|x s1]; [discriminate|].
  destruct (Ascii.eqb x "|") eqn:Ex.
  - apply Ascii.eqb_eq in Ex as ->.
    destruct (plus_span "]" s1) as [[a s2]|] eqn:Ep; [|discriminate].
    destruct (Str.starts_with "]]" s2) eqn:Es; [|discriminate].
    intros [= <- <-]. destruct (plus_span_inv _ _ _ _ Ep) as (-> & Ha & Hav).
    split; [|now split]. cbn [bar]. rewrite (starts_with_drop _ _ Es) at 1.
    cbn [app length]. now rewrite <- app_assoc.
  - destruct (Str.starts_with "]]" (x :: s1)) eqn:Es; [|discriminate].
    intros [= <- <-]. split; [|exact I]. cbn [bar app].
    now rewrite (starts_with_drop _ _ Es) at 1.
Qed.

Lemma wiki_at_inv s tgt al rest :
  wiki_at s = Some (tgt, al, rest) ->
  s = "[[" ++ tgt ++ bar al ++ "]]" ++ rest
  /\ tgt <> [] /\ avoids "]|" tgt = true /\ captured_alias al.
Proof.
  unfold wiki_at. destruct (Str.starts_with "[[" s) eqn:Es; [|discriminate].
  destruct (plus_span "]|" (drop 2 s)) as [[t s2]|] eqn:Ep; [|discriminate].
  destruct (alias_close s2) as [[a r]|] eqn:Ea; [|discriminate].
  intros [= <- <- <-]. destruct (plus_span_inv _ _ _ _ Ep) as (Hd & Ht & Hav).
  destruct (alias_close_inv _ _ _ Ea) as [-> Hal].
  repeat split; try assumption.
  rewrite (starts_with_drop _ _ Es) at 1.
  change (length (list_ascii_of_string "[[")) with 2. now rewrite Hd.
Qed.

Lemma heading_at_inv s tgt hd al rest :
  heading_at s = Some (tgt, hd, al, rest) ->
  s = "[[" ++ tgt ++ "#" ++ hd ++ bar al ++ "]]" ++ rest
  /\ tgt <> [] /\ avoids "]|#" tgt = true
  /\ hd <> [] /\ avoids "]|" hd = true /\ captured_alias al.
Proof.
  unfold heading_at. destruct (Str.starts_with "[[" s) eqn:Es; [|discriminate].
  destruct (plus_span "]|#" (drop 2 s)) as [[t s1]|] eqn:Ep; [|discriminate].
  destruct s1 as [|x s2]; [discriminate|].
  destruct (Ascii.eqb x "#") eqn:Ex; [|discriminate].
  apply Ascii.eqb_eq in Ex as ->.
  destruct (plus_span "]|" s2) as [[h s3]|] eqn:Eh; [|discriminate].
  destruct (alias_close s3) as [[a r]|] eqn:Ea; [|discriminate].
  intros [= <- <- <- <-]. destruct (plus_span_inv _ _ _ _ Ep) as (Hd & Ht & Hav).
  destruct (plus_span_inv _ _ _ _ Eh) as (-> & Hh & Hhv).
  destruct (alias_close_inv _ _ _ Ea) as [-> Hal].
  repeat split; try assumption.
  rewrite (starts_with_drop _ _ Es) at 1.
  change (length (list_ascii_of_string "[[")) with 2. rewrite Hd.
  reflexivity.
Qed.

(** What a match of each scanning pattern is made of. *)
Lemma exec_wiki_inv m caps rest :
  exec WIKI_LINK_REGEX (m ++ rest) = Some (m, caps, rest) ->
  exists tgt al,
    m = "[[" ++ tgt ++ bar al ++ "]]" /\ caps = add_cap 2 al [(1, tgt)]
    /\ tgt <> [] /\ avoids "]|" tgt = true /\ captured_alias al.
Proof.
  rewrite exec_wiki. destruct (wiki_at (m ++ rest)) as [[[tgt al] r]|] eqn:E; [|discriminate].
  intros [= Hm <- ->]. destruct (wiki_at_inv _ _ _ _ E) as (Hs & Ht & Hav & Hal).
  exists tgt, al. repeat split; try assumption.
  apply (app_inv_tail rest). rewrite Hs at 1. now rewrite <- !app_assoc.
Qed.

Lemma exec_heading_inv m caps rest :
  exec HEADING_LINK_REGEX (m ++ rest) = Some (m, caps, rest) ->
  exists tgt hd al,
    m = "[[" ++ tgt ++ "#" ++ hd ++ bar al ++ "]]"
    /\ caps = add_cap 3 al [(2, hd); (1, tgt)]
    /\ tgt <> [] /\ avoids "]|#" tgt = true
    /\ hd <> [] /\ avoids "]|" hd = true /\ captured_alias al.
Proof.
  rewrite exec_heading.
  destruct (heading_at (m ++ rest)) as [[[[tgt hd] al] r]|] eqn:E; [|discriminate].
  intros [= Hm <- ->].
  destruct (heading_at_inv _ _ _ _ _ E) as (Hs & Ht & Hav & Hh & Hhv & Hal).
  exists tgt, hd, al. repeat split; try assumption.
  apply (app_inv_tail rest). rewrite Hs at 1. now rewrite <- !app_assoc.
Qed.

Lemma exec_embedded_inv m caps rest :
  exec EMBEDDED_LINK_REGEX (m ++ rest) = Some (m, caps, rest) ->
  exists tgt al,
    m = "![[" ++ tgt ++ bar al ++ "]]" /\ caps = add_cap 2 al [(1, tgt)]
    /\ tgt <> [] /\ avoids "]|" tgt = true /\ captured_alias al.
Proof.
  rewrite exec_embedded. destruct (m ++ rest) as [|x s'] eqn:Es; [discriminate|].
  destruct (Ascii.eqb x "!") eqn:Ex; [|discriminate]. apply Ascii.eqb_eq in Ex as ->.
  destruct (wiki_at s') as [[[tgt al] r]|] eqn:E; [|discriminate].
  intros [= Hm <- ->]. destruct (wiki_at_inv _ _ _ _ E) as (Hs & Ht & Hav & Hal).
  exists tgt, al. repeat split; try assumption.
  apply (app_inv_tail rest). rewrite Es, Hs. cbn [app]. now rewrite <- !app_assoc.
Qed.


Lemma Forall_fmap_intro {A B} (P : B -> Prop) (f : A -> B) (l : list A) :
  (forall x, x ∈ l -> P (f x)) -> Forall P (map f l).
Proof.
  intros Hx. induction l as [|a l IH]; cbn; constructor.
  - apply Hx. left.
  - apply IH. intros x Hin. apply Hx. now right.
Qed.

Lemma scan_line_produced acc ln index :
  exists added,
    scan_line acc ln index = acc ++ added /\ Forall (produced ln index) added.
Proof.
  destruct (scan_line_shape acc ln index) as (ps & -> & Hsub & _ & _).
  eexists; split; [reflexivity|].
  repeat apply Forall_app_2; apply Forall_fmap_intro; intros m Hm.
  - now apply (by_heading _ _ _ m).
  - apply (by_regular _ _ _ m); [|reflexivity]. eapply elem_of_sublist; eassumption.
  - now apply (by_embed _ _ _ m).
Qed.

Lemma scan_lines_produced lns : forall acc i0,
  exists added,
    scan_lines acc lns i0 = acc ++ added
    /\ Forall (fun l => exists i ln, lns !! i = Some ln /\ produced ln (i0 + i) l) added.
Proof.
  induction lns as [|ln lns IH]; intros acc i0; cbn [scan_lines].
  - exists []. split; [now rewrite app_nil_r|constructor].
  - destruct (scan_line_produced acc ln i0) as (a1 & -> & H1).
    destruct (IH (acc ++ a1) (S i0)) as (a2 & -> & H2).
    exists (a1 ++ a2). split; [now rewrite app_assoc|].
    apply Forall_app_2.
    + eapply Forall_impl; [exact H1|]. intros l Hl. exists 0, ln.
      split; [reflexivity|]. now rewrite Nat.add_0_r.
    + eapply Forall_impl; [exact H2|]. intros l (i & ln' & Hi & Hp).
      exists (S i), ln'. split; [exact Hi|]. now rewrite Nat.add_succ_r.
Qed.

Lemma findWikiLinks_produced content filePath :
  Forall (fun l => exists i ln,
            Str.split newline content !! i = Some ln /\ produced ln i l)
         (findWikiLinks content filePath).
Proof.
  unfold findWikiLinks.
  destruct (scan_lines_produced (Str.split newline content) [] 0) as (added & -> & Hall).
  exact Hall.
Qed.

Lemma in_match_all r s mc :
  mc ∈ match_all r s ->
  exists pre rest,
    s = pre ++ fst mc ++ rest /\ exec r (fst mc ++ rest) = Some (fst mc, snd mc, rest).
Proof.
  intros Hin. pose proof (match_all_exec r s) as Hall.
  rewrite Forall_forall in Hall. now apply Hall.
Qed.

Lemma produced_line ln index l :
  produced ln index l -> line l = index + 1 /\ context l = Str.trim ln.
Proof. now intros [m _ ->|m _ ->|m _ ->]. Qed.

Lemma produced_occurs ln index l :
  produced ln index l -> exists pre post, ln = pre ++ text l ++ post.
Proof.
  intros [m Hm ->|m Hm ->|m Hm ->];
    destruct (in_match_all _ _ _ Hm) as (pre & rest & Hs & _); now exists pre, rest.
Qed.

Lemma produced_fields ln index l :
  produced ln index l ->
  target l <> [] /\ avoids "]|" (target l) = true
  /\ captured_alias (alias l)
  /\ match heading l with
     | Some h => isHeading l = true /\ h <> [] /\ avoids "]|" h = true
                 /\ avoids "#" (target l) = true
     | None => isHeading l = false
     end
  /\ (text l = written l \/ text l = "!" ++ written l).
Proof.
  intros [m Hm ->|m Hm ->|m Hm ->];
    destruct (in_match_all _ _ _ Hm) as (pre & rest & _ & He); destruct m as [m caps];
    cbn [fst snd] in He.
  - apply exec_heading_inv in He as (tgt & hd & al & -> & -> & Ht & Hav & Hh & Hhv & Hal).
    assert (Hg3 : group 3 (add_cap 3 al [(2, hd); (1, tgt)]) = al) by now destruct al.
    assert (Hg2 : group 2 (add_cap 3 al [(2, hd); (1, tgt)]) = Some hd) by now destruct al.
    assert (Hc1 : cap 1 (add_cap 3 al [(2, hd); (1, tgt)]) = tgt) by now destruct al.
    unfold heading_occurrence, written; cbn [fst snd target alias heading isHeading text].
    rewrite Hg3, Hg2, Hc1.
    repeat split; try assumption.
    + eapply avoids_sub; [|exact Hav]. class_solver.
    + eapply avoids_sub; [|exact Hav]. class_solver.
    + now left.
  - apply exec_wiki_inv in He as (tgt & al & -> & -> & Ht & Hav & Hal).
    assert (Hg2 : group 2 (add_cap 2 al [(1, tgt)]) = al) by now destruct al.
    assert (Hc1 : cap 1 (add_cap 2 al [(1, tgt)]) = tgt) by now destruct al.
    unfold plain_occurrence, written; cbn [fst snd target alias heading isHeading text].
    rewrite Hg2, Hc1.
    repeat split; try assumption. now left.
  - apply exec_embedded_inv in He as (tgt & al & -> & -> & Ht & Hav & Hal).
    assert (Hg2 : group 2 (add_cap 2 al [(1, tgt)]) = al) by now destruct al.
    assert (Hc1 : cap 1 (add_cap 2 al [(1, tgt)]) = tgt) by now destruct al.
    unfold plain_occurrence, written; cbn [fst snd target alias heading isHeading text].
    rewrite Hg2, Hc1.
    repeat split; try assumption. now right.
Qed.


(** ** What the parser reports *)

(** X1: every link reported by [findWikiLinks] is in the text where the record
    says: its text is a part of the line whose number it carries (lines are
    counted from one), and its context is that line, trimmed. *)
Theorem findWikiLinks_reports_what_is_written (content filePath : str) :
  Forall (fun l => exists ln pre post,
            Str.split newline content !! (line l - 1) = Some ln
            /\ 1 <= line l
            /\ ln = pre ++ text l ++ post
            /\ context l = Str.trim ln)
         (findWikiLinks content filePath).
Proof.
  eapply Forall_impl; [apply findWikiLinks_produced|].
  intros l (i & ln & Hi & Hp). cbn beta.
  destruct (produced_line _ _ _ Hp) as [Hl Hc].
  destruct (produced_occurs _ _ _ Hp) as (pre & post & Hs).
  exists ln, pre, post. rewrite Hl. replace (i + 1 - 1) with i by lia.
  repeat split; [assumption|lia|assumption|assumption].
Qed.

(** X2: the fields of a reported link give back its text: the target is not
    empty and holds neither []] nor [|]; a heading, when there is one,
    marks a heading link and is not empty; and the text is the written form
    of the fields, behind an exclamation mark for an embed. *)
Theorem findWikiLinks_fields_give_text (content filePath : str) :
  Forall (fun l =>
            target l <> [] /\ avoids "]|" (target l) = true
            /\ captured_alias (alias l)
            /\ match heading l with
               | Some h => isHeading l = true /\ h <> [] /\ avoids "]|" h = true
                           /\ avoids "#" (target l) = true
               | None => isHeading l = false
               end
            /\ (text l = written l \/ text l = "!" ++ written l))
         (findWikiLinks content filePath).
Proof.
  eapply Forall_impl; [apply findWikiLinks_produced|].
  intros l (i & ln & _ & Hp). exact (produced_fields _ _ _ Hp).
Qed.

Lemma StronglySorted_app_intro {A} (R : A -> A -> Prop) (l1 l2 : list A) :
  StronglySorted R l1 -> StronglySorted R l2 ->
  (forall a b, a ∈ l1 -> b ∈ l2 -> R a b) ->
  StronglySorted R (l1 ++ l2).
Proof.
  intros H1 H2 H12. induction H1 as [|a l1 Hs IH Ha]; cbn; [exact H2|].
  constructor.
  - apply IH. intros x y Hx Hy. apply H12; [now right|exact Hy].
  - apply Forall_app_2; [exact Ha|].
    apply Forall_forall. intros y Hy. apply H12; [left|exact Hy].
Qed.

Lemma StronglySorted_const {A} (f : A -> nat) (n : nat) (l : list A) :
  Forall (fun a => f a = n) l -> StronglySorted (fun a b => f a <= f b) l.
Proof.
  induction 1 as [|a l Ha Hl IH]; constructor; [exact IH|].
  eapply Forall_impl; [exact Hl|]. cbn. intros b Hb. lia.
Qed.

Lemma scan_lines_ordered lns : forall acc i0,
  exists added,
    scan_lines acc lns i0 = acc ++ added
    /\ Forall (fun l => i0 + 1 <= line l <= i0 + length lns) added
    /\ StronglySorted (fun a b => line a <= line b) added.
Proof.
  induction lns as [|ln lns IH]; intros acc i0; cbn [scan_lines].
  - exists []. rewrite app_nil_r. repeat split; constructor.
  - destruct (scan_line_produced acc ln i0) as (a1 & -> & H1).
    destruct (IH (acc ++ a1) (S i0)) as (a2 & -> & H2 & Hs2).
    assert (Hl1 : Forall (fun l => line l = i0 + 1) a1).
    { eapply Forall_impl; [exact H1|]. intros l Hl. now apply produced_line in Hl. }
    exists (a1 ++ a2). split; [now rewrite app_assoc|]. split.
    + apply Forall_app_2.
      * eapply Forall_impl; [exact Hl1|]. cbn. intros; lia.
      * eapply Forall_impl; [exact H2|]. cbn. intros; lia.
    + apply StronglySorted_app_intro; [now apply (StronglySorted_const line (i0 + 1))|exact Hs2|].
      intros a b Ha Hb. rewrite Forall_forall in Hl1, H2.
      specialize (Hl1 a Ha). specialize (H2 b Hb). lia.
Qed.

(** X3: the links are reported line by line, in ascending line number, and
    every line number lies between one and the number of lines. *)
Theorem findWikiLinks_line_by_line (content filePath : str) :
  StronglySorted (fun a b => line a <= line b) (findWikiLinks content filePath)
  /\ Forall (fun l => 1 <= line l <= length (Str.split newline content))
       (findWikiLinks content filePath).
Proof.
  unfold findWikiLinks.
  destruct (scan_lines_ordered (Str.split newline content) [] 0) as (added & -> & Hl & Hs).
  split; [exact Hs|]. eapply Forall_impl; [exact Hl|]. cbn. intros; lia.
Qed.


Lemma filter_none {A} (p : A -> bool) (l : list A) :
  Forall (fun x => p x = false) l -> List.filter p l = [].
Proof. induction 1 as [|x l Hx _ IH]; cbn; [reflexivity|]. now rewrite Hx. Qed.

Lemma filter_all {A} (p : A -> bool) (l : list A) :
  Forall (fun x => p x = true) l -> List.filter p l = l.
Proof. induction 1 as [|x l Hx _ IH]; cbn; [reflexivity|]. now rewrite Hx, IH. Qed.

Lemma scan_line_regular acc ln index :
  exists ps,
    List.filter is_regular (scan_line acc ln index)
    = List.filter is_regular acc ++ map (plain_occurrence ln index) ps
    /\ NoDup (fst <$> ps)
    /\ Forall (fun m => existsb (fun l => Str.eqb (text l) (fst m)) acc = false) ps.
Proof.
  destruct (scan_line_shape acc ln index) as (ps & -> & Hsub & Hnd & Hall).
  exists ps. split; [|split; [exact Hnd|]].
  - rewrite !List.filter_app.
    rewrite (filter_none is_regular (map (heading_occurrence ln index) _)).
    2:{ apply Forall_fmap_intro. reflexivity. }
    rewrite (filter_none is_regular (map (plain_occurrence ln index) (match_all EMBEDDED_LINK_REGEX ln))).
    2:{ apply Forall_fmap_intro. intros [m caps] Hm.
        destruct (in_match_all _ _ _ Hm) as (pre & rest & _ & He). cbn [fst snd] in He.
        apply exec_embedded_inv in He as (tgt & al & -> & _). reflexivity. }
    rewrite (filter_all is_regular (map (plain_occurrence ln index) ps)).
    2:{ apply Forall_fmap_intro. intros [m caps] Hm.
        assert (Hm' : (m, caps) ∈ match_all WIKI_LINK_REGEX ln)
          by (eapply elem_of_sublist; eassumption).
        destruct (in_match_all _ _ _ Hm') as (pre & rest & _ & He). cbn [fst snd] in He.
        apply exec_wiki_inv in He as (tgt & al & -> & _). reflexivity. }
    now rewrite app_nil_l, app_nil_r.
  - eapply Forall_impl; [exact Hall|]. intros m Hm. cbn beta in Hm.
    rewrite existsb_app in Hm. now apply orb_false_elim in Hm.
Qed.

Lemma scan_lines_regular_once lns : forall acc i0,
  NoDup (text <$> List.filter is_regular acc) ->
  NoDup (text <$> List.filter is_regular (scan_lines acc lns i0)).
Proof.
  induction lns as [|ln lns IH]; intros acc i0 Hacc; cbn [scan_lines]; [exact Hacc|].
  apply IH. destruct (scan_line_regular acc ln i0) as (ps & -> & Hnd & Hall).
  rewrite fmap_app. apply NoDup_app. split; [exact Hacc|]. split.
  - intros x Hx Hx'.
    apply list_elem_of_fmap in Hx as (l & -> & Hl).
    apply list_elem_of_fmap in Hx' as (l' & Heq & Hl').
    change (map (plain_occurrence ln i0) ps) with (plain_occurrence ln i0 <$> ps) in Hl'.
    apply list_elem_of_fmap in Hl' as (m & -> & Hm).
    cbn [plain_occurrence text] in Heq.
    rewrite Forall_forall in Hall. specialize (Hall m Hm). cbn beta in Hall.
    assert (Hin : l ∈ acc).
    { apply list_elem_of_In in Hl. apply List.filter_In in Hl as [Hl _].
      now apply list_elem_of_In. }
    assert (Hex : existsb (fun l0 => Str.eqb (text l0) (fst m)) acc = true).
    { apply existsb_exists. exists l. split; [now apply list_elem_of_In|].
      rewrite Heq. apply str_eqb_refl. }
    congruence.
  - change (map (plain_occurrence ln i0) ps) with (plain_occurrence ln i0 <$> ps).
    rewrite <- list_fmap_compose.
    replace (text ∘ plain_occurrence ln i0) with (@fst str captures); [exact Hnd|].
    reflexivity.
Qed.

(** X4: a regular link is reported once per document, however often it is
    written: among the records of the regular scan no two have the same
    text.  (A second [[[A]]], on the same line or further down, leaves no
    record.) *)
Theorem findWikiLinks_regular_text_once (content filePath : str) :
  NoDup (text <$> List.filter is_regular (findWikiLinks content filePath)).
Proof. apply scan_lines_regular_once. constructor. Qed.

(** ** Heading links, on every line *)






(** ** Where a pattern can match *)

Lemma lit_app (u v : str) r s caps k :
  run (lit (u ++ v) <.> r) s caps k = run (lit u <.> lit v <.> r) s caps k.
Proof.
  rewrite !run_lit. rewrite starts_with_split.
  destruct (Str.starts_with u s) eqn:Eu; [|reflexivity]. cbn [andb].
  rewrite length_app, <- drop_drop. reflexivity.
Qed.

Lemma needs_lit2 (u v : str) r : needs (u ++ v) (lit u <.> lit v <.> r).
Proof.
  intros s Hs. unfold exec. rewrite <- lit_app. now rewrite run_lit, Hs.
Qed.

Lemma exec_none r s :
  exec r s = None <-> run r s [] (fun s' caps => Some (s', caps)) = None.
Proof.
  unfold exec. destruct (run r s [] _) as [[s' caps]|]; split; congruence.
Qed.

Lemma needs_bang P r : needs P r -> needs ("!"%char :: P) (Chr "!" <.> r).
Proof.
  intros Hr s Hs. apply exec_none. destruct s as [|x s]; [reflexivity|].
  rewrite run_chr. destruct (Ascii.eqb x "!") eqn:Ex; [|reflexivity].
  cbn [Str.starts_with] in Hs. rewrite Ex in Hs. cbn [andb] in Hs.
  now apply exec_none, Hr.
Qed.

Lemma needs_prefix (u v : str) r : needs (u ++ v) r -> needs u r.
Proof.
  intros Hr s Hs. apply Hr. rewrite starts_with_split, Hs. reflexivity.
Qed.

(** The nine patterns of [updateWikiLinks] begin with the brackets and the
    old name. *)
Lemma needs_deleted_heading X : needs ("[[" ++ X) (deleted_heading_re X).
Proof. apply needs_lit2. Qed.
Lemma needs_deleted_link X : needs ("[[" ++ X) (deleted_link_re X).
Proof. apply needs_lit2. Qed.
Lemma needs_deleted_embed X : needs ("![[" ++ X) (deleted_embed_re X).
Proof. apply (needs_bang ("[[" ++ X)), needs_lit2. Qed.
Lemma needs_moved k X : needs (opening k ++ X) (moved_re k X).
Proof.
  destruct k; [apply needs_lit2|apply needs_lit2|].
  apply (needs_bang ("[[" ++ X)), needs_lit2.
Qed.

(** A text in which the pattern matches nowhere is left as it is. *)
Lemma replace_all_untouched r f T :
  (forall u v, T = u ++ v -> exec r v = None) -> replace_all r f T = T.
Proof.
  unfold replace_all. induction T as [|c T IH]; intros Hn; [reflexivity|].
  cbn [replace_all_from]. rewrite (Hn [] (c :: T) eq_refl). f_equal.
  apply IH. intros u v ->. apply (Hn (c :: u) v). reflexivity.
Qed.

Lemma find_first_none P T :
  Str.find_first P T = None -> forall u v, T = u ++ v -> Str.starts_with P v = false.
Proof.
  revert P. induction T as [|c T IH]; intros P Hf u v Hs.
  - destruct u; [|discriminate]. cbn in Hs. subst v. cbn in Hf.
    destruct (Str.starts_with P []); [discriminate|reflexivity].
  - cbn [Str.find_first] in Hf.
    destruct (Str.starts_with P (c :: T)) eqn:E; [discriminate|].
    destruct (Str.find_first P T) as [[a b]|] eqn:E'; [discriminate|].
    destruct u as [|c' u]; cbn in Hs.
    + now subst v.
    + injection Hs as -> ->. now apply (IH P E' u v).
Qed.

Lemma replace_all_without P r f T :
  needs P r -> Str.find_first P T = None -> replace_all r f T = T.
Proof.
  intros Hr Hf. apply replace_all_untouched. intros u v Hs.
  apply Hr. eapply find_first_none; eassumption.
Qed.

(** No occurrence of [P] means none of a longer text that ends with [P]. *)
Lemma find_first_none_behind (c : ascii) P T :
  Str.find_first P T = None -> Str.find_first (c :: P) T = None.
Proof.
  intros Hf. induction T as [|x T IH].
  - cbn. reflexivity.
  - cbn [Str.find_first] in Hf |- *.
    destruct (Str.starts_with P (x :: T)) eqn:E; [discriminate|].
    destruct (Str.find_first P T) as [[a b]|] eqn:E'; [discriminate|].
    rewrite (IH eq_refl).
    cbn [Str.starts_with]. destruct (Ascii.eqb x c); cbn [andb]; [|reflexivity].
    pose proof (find_first_none P T E' [] T eq_refl) as Ht. now rewrite Ht.
Qed.

Lemma not_bracket (c : ascii) (t : str) :
  outside "[" c = true -> Str.starts_with "[[" (c :: t) = false.
Proof. cbn. now destruct (Ascii.eqb c "["). Qed.

Lemma not_bang_bracket (c : ascii) (t : str) :
  avoids "[" t = true -> Str.starts_with "![[" (c :: t) = false.
Proof.
  intros Ht. cbn. destruct (Ascii.eqb c "!"); [|reflexivity]. cbn [andb].
  destruct t as [|c' t]; [reflexivity|].
  rewrite avoids_cons in Ht. apply andb_true_iff in Ht as [Hc _]. cbn in Hc.
  now destruct (Ascii.eqb c' "[").
Qed.

(** Skipping a text without opening bracket. *)
Lemma replace_all_skip r f (pre s : str) :
  needs "[[" r -> avoids "[" pre = true ->
  replace_all r f (pre ++ s) = pre ++ replace_all r f s.
Proof.
  intros Hr. induction pre as [|c pre IH]; intros Hp; [reflexivity|].
  rewrite avoids_cons in Hp. apply andb_true_iff in Hp as [Hc Hp].
  cbn [app]. rewrite replace_all_miss.
  - now rewrite IH.
  - now apply Hr, not_bracket.
Qed.

(** A text without opening bracket holds no link. *)
Lemma replace_all_plain r f (s : str) :
  (needs "[[" r \/ needs "![[" r) -> avoids "[" s = true -> replace_all r f s = s.
Proof.
  intros Hr Hs. apply replace_all_untouched. intros u v ->.
  rewrite avoids_app in Hs. apply andb_true_iff in Hs as [_ Hv].
  destruct v as [|c v]; [destruct Hr as [Hr|Hr]; now apply Hr|].
  rewrite avoids_cons in Hv. apply andb_true_iff in Hv as [Hc Hv].
  destruct Hr as [Hr|Hr]; apply Hr; [now apply not_bracket|now apply not_bang_bracket].
Qed.

(** A single bracket in front of such a text does not make one either. *)
Lemma replace_all_bracket r f (s : str) :
  (needs "[[" r \/ needs "![[" r) -> avoids "[" s = true ->
  replace_all r f ("["%char :: s) = "["%char :: s.
Proof.
  intros Hr Hs. rewrite replace_all_miss; [now rewrite replace_all_plain|].
  destruct Hr as [Hr|Hr]; apply Hr; [|reflexivity].
  destruct s as [|c s]; [reflexivity|].
  rewrite avoids_cons in Hs. apply andb_true_iff in Hs as [Hc _]. cbn in Hc |- *.
  now destruct (Ascii.eqb c "[").
Qed.


(** ** A move that keeps the name *)

Lemma rewrite_first_same k X s : rewrite_first k X X s = s.
Proof.
  induction s as [|c s IH]; [reflexivity|]. cbn [rewrite_first].
  destruct (hit k X (c :: s)) eqn:E; [|now rewrite IH].
  apply hit_inv in E as (r & -> & _). apply retarget_shape.
Qed.

Lemma three_passes_same X uh up ue s : three_passes X X uh up ue s = s.
Proof.
  unfold three_passes, pass.
  destruct uh, up, ue; now rewrite ?rewrite_first_same.
Qed.

Lemma rewrite_links_same X :
  wordy X -> forall n T, length T <= n -> rewrite_links X X T = T.
Proof.
  intros HX. induction n as [|n IH]; intros T Hn.
  - destruct T; [reflexivity|cbn in Hn; lia].
  - destruct (segment_of T) as (s & tl & -> & Hs & Htl).
    destruct tl as [|c tl].
    + rewrite app_nil_r. now apply rewrite_links_open.
    + cbn in Htl. apply Ascii.eqb_eq in Htl as ->.
      rewrite (rewrite_links_segment X X HX HX) by assumption.
      rewrite IH by (rewrite length_app in Hn; cbn in Hn; lia).
      rewrite three_passes_same. now destruct (starts_closed tl).
Qed.

Lemma truthy_basename (p : str) : Path.basename p ".md" <> [] -> truthy (Some p) = true.
Proof. intros Hb. destruct p; [|reflexivity]. exfalso. apply Hb, basename_nil. Qed.

(** X5: a note moved to another folder under its old name: links go by the
    base name alone, so no document is changed. *)
Theorem move_keeping_the_name_changes_nothing
  (content oldPath newPath : str) (options : UpdateOptions) :
  let name := Path.basename oldPath ".md" in
  name <> [] -> plain_name name = true ->
  Path.basename newPath ".md" = name ->
  default false (opt_moveToOtherVault options)
    && truthy (opt_destVaultName options) = false ->
  updateWikiLinks content oldPath (Some newPath) options = content.
Proof.
  intros name Hn Hp Hb Hopt.
  assert (Ht : truthy (Some newPath) = true) by (apply truthy_basename; congruence).
  unfold updateWikiLinks. rewrite Ht, Hopt. cbn [negb].
  unfold id, default; cbn [from_option]. rewrite Hb. fold name.
  apply (rewrite_links_same name (plain_wordy name Hn Hp) (length content)). lia.
Qed.

Lemma move_keeping_the_name_witness :
  updateWikiLinks "see [[Note|n]] and ![[Note]]" "inbox/Note.md"
    (Some ("archive/2024/Note.md" : str)) no_options
  = "see [[Note|n]] and ![[Note]]".
Proof.
  apply (move_keeping_the_name_changes_nothing "see [[Note|n]] and ![[Note]]"
           "inbox/Note.md" "archive/2024/Note.md" no_options).
  - discriminate.
  - reflexivity.
  - reflexivity.
  - reflexivity.
Defined.

(** ** One link, renamed *)

Lemma good_tail hd al :
  good_heading hd = true -> good_alias al = true ->
  avoids "[]" (hash hd ++ bar al) = true
  /\ match hd with
     | Some _ => heading_tail (hash hd ++ bar al) = true
     | None => link_tail (hash hd ++ bar al) = true
     end.
Proof.
  intros Hh Ha.
  assert (Hb : avoids "[]" (bar al) = true /\ link_tail (bar al) = true).
  { destruct al as [a|]; [|now split]. cbn [good_alias] in Ha.
    apply andb_true_iff in Ha as [Hn Hav]. split.
    - cbn [bar]. rewrite avoids_app. now rewrite Hav.
    - cbn. now destruct a. }
  destruct Hb as [Hb1 Hb2].
  destruct hd as [h|]; cbn [hash app]; [|now split].
  cbn [good_heading] in Hh. apply andb_true_iff in Hh as [Hn Hav]. split.
  - change ("#" ++ h) with ("#"%char :: h). cbn [app]. rewrite avoids_cons, avoids_app, Hb1.
    rewrite (avoids_sub "[]|" "[]" h); [reflexivity| |assumption]. class_solver.
  - change ("#" ++ h) with ("#"%char :: h). cbn [app heading_tail].
    rewrite Ascii.eqb_refl. cbn [andb].
    assert (Hsp : Str.span (outside "]|") (h ++ bar al) = (h, bar al)).
    { apply span_app.
      - apply avoids_Forall. eapply avoids_sub; [|exact Hav]. class_solver.
      - destruct al as [a|]; [|exact I]. reflexivity. }
    rewrite Hsp. cbn [fst snd]. rewrite Hb2. now destruct h.
Qed.


(** ** One link, at a known place *)

Lemma ends_with_bang_cons c c' (pre : str) :
  ends_with_bang (c :: c' :: pre) = ends_with_bang (c' :: pre).
Proof. reflexivity. Qed.

Lemma not_bang_then (c c' : ascii) (t : str) :
  outside "[" c' = true -> Str.starts_with "![[" (c :: c' :: t) = false.
Proof.
  intros Hc. cbn in Hc |- *. destruct (Ascii.eqb c "!"); [|reflexivity].
  now destruct (Ascii.eqb c' "[").
Qed.

Lemma replace_all_skip_embed r f (pre s : str) :
  needs "![[" r -> avoids "[" pre = true ->
  (ends_with_bang pre = true -> exec r ("!"%char :: s) = None) ->
  replace_all r f (pre ++ s) = pre ++ replace_all r f s.
Proof.
  intros Hr. induction pre as [|c pre IH]; intros Hp Hs; [reflexivity|].
  rewrite avoids_cons in Hp. apply andb_true_iff in Hp as [Hc Hp].
  cbn [app]. rewrite replace_all_miss.
  - rewrite IH; [reflexivity|assumption|].
    destruct pre as [|c' pre]; [discriminate|]. now rewrite ends_with_bang_cons in Hs.
  - destruct pre as [|c' pre].
    + destruct (Ascii.eqb c "!") eqn:Ec.
      * apply Ascii.eqb_eq in Ec as ->. now apply Hs.
      * apply Hr. cbn. now rewrite Ec.
    + apply Hr. cbn [app]. apply not_bang_then.
      rewrite avoids_cons in Hp. now apply andb_true_iff in Hp as [Hc' _].
Qed.

Section OneLink.

Variables (r : regex) (f : str -> captures -> str) (pre body post : str).
Hypothesis Hpre : avoids "[" pre = true.
Hypothesis Hbody : avoids "[" body = true.
Hypothesis Hpost : avoids "[" post = true.

Let link : str := "[[" ++ body ++ "]]".

Lemma link_rest_plain : avoids "[" (body ++ "]]" ++ post) = true.
Proof. now rewrite !avoids_app, Hbody, Hpost. Qed.

(** The pattern matches the link: the callback's text takes its place. *)
Lemma replace_all_at_link caps :
  needs "[[" r ->
  exec r (link ++ post) = Some (link, caps, post) ->
  replace_all r f (pre ++ link ++ post) = pre ++ f link caps ++ post.
Proof.
  intros Hr He. rewrite replace_all_skip by assumption.
  rewrite (replace_all_hit _ _ _ _ _ _ He) by discriminate.
  now rewrite replace_all_plain by auto.
Qed.

(** The pattern does not match the link: nothing changes. *)
Lemma replace_all_past_link :
  needs "[[" r ->
  exec r (link ++ post) = None ->
  replace_all r f (pre ++ link ++ post) = pre ++ link ++ post.
Proof.
  intros Hr He. rewrite replace_all_skip by assumption. f_equal.
  unfold link in *. rewrite <- !app_assoc in *.
  change ("[[" ++ body ++ "]]" ++ post) with ("["%char :: "["%char :: body ++ "]]" ++ post) in *.
  rewrite replace_all_miss by assumption. f_equal.
  apply replace_all_bracket; [now left|apply link_rest_plain].
Qed.

(** The same for a pattern that begins with the exclamation mark. *)
Lemma replace_all_past_embed :
  needs "![[" r ->
  (ends_with_bang pre = true -> exec r ("!"%char :: link ++ post) = None) ->
  replace_all r f (pre ++ link ++ post) = pre ++ link ++ post.
Proof.
  intros Hr He. rewrite replace_all_skip_embed by assumption. f_equal.
  unfold link in *. rewrite <- !app_assoc in *.
  change ("[[" ++ body ++ "]]" ++ post) with ("["%char :: "["%char :: body ++ "]]" ++ post) in *.
  rewrite replace_all_miss by (now apply Hr). f_equal.
  apply replace_all_bracket; [now right|apply link_rest_plain].
Qed.

End OneLink.

(** ** The patterns of a deletion, read directly *)

Lemma star_close (a post : str) caps (k : str -> captures -> option (str * captures)) :
  avoids "]" a = true ->
  run (StarNoneOf "]" <.> lit "]]") (a ++ "]]" ++ post) caps k = k post caps.
Proof.
  intros Ha. cbn [run]. rewrite greedy_span.
  - rewrite span_app; [|now apply avoids_Forall|reflexivity]. cbn [snd].
    now rewrite run_lit_end.
  - intros c t Hc. rewrite run_lit_end. cbn in Hc |- *.
    now destruct (Ascii.eqb c "]").
Qed.

Lemma exec_deleted_heading X (t post : str) :
  avoids "]" t = true ->
  exec (deleted_heading_re X) (("[[" ++ X ++ t ++ "]]") ++ post)
  = match t with
    | c :: _ => if Ascii.eqb c "#" then Some ("[[" ++ X ++ t ++ "]]", [], post) else None
    | [] => None
    end.
Proof.
  intros Ht. unfold exec, deleted_heading_re.
  rewrite <- !app_assoc. rewrite run_lit, starts_with_app, drop_app_length'.
  rewrite run_lit, starts_with_app, drop_app_length'.
  destruct t as [|c t]; [reflexivity|]. cbn [app]. rewrite run_chr.
  destruct (Ascii.eqb c "#"); [|reflexivity].
  rewrite avoids_cons in Ht. apply andb_true_iff in Ht as [_ Ht].
  rewrite star_close by assumption.
  change ("[[" ++ X ++ c :: t ++ "]]" ++ post) with ("[[" ++ X ++ (c :: t) ++ "]]" ++ post).
  rewrite !app_assoc. rewrite consumed_app. now rewrite <- !app_assoc.
Qed.

Lemma run_opt r1 r2 s caps k :
  run (Opt r1 <.> r2) s caps k
  = match run r1 s caps (fun s' caps' => run r2 s' caps' k) with
    | Some res => Some res
    | None => run r2 s caps k
    end.
Proof. reflexivity. Qed.

Lemma exec_deleted_link X (t post : str) :
  avoids "]" t = true ->
  exec (deleted_link_re X) (("[[" ++ X ++ t ++ "]]") ++ post)
  = match t with
    | c :: _ => if Ascii.eqb c "|" then Some ("[[" ++ X ++ t ++ "]]", [], post) else None
    | [] => Some ("[[" ++ X ++ t ++ "]]", [], post)
    end.
Proof.
  intros Ht. unfold exec, deleted_link_re.
  rewrite <- !app_assoc. rewrite run_lit, starts_with_app, drop_app_length'.
  rewrite run_lit, starts_with_app, drop_app_length'.
  rewrite run_opt.
  destruct t as [|c t].
  - cbn [app]. change ("]]" ++ post) with ("]"%char :: "]"%char :: post).
    rewrite run_chr. change (Ascii.eqb "]" "|") with false. cbv iota.
    rewrite run_lit_end.
    change (Str.starts_with "]]" ("]"%char :: "]"%char :: post)) with true.
    cbv iota. change (drop (length "]]") ("]"%char :: "]"%char :: post)) with post.
    change ("[[" ++ X ++ "]"%char :: "]"%char :: post) with ("[[" ++ X ++ "]]" ++ post).
    rewrite !app_assoc. rewrite consumed_app. now rewrite <- !app_assoc.
  - cbn [app]. rewrite avoids_cons in Ht. apply andb_true_iff in Ht as [Hc Ht].
    rewrite run_chr.
    destruct (Ascii.eqb c "|") eqn:Ec.
    + pose proof (star_close t post [] (fun s' caps => Some (s', caps)) Ht) as Hs.
      cbn [run] in Hs |- *. rewrite Hs.
      change ("[[" ++ X ++ c :: t ++ "]]" ++ post) with ("[[" ++ X ++ (c :: t) ++ "]]" ++ post).
      rewrite !app_assoc. rewrite consumed_app. now rewrite <- !app_assoc.
    + rewrite run_lit_end. cbn in Hc |- *. now destruct (Ascii.eqb c "]").
Qed.


Lemma no_bang_behind_tildes (pre : str) : ends_with_bang (pre ++ "~~") = false.
Proof.
  unfold ends_with_bang.
  change (pre ++ "~~") with (pre ++ ["~"%char; "~"%char]).
  change ["~"%char; "~"%char] with (["~"%char] ++ ["~"%char]).
  now rewrite app_assoc, last_snoc.
Qed.

Lemma plain_avoids cs X :
  plain_name X = true -> (forall x, x ∈ cs -> x ∈ (metachars ++ "#!" : str)) ->
  avoids cs X = true.
Proof. intros Hp Hcs. eapply avoids_sub; eassumption. Qed.

(** X6: for an old name that holds no pattern metacharacter, no [#] and no
    [!] (a name with one is not read as a literal by the pattern
    constructor, and the rewriting then goes another way), a deletion wraps
    the bracket span of a link to the note in strike-through marks,
    whatever follows the name: nothing, an alias (even an empty one), or a
    heading.  The text around the link holds no opening bracket; when it
    ends with an exclamation mark, the mark of the embed stays in front of
    the struck span. *)
Theorem deletion_strikes_a_link
  (pre post t : str) (oldPath : str) (newPath : option str)
  (options : UpdateOptions) :
  let X := Path.basename oldPath ".md" in
  truthy newPath = false -> plain_name X = true ->
  avoids "[" pre = true -> avoids "[" post = true ->
  avoids "[]" t = true -> delim_start t = true ->
  updateWikiLinks (pre ++ "[[" ++ X ++ t ++ "]]" ++ post) oldPath newPath options
  = pre ++ "~~[[" ++ X ++ t ++ "]]~~" ++ post.
Proof.
  intros X Hnew HX Hpre Hpost Ht Hd.
  unfold updateWikiLinks. rewrite Hnew. cbn [negb]. fold X.
  assert (Ht1 : avoids "[" t = true) by (eapply avoids_sub; [|exact Ht]; class_solver).
  assert (Ht2 : avoids "]" t = true) by (eapply avoids_sub; [|exact Ht]; class_solver).
  assert (HX1 : avoids "[" X = true) by (apply plain_avoids; [assumption|class_solver]).
  assert (Hbody : avoids "[" (X ++ t) = true) by now rewrite avoids_app, HX1, Ht1.
  assert (Htil : avoids "[" ("~~" ++ post) = true) by now rewrite avoids_app, Hpost.
  assert (Hpre' : avoids "[" (pre ++ "~~") = true) by now rewrite avoids_app, Hpre.
  set (L := "[[" ++ (X ++ t) ++ "]]").
  assert (HL : "[[" ++ X ++ t ++ "]]" = L) by (unfold L; now rewrite <- !app_assoc).
  replace (pre ++ "[[" ++ X ++ t ++ "]]" ++ post) with (pre ++ L ++ post)
    by (unfold L; now rewrite <- !app_assoc).
  replace (pre ++ "~~[[" ++ X ++ t ++ "]]~~" ++ post)
    with ((pre ++ "~~") ++ L ++ "~~" ++ post)
    by (unfold L; now rewrite <- !app_assoc).
  assert (Hh := exec_deleted_heading X t post Ht2).
  assert (Hl := exec_deleted_link X t post Ht2).
  assert (Hh' := exec_deleted_heading X t ("~~" ++ post) Ht2).
  assert (Hl' := exec_deleted_link X t ("~~" ++ post) Ht2).
  rewrite HL in Hh, Hl, Hh', Hl'.
  assert (Hstruck : forall r,
    needs "![[" r ->
    replace_all r strike ((pre ++ "~~") ++ L ++ "~~" ++ post)
    = (pre ++ "~~") ++ L ++ "~~" ++ post).
  { intros r Hr. apply replace_all_past_embed; try assumption.
    intros Hb. now rewrite no_bang_behind_tildes in Hb. }
  assert (Hne : needs "![[" (deleted_embed_re X))
    by apply (needs_prefix "![[" X), needs_deleted_embed.
  assert (Hnh : needs "[[" (deleted_heading_re X))
    by apply (needs_prefix "[[" X), needs_deleted_heading.
  assert (Hnl : needs "[[" (deleted_link_re X))
    by apply (needs_prefix "[[" X), needs_deleted_link.
  assert (Hwrap : forall M : str,
    pre ++ strike M [] ++ post = (pre ++ "~~") ++ M ++ "~~" ++ post).
  { intros M. unfold strike. now rewrite <- !app_assoc. }
  destruct t as [|c t'].
  - (* [[X]]: the second pattern *)
    rewrite (replace_all_past_link _ _ pre (X ++ []) post) by assumption.
    rewrite (replace_all_at_link _ _ pre (X ++ []) post Hpre Hpost [] Hnl Hl).
    rewrite Hwrap. now apply Hstruck.
  - cbn [delim_start] in Hd. apply orb_true_iff in Hd as [Hc|Hc];
      apply Ascii.eqb_eq in Hc; subst c.
    + (* [[X|alias]]: the second pattern *)
      change (Ascii.eqb "|" "#") with false in Hh. cbv iota in Hh.
      change (Ascii.eqb "|" "|") with true in Hl. cbv iota in Hl.
      rewrite (replace_all_past_link _ _ pre (X ++ "|"%char :: t') post) by assumption.
      rewrite (replace_all_at_link _ _ pre (X ++ "|"%char :: t') post Hpre Hpost [] Hnl Hl).
      rewrite Hwrap. now apply Hstruck.
    + (* [[X#heading]]: the first pattern *)
      change (Ascii.eqb "#" "#") with true in Hh. cbv iota in Hh.
      change (Ascii.eqb "#" "|") with false in Hl'. cbv iota in Hl'.
      rewrite (replace_all_at_link _ _ pre (X ++ "#"%char :: t') post Hpre Hpost [] Hnh Hh).
      rewrite Hwrap.
      rewrite (replace_all_past_link _ _ (pre ++ "~~") (X ++ "#"%char :: t') ("~~" ++ post))
        by assumption.
      now apply Hstruck.
Qed.

Lemma deletion_strikes_a_link_witness :
  updateWikiLinks "gone: ![[Note#Intro|see]]!" "sub/Note.md" None no_options
  = "gone: !~~[[Note#Intro|see]]~~!".
Proof.
  apply (deletion_strikes_a_link "gone: !" "!" "#Intro|see" "sub/Note.md" None no_options);
    reflexivity.
Defined.


Lemma rewrite_links_without X Y T :
  Str.find_first ("[[" ++ X) T = None -> rewrite_links X Y T = T.
Proof.
  intros Hf. rewrite rewrite_links_eq.
  rewrite (replace_all_without _ _ _ T (needs_moved Heading X) Hf).
  rewrite (replace_all_without _ _ _ T (needs_moved Link X) Hf).
  apply (replace_all_without _ _ _ T (needs_moved Embed X)).
  now apply find_first_none_behind.
Qed.

(** X7: for an old name that holds no pattern metacharacter, no [#] and no
    [!], a document in which the brackets followed by the old name occur
    nowhere is returned as it is, by a deletion, by a rename and by a move
    to another vault.  (With a metacharacter in the name the patterns match
    other texts than the name, and the statement does not hold.) *)
Theorem updateWikiLinks_leaves_other_documents
  (content oldPath : str) (newPath : option str) (options : UpdateOptions) :
  let X := Path.basename oldPath ".md" in
  plain_name X = true ->
  Str.find_first ("[[" ++ X) content = None ->
  updateWikiLinks content oldPath newPath options = content.
Proof.
  intros X _ Hf. unfold updateWikiLinks. fold X.
  destruct (negb (truthy newPath)).
  - rewrite (replace_all_without _ _ _ content (needs_deleted_heading X) Hf).
    rewrite (replace_all_without _ _ _ content (needs_deleted_link X) Hf).
    apply (replace_all_without _ _ _ content (needs_deleted_embed X)).
    now apply find_first_none_behind.
  - destruct (default false (opt_moveToOtherVault options)
              && truthy (opt_destVaultName options));
      now apply rewrite_links_without.
Qed.

Lemma updateWikiLinks_leaves_other_documents_witness :
  updateWikiLinks "[[Other]] and [Note] and ![[Mote]]" "Note.md" None no_options
  = "[[Other]] and [Note] and ![[Mote]]".
Proof.
  apply (updateWikiLinks_leaves_other_documents
           "[[Other]] and [Note] and ![[Mote]]" "Note.md" None no_options);
    reflexivity.
Defined.


(** ** The patterns of a move in front of one link, for any old name *)

Section ExecAnyName.

Variables (X Y : str).
Hypothesis HX : avoids "]" X = true.

Lemma head_avoids_bracket k : avoids "]" (opening k ++ X) = true.
Proof. rewrite avoids_app, HX. now destruct k. Qed.

Lemma exec_at k t rest :
  avoids "]" t = true ->
  if hit k X t then
    exists caps,
      exec (moved_re k X) (t ++ "]]" ++ rest) = Some (t ++ "]]", caps, rest)
      /\ callback k Y (t ++ "]]") caps = retarget k X Y t ++ "]]"
  else exec (moved_re k X) (t ++ "]]" ++ rest) = None.
Proof.
  intros Ht. destruct k.
  - (* heading links *)
    cbn [moved_re callback]. rewrite exec_moved_heading.
    rewrite starts_with_ext; [|apply (head_avoids_bracket Heading)|reflexivity].
    unfold hit. cbn [opening tail_ok].
    destruct (Str.starts_with ("[[" ++ X) t) eqn:E; [|reflexivity]. cbn [andb].
    rewrite drop_starts by assumption.
    rewrite heading_close_seg by now apply avoids_drop.
    apply starts_with_spec in E as [r ->]. rewrite drop_app_length'.
    destruct (heading_tail r) eqn:Er; [|reflexivity].
    eexists. split; [now rewrite consumed_shape|].
    unfold retarget. cbn [opening]. rewrite drop_app_length'.
    unfold heading_to.
    destruct r as [|c w]; [discriminate|]. cbn [heading_tail] in Er.
    apply andb_true_iff in Er as [Er Hv]. apply andb_true_iff in Er as [Hc _].
    apply Ascii.eqb_eq in Hc as ->. change (drop 1 ("#"%char :: w)) with w.
    pose proof (span_eq (outside "]|") w) as Hw.
    destruct (Str.span (outside "]|") w) as [hd v]; cbn [fst snd] in *.
    assert (Hc1 : cap 1 (add_cap 2 (alias_of v) [(1, "#"%char :: hd)]) = "#"%char :: hd)
      by now destruct (alias_of v).
    assert (Hg2 : group 2 (add_cap 2 (alias_of v) [(1, "#"%char :: hd)]) = alias_of v)
      by now destruct (alias_of v).
    rewrite Hc1, Hg2, alias_part_of by assumption. subst w.
    rewrite <- !app_assoc. cbn [app]. now rewrite <- app_assoc.
  - (* regular links *)
    cbn [moved_re callback]. rewrite exec_moved_link.
    rewrite starts_with_ext; [|apply (head_avoids_bracket Link)|reflexivity].
    unfold hit. cbn [opening tail_ok].
    destruct (Str.starts_with ("[[" ++ X) t) eqn:E; [|reflexivity]. cbn [andb].
    rewrite drop_starts by assumption.
    rewrite alias_close_seg by now apply avoids_drop.
    apply starts_with_spec in E as [r ->]. rewrite drop_app_length'.
    destruct (link_tail r) eqn:Er; [|reflexivity].
    eexists. split; [now rewrite consumed_shape|].
    unfold retarget. cbn [opening]. rewrite drop_app_length'.
    unfold link_to. rewrite group_add, alias_part_of by assumption.
    now rewrite <- !app_assoc.
  - (* embedded links *)
    cbn [moved_re callback]. unfold hit. cbn [opening tail_ok].
    destruct t as [|x t].
    + reflexivity.
    + rewrite avoids_cons in Ht. apply andb_true_iff in Ht as [Hx Ht].
      cbn [app]. rewrite exec_moved_embed.
      change ("![[" ++ X) with ("!"%char :: "[[" ++ X).
      cbn [Str.starts_with length drop].
      destruct (Ascii.eqb x "!") eqn:Ex; [|reflexivity]. cbn [andb].
      apply Ascii.eqb_eq in Ex as ->.
      rewrite starts_with_ext; [|apply (head_avoids_bracket Link)|reflexivity].
      destruct (Str.starts_with ("[[" ++ X) t) eqn:E; [|reflexivity]. cbn [andb].
      rewrite drop_starts by assumption.
      rewrite alias_close_seg by now apply avoids_drop.
      apply starts_with_spec in E as [r ->]. rewrite drop_app_length'.
      destruct (link_tail r) eqn:Er; [|reflexivity].
      eexists. split.
      * change ("!"%char :: (("[[" ++ X) ++ r) ++ "]]" ++ rest)
          with (("!"%char :: ("[[" ++ X) ++ r) ++ "]]" ++ rest).
        now rewrite consumed_shape.
      * unfold retarget. cbn [opening].
        change ("![[" ++ X) with ("!"%char :: "[[" ++ X).
        cbn [length app drop]. rewrite drop_app_length'.
        unfold embed_to. rewrite group_add, alias_part_of by assumption.
        now rewrite <- !app_assoc.
Qed.

End ExecAnyName.

(** A link to another name is no link to [X], also when [X] is empty. *)
Lemma hit_other_name k X Z r :
  plain_name X = true -> wordy Z -> X <> Z -> delim_start r = true ->
  hit k X (opening k ++ Z ++ r) = false.
Proof.
  intros HX HZ HXZ Hr. destruct X as [|x X].
  - change (hit k [] (opening k ++ Z ++ r)) with (hit k [] (opening k ++ [] ++ Z ++ r)).
    rewrite hit_shape. destruct (wordy_cons Z HZ) as (c & Z' & -> & Hc).
    cbn [app].
    destruct k; cbn [tail_ok heading_tail link_tail]; not_in_class Hc; reflexivity.
  - apply hit_other; try assumption. now apply plain_wordy.
Qed.


Section OnePass.

Variables (X Y : str) (pre N body post : str).
Hypothesis HX : avoids "]" X = true.
Hypothesis Hpre : avoids "[" pre = true.
Hypothesis Hpost : avoids "[" post = true.
Hypothesis Hin : avoids "[]" (N ++ body) = true.

Let t : str := "[[" ++ N ++ body.

Lemma span_avoids_close : avoids "]" t = true.
Proof.
  unfold t. rewrite avoids_app. cbn [andb].
  change (avoids "]" "[[") with true. cbn [andb].
  eapply avoids_sub; [|exact Hin]. class_solver.
Qed.

Lemma span_avoids_open : avoids "[" (N ++ body) = true.
Proof. eapply avoids_sub; [|exact Hin]. class_solver. Qed.

(** A pass for heading or regular links renames the link when it is one
    to [X], and changes nothing otherwise. *)
Lemma pass_over_link k :
  k <> Embed ->
  replace_all (moved_re k X) (callback k Y) (pre ++ t ++ "]]" ++ post)
  = pre ++ (if hit k X t then retarget k X Y t else t) ++ "]]" ++ post.
Proof.
  intros Hk.
  assert (Hn : needs "[[" (moved_re k X)).
  { pose proof (needs_moved k X) as Hn. destruct k; [| |congruence];
      apply (needs_prefix "[[" X); exact Hn. }
  pose proof (exec_at X Y HX k t post span_avoids_close) as He.
  assert (E1 : t ++ "]]" ++ post = ("[[" ++ (N ++ body) ++ "]]") ++ post)
    by (unfold t; now rewrite <- !app_assoc).
  assert (E2 : t ++ "]]" = "[[" ++ (N ++ body) ++ "]]")
    by (unfold t; now rewrite <- !app_assoc).
  rewrite E1, ?E2 in *.
  destruct (hit k X t).
  - destruct He as (caps & He & Hc).
    rewrite (replace_all_at_link _ _ pre (N ++ body) post Hpre Hpost caps Hn He).
    rewrite Hc. now rewrite <- !app_assoc.
  - rewrite (replace_all_past_link _ _ pre (N ++ body) post Hpre span_avoids_open Hpost Hn He).
    now rewrite <- E1.
Qed.

(** The pass for embeds changes nothing when the span is no embed of [X]. *)
Lemma pass_over_embed :
  (ends_with_bang pre = true -> hit Embed X ("!"%char :: t) = false) ->
  replace_all (moved_re Embed X) (callback Embed Y) (pre ++ t ++ "]]" ++ post)
  = pre ++ t ++ "]]" ++ post.
Proof.
  intros Hb.
  assert (Hn : needs "![[" (moved_re Embed X))
    by apply (needs_prefix "![[" X), (needs_moved Embed X).
  assert (E1 : t ++ "]]" ++ post = ("[[" ++ (N ++ body) ++ "]]") ++ post)
    by (unfold t; now rewrite <- !app_assoc).
  rewrite E1.
  apply replace_all_past_embed; try assumption; [apply span_avoids_open|].
  intros Hbang. specialize (Hb Hbang).
  assert (Ht' : avoids "]" ("!"%char :: t) = true).
  { rewrite avoids_cons. now rewrite span_avoids_close. }
  pose proof (exec_at X Y HX Embed ("!"%char :: t) post Ht') as He.
  rewrite Hb in He. cbn [app] in He. rewrite E1 in He. exact He.
Qed.

End OnePass.


Lemma rewrite_links_one_link X Y (pre post : str) (hd al : option str) :
  plain_name X = true -> wordy Y ->
  avoids "[" pre = true -> avoids "[" post = true ->
  good_heading hd = true -> good_alias al = true ->
  rewrite_links X Y (pre ++ "[[" ++ X ++ hash hd ++ bar al ++ "]]" ++ post)
  = pre ++ "[[" ++ Y ++ hash hd ++ bar al ++ "]]" ++ post.
Proof.
  intros HX HY Hpre Hpost Hh Ha.
  destruct (decide (X = Y)) as [<-|HXY].
  { apply (rewrite_links_same X HY (length (pre ++ "[[" ++ X ++ hash hd ++ bar al ++ "]]" ++ post))).
    lia. }
  destruct (good_tail hd al Hh Ha) as [Hr Htail].
  set (r := hash hd ++ bar al) in *.
  assert (HX1 : avoids "]" X = true) by (apply plain_avoids; [assumption|class_solver]).
  assert (HX2 : avoids "[]" X = true) by (apply plain_avoids; [assumption|class_solver]).
  assert (HY2 : avoids "[]" Y = true) by (apply wordy_sub; [assumption|class_solver]).
  assert (HinX : avoids "[]" (X ++ r) = true) by now rewrite avoids_app, HX2, Hr.
  assert (HinY : avoids "[]" (Y ++ r) = true) by now rewrite avoids_app, HY2, Hr.
  assert (Hd : delim_start r = true).
  { destruct hd; [now apply (tail_ok_delim Heading)|now apply (tail_ok_delim Link)]. }
  assert (Hlink : hit Link X ("[[" ++ Y ++ r) = false)
    by now apply (hit_other_name Link).
  assert (Hemb : hit Embed X ("!"%char :: "[[" ++ Y ++ r) = false)
    by now apply (hit_other_name Embed).
  assert (HhX : hit Heading X ("[[" ++ X ++ r) = heading_tail r)
    by apply (hit_shape Heading).
  assert (HlX : hit Link X ("[[" ++ X ++ r) = link_tail r)
    by apply (hit_shape Link).
  assert (HrH : retarget Heading X Y ("[[" ++ X ++ r) = "[[" ++ Y ++ r)
    by apply (retarget_shape Heading).
  assert (HrL : retarget Link X Y ("[[" ++ X ++ r) = "[[" ++ Y ++ r)
    by apply (retarget_shape Link).
  replace (pre ++ "[[" ++ X ++ hash hd ++ bar al ++ "]]" ++ post)
    with (pre ++ ("[[" ++ X ++ r) ++ "]]" ++ post)
    by (unfold r; now rewrite <- !app_assoc).
  replace (pre ++ "[[" ++ Y ++ hash hd ++ bar al ++ "]]" ++ post)
    with (pre ++ ("[[" ++ Y ++ r) ++ "]]" ++ post)
    by (unfold r; now rewrite <- !app_assoc).
  rewrite rewrite_links_eq.
  rewrite (pass_over_link X Y pre X r post HX1 Hpre Hpost HinX Heading) by discriminate.
  rewrite HhX, HrH.
  destruct hd as [h|].
  - (* a heading link: the first pass renames it *)
    rewrite Htail.
    rewrite (pass_over_link X Y pre Y r post HX1 Hpre Hpost HinY Link) by discriminate.
    rewrite Hlink.
    apply (pass_over_embed X Y pre Y r post HX1 Hpre Hpost HinY).
    intros _. exact Hemb.
  - (* a regular link: the second pass renames it *)
    rewrite (link_not_heading r Htail).
    rewrite (pass_over_link X Y pre X r post HX1 Hpre Hpost HinX Link) by discriminate.
    rewrite HlX, HrL, Htail.
    apply (pass_over_embed X Y pre Y r post HX1 Hpre Hpost HinY).
    intros _. exact Hemb.
Qed.




(** ** Links to other notes *)

Lemma rewrite_links_other_link X Y Z (pre post t : str) :
  plain_name X = true -> wordy Z -> X <> Z ->
  avoids "[" pre = true -> avoids "[" post = true ->
  avoids "[]" t = true -> delim_start t = true ->
  rewrite_links X Y (pre ++ "[[" ++ Z ++ t ++ "]]" ++ post)
  = pre ++ "[[" ++ Z ++ t ++ "]]" ++ post.
Proof.
  intros HX HZ HXZ Hpre Hpost Ht Hd.
  assert (HX1 : avoids "]" X = true) by (apply plain_avoids; [assumption|class_solver]).
  assert (HZ2 : avoids "[]" Z = true) by (apply wordy_sub; [assumption|class_solver]).
  assert (Hin : avoids "[]" (Z ++ t) = true) by now rewrite avoids_app, HZ2, Ht.
  assert (Hheading : hit Heading X ("[[" ++ Z ++ t) = false)
    by now apply (hit_other_name Heading).
  assert (Hlink : hit Link X ("[[" ++ Z ++ t) = false)
    by now apply (hit_other_name Link).
  assert (Hemb : hit Embed X ("!"%char :: "[[" ++ Z ++ t) = false)
    by now apply (hit_other_name Embed).
  replace (pre ++ "[[" ++ Z ++ t ++ "]]" ++ post)
    with (pre ++ ("[[" ++ Z ++ t) ++ "]]" ++ post) by now rewrite <- !app_assoc.
  rewrite rewrite_links_eq.
  rewrite (pass_over_link X Y pre Z t post HX1 Hpre Hpost Hin Heading) by discriminate.
  rewrite Hheading.
  rewrite (pass_over_link X Y pre Z t post HX1 Hpre Hpost Hin Link) by discriminate.
  rewrite Hlink.
  apply (pass_over_embed X Y pre Z t post HX1 Hpre Hpost Hin). intros _. exact Hemb.
Qed.

(** The old name in front of another name: the other name is longer. *)
Lemma other_name_is_longer X Z (t rest : str) :
  plain_name X = true -> wordy Z -> X <> Z -> delim_start t = true ->
  Str.starts_with ("[[" ++ X) ("[[" ++ Z ++ t ++ "]]" ++ rest) = true ->
  exists c z, Z = X ++ c :: z /\ outside "[]|#!" c = true.
Proof.
  intros HX HZ HXZ Hd Hs.
  rewrite starts_with_split in Hs. apply andb_true_iff in Hs as [_ Hs].
  change (drop (length (list_ascii_of_string "[[")) ("[[" ++ Z ++ t ++ "]]" ++ rest))
    with (Z ++ t ++ "]]" ++ rest) in Hs.
  assert (HZa : avoids "[]|#!" Z = true) by apply HZ.
  clear HZ. revert Z HXZ HZa Hs. induction X as [|x X IH]; intros Z HXZ HZa Hs.
  - destruct Z as [|c z]; [congruence|]. exists c, z. split; [reflexivity|].
    rewrite avoids_cons in HZa. now apply andb_true_iff in HZa as [Hc _].
  - unfold plain_name in HX. rewrite avoids_cons in HX.
    apply andb_true_iff in HX as [Hx HX].
    destruct Z as [|c z].
    + (* the old name would run into the tail or the closing brackets *)
      exfalso. cbn [app Str.starts_with] in Hs.
      destruct t as [|d t'].
      * cbn [app] in Hs. change ("]]" ++ rest) with ("]"%char :: "]"%char :: rest) in Hs.
        cbn [Str.starts_with] in Hs. apply andb_true_iff in Hs as [Hs _].
        apply Ascii.eqb_eq in Hs. subst x. discriminate.
      * cbn [app Str.starts_with] in Hs. apply andb_true_iff in Hs as [Hs _].
        apply Ascii.eqb_eq in Hs. subst x. cbn [delim_start] in Hd.
        apply orb_true_iff in Hd as [Hd|Hd]; apply Ascii.eqb_eq in Hd; subst d;
          discriminate.
    + cbn [app Str.starts_with] in Hs. apply andb_true_iff in Hs as [Hc Hs].
      apply Ascii.eqb_eq in Hc. subst c.
      rewrite avoids_cons in HZa. apply andb_true_iff in HZa as [Hx' HZa].
      destruct (IH HX z) as (c & z' & -> & Hc); [congruence|assumption|assumption|].
      exists c, z'. split; [reflexivity|assumption].
Qed.

Lemma exec_deleted_other X Z (t rest : str) :
  plain_name X = true -> wordy Z -> X <> Z ->
  avoids "]" t = true -> delim_start t = true ->
  exec (deleted_heading_re X) (("[[" ++ Z ++ t ++ "]]") ++ rest) = None
  /\ exec (deleted_link_re X) (("[[" ++ Z ++ t ++ "]]") ++ rest) = None.
Proof.
  intros HX HZ HXZ Ht Hd.
  destruct (Str.starts_with ("[[" ++ X) ("[[" ++ Z ++ t ++ "]]" ++ rest)) eqn:E.
  - destruct (other_name_is_longer X Z t rest HX HZ HXZ Hd E) as (c & z & -> & Hc).
    assert (Hz : avoids "]" (c :: z ++ t) = true).
    { assert (HZa : avoids "]" (X ++ c :: z) = true)
        by (apply wordy_sub; [assumption|class_solver]).
      rewrite avoids_app in HZa. apply andb_true_iff in HZa as [_ HZa].
      rewrite avoids_cons in HZa |- *. apply andb_true_iff in HZa as [H1 H2].
      now rewrite H1, avoids_app, H2, Ht. }
    pose proof (exec_deleted_heading X (c :: z ++ t) rest Hz) as Hh.
    pose proof (exec_deleted_link X (c :: z ++ t) rest Hz) as Hl.
    cbv iota in Hh, Hl.
    rewrite (outside_in "[]|#!" c "#" Hc) in Hh by class_solver.
    rewrite (outside_in "[]|#!" c "|" Hc) in Hl by class_solver.
    replace (("[[" ++ (X ++ c :: z) ++ t ++ "]]") ++ rest)
      with (("[[" ++ X ++ (c :: z ++ t) ++ "]]") ++ rest)
      by (rewrite <- !app_assoc; cbn [app]; now rewrite <- ?app_assoc).
    now split.
  - split.
    + apply needs_deleted_heading. now rewrite <- !app_assoc.
    + apply needs_deleted_link. now rewrite <- !app_assoc.
Qed.

(** X9: for an old name that holds no pattern metacharacter, no [#] and no
    [!], [updateWikiLinks] leaves a link to another note alone (a note
    whose name is not empty and holds no bracket, bar, [#] or [!]), also
    when that note's name begins with the old name ([[[Older]]] when [Old]
    is renamed or deleted), whatever follows the name: a heading, an alias
    or nothing.  The text around the link holds no opening bracket.  (With
    a metacharacter in the old name, as in [v1.0], the patterns match other
    names too.) *)
Theorem updateWikiLinks_leaves_links_to_other_notes
  (pre post t Z : str) (oldPath : str) (newPath : option str)
  (options : UpdateOptions) :
  let X := Path.basename oldPath ".md" in
  plain_name X = true -> wordy Z -> X <> Z ->
  avoids "[" pre = true -> avoids "[" post = true ->
  avoids "[]" t = true -> delim_start t = true ->
  updateWikiLinks (pre ++ "[[" ++ Z ++ t ++ "]]" ++ post) oldPath newPath options
  = pre ++ "[[" ++ Z ++ t ++ "]]" ++ post.
Proof.
  intros X HX HZ HXZ Hpre Hpost Ht Hd.
  unfold updateWikiLinks. fold X.
  destruct (negb (truthy newPath)).
  - assert (Ht2 : avoids "]" t = true) by (eapply avoids_sub; [|exact Ht]; class_solver).
    assert (Ht1 : avoids "[" t = true) by (eapply avoids_sub; [|exact Ht]; class_solver).
    assert (HZ1 : avoids "[" Z = true) by (apply wordy_sub; [assumption|class_solver]).
    assert (Hbody : avoids "[" (Z ++ t) = true) by now rewrite avoids_app, HZ1, Ht1.
    destruct (exec_deleted_other X Z t post HX HZ HXZ Ht2 Hd) as [Hh Hl].
    replace ("[[" ++ Z ++ t ++ "]]") with ("[[" ++ (Z ++ t) ++ "]]") in Hh, Hl
      by now rewrite <- !app_assoc.
    replace (pre ++ "[[" ++ Z ++ t ++ "]]" ++ post)
      with (pre ++ ("[[" ++ (Z ++ t) ++ "]]") ++ post) by now rewrite <- !app_assoc.
    rewrite (replace_all_past_link _ _ pre (Z ++ t) post Hpre Hbody Hpost
               (needs_prefix "[[" X _ (needs_deleted_heading X)) Hh).
    rewrite (replace_all_past_link _ _ pre (Z ++ t) post Hpre Hbody Hpost
               (needs_prefix "[[" X _ (needs_deleted_link X)) Hl).
    apply replace_all_past_embed; try assumption.
    + apply (needs_prefix "![[" X), needs_deleted_embed.
    + intros _. apply exec_none. unfold deleted_embed_re. rewrite run_chr.
      change (Ascii.eqb "!" "!") with true. cbv iota. now apply exec_none.
  - destruct (default false (opt_moveToOtherVault options)
              && truthy (opt_destVaultName options));
      now apply rewrite_links_other_link.
Qed.

Lemma updateWikiLinks_leaves_links_to_other_notes_witness :
  updateWikiLinks "old [[Older#h|x]]!" "Old.md" (Some ("New.md" : str)) no_options
  = "old [[Older#h|x]]!"
  /\ updateWikiLinks "old ![[Older]]" "Old.md" None no_options = "old ![[Older]]".
Proof.
  split.
  - apply (updateWikiLinks_leaves_links_to_other_notes "old " "!" "#h|x" "Older"
             "Old.md" (Some ("New.md" : str)) no_options);
      try reflexivity; try discriminate. split; [discriminate|reflexivity].
  - apply (updateWikiLinks_leaves_links_to_other_notes "old !" [] [] "Older"
             "Old.md" None no_options);
      try reflexivity; try discriminate. split; [discriminate|reflexivity].
Defined.


Section Coordinator.

Context `{Collaborators}.

Lemma with_log_nil w : with_log [] w = w.
Proof. destruct w. unfold with_log. cbn. now rewrite app_nil_r. Qed.

Lemma with_log_log l1 l2 w : with_log l2 (with_log l1 w) = with_log (l1 ++ l2) w.
Proof. unfold with_log. cbn. now rewrite app_assoc. Qed.

(** ** One file *)

(** [updateLinksInFile], case by case. *)
Lemma updateLinksInFile_cases o w :
  updateLinksInFile o w
  = if bool_decide (filePath o ∈ unreadable w) then
      (Throw (rethrow "Failed to update links in file"
                (JsError ("EACCES: permission denied, open " ++ filePath o))), w)
    else
      match files w !! filePath o with
      | None =>
          (Throw (rethrow "Failed to update links in file"
                    (JsError ("ENOENT: no such file or directory, open " ++ filePath o))), w)
      | Some content =>
          if Str.eqb content (finalContent o content) then (Ok false, w)
          else if bool_decide (filePath o ∈ unwritable w) then
            (Throw (rethrow "Failed to update links in file"
                      (JsError ("EACCES: permission denied, open " ++ filePath o))), w)
          else
            (Ok true,
             with_files (<[filePath o := finalContent o content]> (files w)) w)
      end.
Proof.
  unfold updateLinksInFile, guarded, try_catch, bind, Fs.readFile.
  case_bool_decide; [reflexivity|].
  destruct (files w !! filePath o) as [content|]; [|reflexivity].
  fold (finalContent o content).
  destruct (Str.eqb content (finalContent o content)); cbn [negb]; [reflexivity|].
  unfold Fs.writeFile. case_bool_decide; reflexivity.
Qed.
End Coordinator.


Section Walk.

Context `{Collaborators}.

Lemma same_frame_refl w : same_frame w w.
Proof. now repeat split. Qed.

Lemma same_frame_trans w1 w2 w3 :
  same_frame w1 w2 -> same_frame w2 w3 -> same_frame w1 w3.
Proof.
  intros (a1 & a2 & a3 & a4 & a5) (b1 & b2 & b3 & b4 & b5).
  repeat split; congruence.
Qed.

(** ** Building the index touches the console only *)

Lemma index_file_log vaultPath m file w :
  exists m' log, index_file vaultPath m file w = (Ok m', with_log log w).
Proof.
  unfold index_file, Fs.readFile. case_bool_decide.
  - eexists _, [_]. reflexivity.
  - destruct (files w !! file) as [c|].
    + destruct (add_links _ _ _ _) as [m' [e|]].
      * eexists _, [_]. reflexivity.
      * exists m', []. now rewrite with_log_nil.
    + eexists _, [_]. reflexivity.
Qed.

Lemma index_files_log vaultPath fs : forall m w,
  exists m' log, for_each (index_file vaultPath) fs m w = (Ok m', with_log log w).
Proof.
  induction fs as [|f fs IH]; intros m w; cbn [for_each].
  - exists m, []. now rewrite with_log_nil.
  - unfold bind. destruct (index_file_log vaultPath m f w) as (m1 & l1 & ->).
    destruct (IH m1 (with_log l1 w)) as (m2 & l2 & ->).
    exists m2, (l1 ++ l2). now rewrite with_log_log.
Qed.

Lemma createWikiLinkMap_log vaultPath fs w :
  getAllMarkdownFiles vaultPath w = Ok fs ->
  exists m log, createWikiLinkMap vaultPath w = (Ok m, with_log log w).
Proof.
  intros Hfs. unfold createWikiLinkMap, guarded, try_catch, bind, enumerate.
  rewrite Hfs. destruct (index_files_log vaultPath fs [] w) as (m & log & ->).
  eauto.
Qed.

(** ** One turn of the walk *)

Lemma skipping_step_effect vaultPath oldPath newPath src dst n w file :
  let st := skipping_step vaultPath oldPath newPath
              (movedToOtherVault oldPath newPath src dst)
              (movedFromOtherVault oldPath newPath src dst) src dst (n, w) file in
  same_frame w (snd st)
  /\ fst st = n + (if changes vaultPath oldPath newPath src dst w file then 1 else 0)
  /\ files (snd st)
     = if rewritable vaultPath newPath w file
       then alter (finalContent (options_for oldPath newPath src dst file)) file (files w)
       else files w.
Proof.
  cbn zeta. unfold skipping_step, changes, rewritable, is_destination. cbn [fst snd].
  destruct (truthy (to_option newPath) && _) eqn:Ed; cbn [negb andb].
  { repeat split; cbn [fst snd]; lia. }
  fold (options_for oldPath newPath src dst file).
  rewrite updateLinksInFile_cases. cbn [filePath options_for].
  case_bool_decide as Hr; cbn [negb andb].
  { repeat split; cbn [fst snd]; lia. }
  destruct (files w !! file) as [c|] eqn:Ef.
  - destruct (Str.eqb c _) eqn:Ec; cbn [negb].
    + rewrite andb_false_r. repeat split; [cbn [fst snd]; lia|]. cbn [fst snd].
      unfold Str.eqb in Ec. apply bool_decide_eq_true in Ec.
      destruct (negb (bool_decide (file ∈ unwritable w))); [|reflexivity].
      apply map_eq. intros p. destruct (decide (p = file)) as [->|Hp].
      * rewrite lookup_alter_eq, Ef. cbn. congruence.
      * now rewrite lookup_alter_ne.
    + case_bool_decide as Hw; cbn [negb andb].
      * repeat split; cbn [fst snd]; lia.
      * repeat split; [cbn [fst snd]; lia|]. cbn [fst snd]. cbn [files with_files].
        apply map_eq. intros p. destruct (decide (p = file)) as [->|Hp].
        -- now rewrite lookup_insert_eq, lookup_alter_eq, Ef.
        -- now rewrite lookup_insert_ne, lookup_alter_ne.
  - rewrite andb_false_r. repeat split; [cbn [fst snd]; lia|]. cbn [fst snd].
    destruct (negb (bool_decide (file ∈ unwritable w))); [|reflexivity].
    apply map_eq. intros p. destruct (decide (p = file)) as [->|Hp].
    + now rewrite lookup_alter_eq, Ef.
    + now rewrite lookup_alter_ne.
Qed.

End Walk.


Section WalkOfTheVault.

Context `{Collaborators}.

Variables (vaultPath : str) (oldPath newPath : nullable) (src dst : option str).

Let step :=
  skipping_step vaultPath oldPath newPath
    (movedToOtherVault oldPath newPath src dst)
    (movedFromOtherVault oldPath newPath src dst) src dst.

Lemma rewritable_frame w w' file :
  same_frame w w' -> rewritable vaultPath newPath w' file = rewritable vaultPath newPath w file.
Proof. intros (Hr & Hw & _). unfold rewritable. now rewrite Hr, Hw. Qed.

Lemma changes_frame w w' file :
  same_frame w w' -> files w' !! file = files w !! file ->
  changes vaultPath oldPath newPath src dst w' file
  = changes vaultPath oldPath newPath src dst w file.
Proof.
  intros Hf Hl. unfold changes. now rewrite (rewritable_frame w w' file Hf), Hl.
Qed.

Lemma step_other_file n w file p :
  p <> file -> files (snd (step (n, w) file)) !! p = files w !! p.
Proof.
  intros Hp.
  destruct (skipping_step_effect vaultPath oldPath newPath src dst n w file) as (_ & _ & Hf).
  unfold step. rewrite Hf. destruct (rewritable _ _ _ _); [|reflexivity].
  now rewrite lookup_alter_ne.
Qed.

Lemma walk_domain fs : forall n w,
  dom (files (snd (fold_left step fs (n, w)))) = dom (files w)
  /\ same_frame w (snd (fold_left step fs (n, w))).
Proof.
  induction fs as [|f fs IH]; intros n w; cbn [fold_left].
  - split; [reflexivity|apply same_frame_refl].
  - destruct (skipping_step_effect vaultPath oldPath newPath src dst n w f) as (Hfr & _ & Hf).
    fold step in Hfr, Hf. destruct (step (n, w) f) as [n1 w1]. cbn [fst snd] in *.
    destruct (IH n1 w1) as [Hd Hfr']. split.
    + rewrite Hd, Hf. destruct (rewritable _ _ _ _); [|reflexivity].
      apply dom_alter_L.
    + eapply same_frame_trans; eassumption.
Qed.

Lemma walk_effect fs : forall n w,
  NoDup fs ->
  let st := fold_left step fs (n, w) in
  fst st = n + length (List.filter (changes vaultPath oldPath newPath src dst w) fs)
  /\ forall p,
       files (snd st) !! p
       = if bool_decide (p ∈ fs) && rewritable vaultPath newPath w p
         then finalContent (options_for oldPath newPath src dst p) <$> files w !! p
         else files w !! p.
Proof.
  induction fs as [|f fs IH]; intros n w Hnd; cbn zeta; cbn [fold_left].
  - split; [cbn; lia|]. intros p. rewrite bool_decide_eq_false_2; [reflexivity|].
    apply not_elem_of_nil.
  - apply NoDup_cons in Hnd as [Hf Hnd].
    destruct (skipping_step_effect vaultPath oldPath newPath src dst n w f) as (Hfr & Hn & Hfs).
    fold step in Hfr, Hn, Hfs.
    pose proof (fun p => step_other_file n w f p) as Hoth.
    destruct (step (n, w) f) as [n1 w1]. cbn [fst snd] in *.
    destruct (IH n1 w1 Hnd) as [Hcount Hfiles]. split.
    + rewrite Hcount, Hn. cbn [List.filter].
      assert (Hext : List.filter (changes vaultPath oldPath newPath src dst w1) fs
                     = List.filter (changes vaultPath oldPath newPath src dst w) fs).
      { apply List.filter_ext_in. intros p Hp. apply changes_frame; [assumption|].
        apply Hoth. intros ->. apply Hf. now apply list_elem_of_In. }
      rewrite Hext.
      destruct (changes vaultPath oldPath newPath src dst w f); cbn [length]; lia.
    + intros p. rewrite Hfiles, (rewritable_frame w w1 p Hfr).
      destruct (decide (p = f)) as [->|Hp].
      * rewrite (bool_decide_eq_false_2 (f ∈ fs)) by assumption.
        rewrite (bool_decide_eq_true_2 (f ∈ f :: fs)) by left.
        cbn [andb]. rewrite Hfs.
        destruct (rewritable vaultPath newPath w f); [|reflexivity].
        now rewrite lookup_alter_eq.
      * rewrite (Hoth p Hp).
        assert (Hin : bool_decide (p ∈ f :: fs) = bool_decide (p ∈ fs)).
        { apply bool_decide_ext. rewrite elem_of_cons. intuition congruence. }
        now rewrite Hin.
Qed.

(** [updateVaultLinks] once the two checks have passed: the index is built
    and stored, then the files are walked. *)
Lemma updateVaultLinks_walk fs w :
  validateVaultPath vaultPath
    (or_else (to_option oldPath) (or_else (to_option newPath) vaultPath)) = None ->
  getAllMarkdownFiles vaultPath w = Ok fs ->
  exists m log,
    createWikiLinkMap vaultPath w = (Ok m, with_log log w)
    /\ updateVaultLinks vaultPath oldPath newPath src dst w
       = (Ok (fst (fold_left step fs (0, with_cache m (now w) (with_log log w)))),
          snd (fold_left step fs (0, with_cache m (now w) (with_log log w)))).
Proof.
  intros Hv Hfs. destruct (createWikiLinkMap_log vaultPath fs w Hfs) as (m & log & Hm).
  exists m, log. split; [exact Hm|].
  unfold updateVaultLinks, guarded, try_catch, bind, validate, enumerate.
  rewrite Hv. unfold ret at 1. rewrite Hfs, forced_refresh, Hm.
  rewrite (for_each_total _ _ (update_one_skipping vaultPath oldPath newPath _ _ src dst)).
  reflexivity.
Qed.

Lemma updateVaultLinks_stops w :
  validateVaultPath vaultPath
    (or_else (to_option oldPath) (or_else (to_option newPath) vaultPath)) <> None
  \/ (exists e, getAllMarkdownFiles vaultPath w = Throw e) ->
  exists e, updateVaultLinks vaultPath oldPath newPath src dst w = (Throw e, w).
Proof.
  unfold updateVaultLinks, guarded, try_catch, bind, validate, enumerate.
  intros [Hv|[e He]].
  - destruct (validateVaultPath vaultPath _) as [e|]; [|congruence]. eauto.
  - destruct (validateVaultPath vaultPath _) as [e'|]; [eauto|].
    unfold ret at 1. rewrite He. eauto.
Qed.

End WalkOfTheVault.


Section CoordinatorAtWork.

Context `{Collaborators}.

(** X10: for an old name that holds no pattern metacharacter, no [#] and no
    [!] (so that the patterns are built and are the literal ones),
    [updateLinksInFile] answers [true] exactly when it has rewritten the
    file, and then the file holds [finalContent], which differs from what
    it held; it answers [false] when there is nothing to change, and then
    nothing is written (a read-only file is no obstacle); a failed read or
    write leaves the world as it was and is thrown as an [McpError] of
    code [InternalError] made from a message that begins with the name of
    the step. *)
Theorem updateLinksInFile_reports_change (o : LinkUpdateOptions) (w : world) :
  plain_name (Path.basename (oldPath o) ".md") = true ->
  match updateLinksInFile o w with
  | (Ok true, w') =>
      exists content,
        files w !! filePath o = Some content
        /\ finalContent o content <> content
        /\ w' = with_files (<[filePath o := finalContent o content]> (files w)) w
  | (Ok false, w') =>
      w' = w
      /\ exists content,
           files w !! filePath o = Some content /\ finalContent o content = content
  | (Throw e, w') =>
      w' = w
      /\ exists msg,
           e = McpError InternalError ("Failed to update links in file: " ++ msg)
  end.
Proof.
  intros _. rewrite updateLinksInFile_cases.
  case_bool_decide; [split; [reflexivity|]; eexists; reflexivity|].
  destruct (files w !! filePath o) as [content|];
    [|split; [reflexivity|]; eexists; reflexivity].
  destruct (Str.eqb content (finalContent o content)) eqn:E; unfold Str.eqb in E.
  - apply bool_decide_eq_true in E. split; [reflexivity|]. exists content. split; congruence.
  - apply bool_decide_eq_false in E.
    case_bool_decide; [split; [reflexivity|]; eexists; reflexivity|].
    exists content. repeat split; congruence.
Qed.

(** X11: [updateVaultLinks] creates no file and deletes none, whatever its
    outcome: the set of paths that hold a file is the same afterwards, and
    so are the clock and the permissions. *)
Theorem updateVaultLinks_keeps_the_files
  (vaultPath : str) (oldPath newPath : nullable) (src dst : option str) (w : world) :
  let w' := snd (updateVaultLinks vaultPath oldPath newPath src dst w) in
  dom (files w') = dom (files w)
  /\ unreadable w' = unreadable w /\ unwritable w' = unwritable w
  /\ now w' = now w.
Proof.
  cbn zeta.
  destruct (validateVaultPath vaultPath
              (or_else (to_option oldPath) (or_else (to_option newPath) vaultPath)))
    as [e|] eqn:Hv.
  { destruct (updateVaultLinks_stops vaultPath oldPath newPath src dst w) as [e' ->].
    - left. congruence.
    - now repeat split. }
  destruct (getAllMarkdownFiles vaultPath w) as [fs|e] eqn:Hfs.
  2:{ destruct (updateVaultLinks_stops vaultPath oldPath newPath src dst w) as [e' ->].
      - right. eauto.
      - now repeat split. }
  destruct (updateVaultLinks_walk vaultPath oldPath newPath src dst fs w Hv Hfs)
    as (m & log & _ & ->). cbn [snd].
  destruct (walk_domain vaultPath oldPath newPath src dst fs 0
              (with_cache m (now w) (with_log log w))) as [Hd (Hr & Hw & Hn & _)].
  rewrite Hd, Hr, Hw, Hn. now repeat split.
Qed.

(** X12: what [updateVaultLinks] does to the files, when the old name holds
    no pattern metacharacter, no [#] and no [!], the vault path is
    accepted and the enumeration gives each file once: every enumerated
    file that is not the destination of the move, and that can be read and
    written, ends up with [finalContent] of the text it held before the
    call; every other path keeps what it held.  The number returned counts
    the enumerated files whose text has changed. *)
Theorem updateVaultLinks_rewrites_each_file
  (vaultPath : str) (oldPath newPath : nullable) (src dst : option str)
  (fs : list str) (w : world) :
  plain_name (Path.basename (or_else (to_option oldPath) []) ".md") = true ->
  validateVaultPath vaultPath
    (or_else (to_option oldPath) (or_else (to_option newPath) vaultPath)) = None ->
  getAllMarkdownFiles vaultPath w = Ok fs ->
  NoDup fs ->
  fst (updateVaultLinks vaultPath oldPath newPath src dst w)
  = Ok (length (List.filter (changes vaultPath oldPath newPath src dst w) fs))
  /\ forall p,
       files (snd (updateVaultLinks vaultPath oldPath newPath src dst w)) !! p
       = if bool_decide (p ∈ fs) && rewritable vaultPath newPath w p
         then finalContent (options_for oldPath newPath src dst p) <$> files w !! p
         else files w !! p.
Proof.
  intros _ Hv Hfs Hnd.
  destruct (updateVaultLinks_walk vaultPath oldPath newPath src dst fs w Hv Hfs)
    as (m & log & _ & ->). cbn [fst snd].
  destruct (walk_effect vaultPath oldPath newPath src dst fs 0
              (with_cache m (now w) (with_log log w)) Hnd) as [Hc Hf].
  split.
  - rewrite Hc. reflexivity.
  - intros p. rewrite Hf. reflexivity.
Qed.

Lemma updateVaultLinks_returns
  (vaultPath : str) (oldPath newPath : nullable) (src dst : option str)
  (w w' : world) (n : nat) :
  updateVaultLinks vaultPath oldPath newPath src dst w = (Ok n, w') ->
  exists m log,
    createWikiLinkMap vaultPath w = (Ok m, with_log log w)
    /\ same_frame (with_cache m (now w) (with_log log w)) w'.
Proof.
  intros Hu.
  destruct (validateVaultPath vaultPath
              (or_else (to_option oldPath) (or_else (to_option newPath) vaultPath)))
    as [e|] eqn:Hv.
  { destruct (updateVaultLinks_stops vaultPath oldPath newPath src dst w) as [e' He].
    - left. congruence.
    - congruence. }
  destruct (getAllMarkdownFiles vaultPath w) as [fs|e] eqn:Hfs.
  2:{ destruct (updateVaultLinks_stops vaultPath oldPath newPath src dst w) as [e' He].
      - right. eauto.
      - congruence. }
  destruct (updateVaultLinks_walk vaultPath oldPath newPath src dst fs w Hv Hfs)
    as (m & log & Hm & Hw). rewrite Hw in Hu. injection Hu as _ <-.
  exists m, log. split; [exact Hm|].
  apply (walk_domain vaultPath oldPath newPath src dst fs 0).
Qed.

(** X13: [updateVaultLinks] stores the index before it rewrites anything: after
    a call that returns, the cache holds the index of the vault as it was
    when the call began, stamped with the time of the call. *)
Theorem updateVaultLinks_indexes_before_rewriting
  (vaultPath : str) (oldPath newPath : nullable) (src dst : option str)
  (w w' : world) (n : nat) :
  updateVaultLinks vaultPath oldPath newPath src dst w = (Ok n, w') ->
  exists m,
    fst (createWikiLinkMap vaultPath w) = Ok m
    /\ cachedLinkMap w' = Some m
    /\ lastUpdateTime w' = now w.
Proof.
  intros Hu.
  destruct (updateVaultLinks_returns _ _ _ _ _ _ _ _ Hu) as (m & log & Hm & Hf).
  exists m. rewrite Hm. destruct Hf as (_ & _ & _ & Hc & Ht).
  rewrite Hc, Ht. now repeat split.
Qed.

End CoordinatorAtWork.


(** ** The batch *)

Lemma insert_update_within_depth d u l :
  List.filter (fun v => Nat.eqb (depth v) d) (insert_update u l)
  = List.filter (fun v => Nat.eqb (depth v) d) (u :: l).
Proof.
  induction l as [|v l IH]; [reflexivity|]. cbn [insert_update].
  destruct (depth v <=? depth u)%nat eqn:E; [reflexivity|].
  apply Nat.leb_gt in E. cbn [List.filter] in *. rewrite IH.
  destruct (Nat.eqb_spec (depth u) d) as [Hu|Hu]; [|reflexivity].
  destruct (Nat.eqb_spec (depth v) d) as [Hv|Hv]; [lia|reflexivity].
Qed.

(** X14: the sort of the batch is stable: the updates of one depth are
    processed in the order in which they were given. *)
Theorem sortedUpdates_keeps_order_within_depth (updates : list Update) (d : nat) :
  List.filter (fun u => Nat.eqb (depth u) d) (sortedUpdates updates)
  = List.filter (fun u => Nat.eqb (depth u) d) updates.
Proof.
  unfold sortedUpdates. induction updates as [|u l IH]; [reflexivity|].
  cbn [foldr]. rewrite insert_update_within_depth. cbn [List.filter].
  now rewrite IH.
Qed.

Section Batch.

Context `{Collaborators}.

(** A turn of the batch is [updateVaultLinks] followed by the count. *)
Lemma batch_one_in_two_steps (vaultPath : str) (totals : nat * nat) (update : Update) :
  batch_one vaultPath totals update
  = (let! filesUpdated :=
       updateVaultLinks vaultPath (Given (u_oldPath update))
         (of_undefined (u_newPath update))
         (u_sourceVaultName update) (u_destVaultName update) in
     count_affected_links vaultPath totals update filesUpdated).
Proof. reflexivity. Qed.

(** X15: the count that follows [updateVaultLinks] in a turn of the batch
    reads the index from before the update.  Let [updateVaultLinks] have
    returned in the world [w1], and let the count run in a later world
    [w2] that still holds that cache, read no more than [CACHE_TTL] after
    the index was stored: the unforced look at the cache builds nothing,
    and the links added are those the index of the vault held under the
    old base name before the files were rewritten, whether or not a file
    was changed.  (The base name is no property that every dictionary
    inherits.) *)
Theorem batch_counts_links_before_the_update
  (vaultPath : str) (update : Update) (totals : nat * nat)
  (w w1 w2 : world) (n : nat) :
  updateVaultLinks vaultPath (Given (u_oldPath update))
    (of_undefined (u_newPath update))
    (u_sourceVaultName update) (u_destVaultName update) w = (Ok n, w1) ->
  cachedLinkMap w2 = cachedLinkMap w1 ->
  lastUpdateTime w2 = lastUpdateTime w1 ->
  (now w2 - lastUpdateTime w1 <= CACHE_TTL)%Z ->
  Obj.is_inherited (Path.basename (u_oldPath update) ".md") = false ->
  exists m,
    fst (createWikiLinkMap vaultPath w) = Ok m
    /\ count_affected_links vaultPath totals update n w2
       = (Ok (fst totals + n,
              snd totals
              + count_links
                  (default [] (Obj.get (Path.basename (u_oldPath update) ".md") m))),
          w2).
Proof.
  intros Hu Hc2 Ht2 Hfresh Hi.
  destruct (updateVaultLinks_returns _ _ _ _ _ _ _ _ Hu)
    as (m & log & Hm & (_ & _ & _ & Hc & _)).
  cbn [cachedLinkMap with_cache with_log] in Hc.
  exists m. split; [now rewrite Hm|].
  unfold count_affected_links, getOrUpdateLinkMap, bind, date_now, get_cache.
  cbn [fst snd]. rewrite Hc2, Ht2, Hc.
  rewrite bool_decide_eq_true_2 by eauto. cbn [negb orb].
  replace (CACHE_TTL <? now w2 - lastUpdateTime w1)%Z with false
    by (symmetry; apply Z.ltb_ge; lia).
  unfold ret. cbn [default from_option]. rewrite Hi. reflexivity.
Qed.

End Batch.


(** ** The integrity check *)

(** What holds of the first state of a loop, and is kept by every turn
    that returns, holds of the result. *)
Lemma for_each_invariant {A S} (Inv : S -> Prop) (body : S -> A -> M S) :
  (forall s x w s' w', Inv s -> body s x w = (Ok s', w') -> Inv s') ->
  forall l s w s' w',
    Inv s -> for_each body l s w = (Ok s', w') -> Inv s'.
Proof.
  intros Hb l. induction l as [|x l IH]; intros s w s' w' Hs; cbn [for_each].
  - unfold ret. now intros [= <- <-].
  - unfold bind. destruct (body s x w) as [[s1|e] w1] eqn:E; [|discriminate].
    apply IH. eapply Hb; eassumption.
Qed.

Section IntegrityCheck.

Context `{Collaborators}.

Lemma repair_backlink_counted vaultPath v backlink w v' w' :
  counted v -> repair_backlink vaultPath v backlink w = (Ok v', w') -> counted v'.
Proof.
  intros [Hr Ha]. unfold repair_backlink, try_catch, bind.
  destruct (Fs.readFile _ w) as [[content|e] w0].
  - destruct (links backlink) as [|l ls] eqn:El; cbn [length Nat.eqb negb].
    + unfold ret. intros [= <- <-]. split; cbn; lia.
    + destruct (Fs.writeFile _ _ w0) as [[[]|e] w1]; unfold ret, console_error;
        intros [= <- <-]; split; cbn; lia.
  - unfold ret, console_error. intros [= <- <-]. now split.
Qed.

Lemma check_target_counted vaultPath v entry w v' w' :
  counted v -> check_target vaultPath v entry w = (Ok v', w') -> counted v'.
Proof.
  intros Hv. unfold check_target, bind, Fs.exists_.
  destruct (negb _).
  - apply (for_each_invariant counted); [|assumption].
    intros s x w0 s' w0'. apply repair_backlink_counted.
  - unfold ret. now intros [= <- <-].
Qed.

(** X16: the integrity check counts every broken link as repaired, whether or
    not the file could be written: in the result, [repairedLinks] equals
    [brokenLinks], and [affectedFiles] does not exceed them. *)
Theorem validateVaultLinks_counts_every_break_as_repair (vaultPath : str) (w : world) :
  match fst (validateVaultLinks vaultPath w) with
  | Ok v => repairedLinks v = brokenLinks v /\ affectedFiles v <= brokenLinks v
  | Throw _ => True
  end.
Proof.
  unfold validateVaultLinks, guarded, try_catch, bind, validate.
  destruct (validateVaultPath vaultPath []) as [e|]; [exact I|]. unfold ret at 1.
  destruct (getOrUpdateLinkMap vaultPath true w) as [[m|e] w1]; [|exact I].
  destruct (for_each _ _ _ w1) as [[v|e] w2] eqn:E; [|exact I]. cbn [fst].
  assert (H0 : counted (mkValidation 0 0 0)) by (split; cbn; lia).
  exact (for_each_invariant counted _
           (fun s x w0 s' w0' => check_target_counted vaultPath s x w0 s' w0')
           _ _ _ _ _ H0 E).
Qed.

Lemma createWikiLinkMap_files vaultPath w r w' :
  createWikiLinkMap vaultPath w = (r, w') -> files w' = files w.
Proof.
  destruct (getAllMarkdownFiles vaultPath w) as [fs|e] eqn:Hfs.
  - destruct (createWikiLinkMap_log vaultPath fs w Hfs) as (m & log & ->).
    now intros [= <- <-].
  - rewrite (createWikiLinkMap_throw vaultPath e w Hfs). now intros [= <- <-].
Qed.

Lemma in_insert_by_index {V} (e x : str * V) l :
  x ∈ Obj.insert_by_index e l -> x = e \/ x ∈ l.
Proof.
  induction l as [|e' l IH]; cbn [Obj.insert_by_index].
  - intros Hx. apply list_elem_of_singleton in Hx. now left.
  - destruct (_ <? _)%N.
    + intros Hx. apply elem_of_cons in Hx as [->|Hx]; [now left|now right].
    + intros Hx. apply elem_of_cons in Hx as [->|Hx]; [right; left|].
      destruct (IH Hx) as [->|Hx']; [now left|right; now right].
Qed.

Lemma in_entries {V} (x : str * V) (o : list (str * V)) :
  x ∈ Obj.entries o -> x ∈ o.
Proof.
  unfold Obj.entries. intros Hx. apply elem_of_app in Hx as [Hx|Hx].
  - assert (Hgen : forall l, x ∈ foldr Obj.insert_by_index [] l -> x ∈ l).
    { induction l as [|e l IH]; cbn [foldr]; [easy|].
      intros Hin. apply in_insert_by_index in Hin as [->|Hin]; [left|right; auto]. }
    apply Hgen in Hx. apply list_elem_of_In in Hx. apply List.filter_In in Hx as [Hx _].
    now apply list_elem_of_In.
  - apply list_elem_of_In in Hx. apply List.filter_In in Hx as [Hx _].
    now apply list_elem_of_In.
Qed.

(** X17: a vault in which every linked name has its file at the root is found
    intact: the three counts are zero and no file is touched. *)
Theorem validateVaultLinks_leaves_an_intact_vault
  (vaultPath : str) (w w1 : world) (m : WikiLinkMap) :
  validateVaultPath vaultPath [] = None ->
  getOrUpdateLinkMap vaultPath true w = (Ok m, w1) ->
  Forall (fun entry =>
            is_Some (files w !! Path.join vaultPath (fst entry ++ ".md"))) m ->
  validateVaultLinks vaultPath w = (Ok (mkValidation 0 0 0), w1)
  /\ files w1 = files w.
Proof.
  intros Hv Hm Hall.
  assert (Hf : files w1 = files w).
  { rewrite forced_refresh in Hm.
    destruct (createWikiLinkMap vaultPath w) as [[m0|e] w0] eqn:E; [|discriminate].
    injection Hm as _ <-. cbn [files with_cache].
    eapply createWikiLinkMap_files; eassumption. }
  split; [|exact Hf].
  unfold validateVaultLinks, guarded, try_catch, bind, validate.
  rewrite Hv. unfold ret at 1. rewrite Hm.
  assert (Hloop : forall l v,
    Forall (fun entry =>
              is_Some (files w !! Path.join vaultPath (fst entry ++ ".md"))) l ->
    for_each (check_target vaultPath) l v w1 = (Ok v, w1)).
  { induction l as [|x l IH]; intros v Hl; cbn [for_each]; [reflexivity|].
    apply Forall_cons in Hl as [Hx Hl]. unfold bind.
    unfold check_target at 1. unfold bind, Fs.exists_. rewrite Hf.
    rewrite bool_decide_eq_true_2 by assumption. cbn [negb]. unfold ret at 1.
    now apply IH. }
  rewrite Hloop; [reflexivity|].
  apply Forall_forall. intros x Hx. rewrite Forall_forall in Hall.
  apply Hall. now apply in_entries.
Qed.

(** X18: when the enumeration of the files fails, the integrity check and the
    batch pass on the error of the index builder, labelled as its own
    ("Failed to create wikilink map"), and leave the world as it was. *)
Theorem index_failure_stops_check_and_batch
  (vaultPath : str) (updates : list Update) (w : world) (e : exn) :
  validateVaultPath vaultPath [] = None ->
  getAllMarkdownFiles vaultPath w = Throw e ->
  validateVaultLinks vaultPath w
  = (Throw (rethrow "Failed to create wikilink map" e), w)
  /\ batchUpdateLinks vaultPath updates w
     = (Throw (rethrow "Failed to create wikilink map" e), w).
Proof.
  intros Hv He.
  unfold validateVaultLinks, batchUpdateLinks, guarded, try_catch, bind, validate.
  rewrite Hv. unfold ret. rewrite forced_refresh.
  rewrite (createWikiLinkMap_throw vaultPath e w He). unfold throw.
  now destruct e.
Qed.

End IntegrityCheck.


(** ** The dictionary *)

Lemma str_eqb_eq (a b : str) : Str.eqb a b = true <-> a = b.
Proof. unfold Str.eqb. apply bool_decide_eq_true. Qed.

Lemma str_eqb_neq (a b : str) : Str.eqb a b = false <-> a <> b.
Proof. unfold Str.eqb. apply bool_decide_eq_false. Qed.

Lemma obj_get_set {V} (k K : str) (v : V) (o : list (str * V)) :
  Obj.get K (Obj.set k v o) = if Str.eqb k K then Some v else Obj.get K o.
Proof.
  unfold Obj.get. induction o as [|[k' v'] o IH]; cbn [Obj.set List.find fst snd].
  - destruct (Str.eqb k K); reflexivity.
  - destruct (Str.eqb k' k) eqn:E; cbn [List.find fst snd].
    + apply str_eqb_eq in E as ->. destruct (Str.eqb k K); reflexivity.
    + destruct (Str.eqb k' K) eqn:E'; [|exact IH].
      apply str_eqb_eq in E' as ->.
      apply str_eqb_neq in E. destruct (Str.eqb k K) eqn:E''; [|reflexivity].
      apply str_eqb_eq in E''. congruence.
Qed.

(** ** Counting links *)

Lemma count_links_from (bls : list Backlink) : forall n,
  fold_left (fun sum bl => sum + length (links bl)) bls n
  = n + count_links bls.
Proof.
  unfold count_links. induction bls as [|bl bls IH]; intros n; cbn [fold_left]; [lia|].
  rewrite IH, (IH (0 + _)). lia.
Qed.

Lemma count_links_cons bl bls :
  count_links (bl :: bls) = length (links bl) + count_links bls.
Proof. unfold count_links at 1. cbn [fold_left]. now rewrite count_links_from. Qed.

Lemma count_links_app (a b : list Backlink) :
  count_links (a ++ b) = count_links a + count_links b.
Proof.
  induction a as [|bl a IH]; [reflexivity|].
  cbn [app]. rewrite !count_links_cons, IH. lia.
Qed.

Lemma find_index_lt {A} (p : A -> bool) (l : list A) i :
  find_index p l = Some i -> i < length l.
Proof.
  revert i. induction l as [|x l IH]; intros i; cbn [find_index]; [discriminate|].
  destruct (p x); [intros [= <-]; cbn; lia|].
  destruct (find_index p l) as [j|]; [|discriminate].
  intros [= <-]. specialize (IH j eq_refl). cbn. lia.
Qed.

Lemma count_links_alter link (bls : list Backlink) i :
  i < length bls ->
  count_links (alter (push_link link) i bls) = count_links bls + 1.
Proof.
  revert i. induction bls as [|bl bls IH]; intros i Hi; [cbn in Hi; lia|].
  destruct i as [|i].
  - cbn [alter list_alter]. rewrite !count_links_cons. cbn [push_link links].
    rewrite length_app. cbn. lia.
  - change (alter (push_link link) (S i) (bl :: bls))
      with (bl :: alter (push_link link) i bls).
    rewrite !count_links_cons, IH by (cbn in Hi; lia). lia.
Qed.

Section Counting.

Context `{Collaborators}.

Lemma add_link_links_to K vaultPath file m link m' :
  add_link vaultPath file m link = Some m' ->
  links_to K m'
  = links_to K m
    + (if Str.eqb (Path.basename (target link) ".md") K then 1 else 0).
Proof.
  unfold add_link. set (tn := Path.basename (target link) ".md"). cbv zeta.
  destruct (Obj.is_inherited tn); [discriminate|].
  intros [= <-]. unfold links_to. rewrite obj_get_set.
  destruct (Str.eqb tn K) eqn:E; [|lia].
  apply str_eqb_eq in E. rewrite E. unfold default. cbn [from_option]. unfold id.
  destruct (find_index _ _) as [i|] eqn:Ei.
  - apply find_index_lt in Ei. now rewrite count_links_alter.
  - rewrite count_links_app. cbn. lia.
Qed.

Lemma add_links_links_to K vaultPath file ls : forall m,
  ordinary_targets ls ->
  exists m',
    add_links vaultPath file m ls = (m', None)
    /\ links_to K m' = links_to K m + length (relevantLinks K ls).
Proof.
  induction ls as [|l ls IH]; intros m Hord; cbn [add_links].
  - exists m. split; [reflexivity|]. cbn. lia.
  - apply Forall_cons in Hord as [Hl Hord].
    destruct (add_link vaultPath file m l) as [m1|] eqn:E.
    2:{ unfold add_link in E. rewrite Hl in E. discriminate. }
    destruct (IH m1 Hord) as (m' & -> & Hc). exists m'. split; [reflexivity|].
    rewrite Hc, (add_link_links_to K _ _ _ _ _ E).
    unfold relevantLinks. cbn [List.filter].
    destruct (Str.eqb _ K); cbn [length]; lia.
Qed.

Lemma index_file_links_to K vaultPath m file w :
  ordinary_targets (links_of w file) ->
  exists m' log,
    index_file vaultPath m file w = (Ok m', with_log log w)
    /\ links_to K m' = links_to K m + length (relevantLinks K (links_of w file)).
Proof.
  unfold links_of, index_file, Fs.readFile.
  case_bool_decide.
  - intros _. eexists m, [_]. split; [reflexivity|]. cbn. lia.
  - destruct (files w !! file) as [content|].
    + intros Hord.
      destruct (add_links_links_to K vaultPath file (findWikiLinks content file) m Hord)
        as (m' & -> & Hc).
      exists m', []. now rewrite with_log_nil.
    + intros _. eexists m, [_]. split; [reflexivity|]. cbn. lia.
Qed.

Lemma index_files_links_to K vaultPath fs : forall m w,
  Forall (fun f => ordinary_targets (links_of w f)) fs ->
  exists m' log,
    for_each (index_file vaultPath) fs m w = (Ok m', with_log log w)
    /\ links_to K m'
       = links_to K m
         + length (relevantLinks K (concat (map (links_of w) fs))).
Proof.
  induction fs as [|f fs IH]; intros m w Hord; cbn [for_each].
  - exists m, []. rewrite with_log_nil. split; [reflexivity|]. cbn. lia.
  - apply Forall_cons in Hord as [Hf Hord]. unfold bind.
    destruct (index_file_links_to K vaultPath m f w Hf) as (m1 & l1 & -> & H1).
    destruct (IH m1 (with_log l1 w) Hord) as (m2 & l2 & -> & H2).
    exists m2, (l1 ++ l2). rewrite with_log_log. split; [reflexivity|].
    change (links_of (with_log l1 w)) with (links_of w) in H2.
    rewrite H2, H1. cbn [map concat]. unfold relevantLinks.
    rewrite List.filter_app, length_app. lia.
Qed.

End Counting.


Section Backlinks.

Context `{Collaborators}.

Variables (vaultPath targetPath : str).

Let K := Path.basename targetPath ".md".

Lemma backlinks_in_step bls file w :
  exists log,
    backlinks_in vaultPath targetPath K bls file w
    = (Ok (bls ++ if links_back targetPath w file
                  then [backlink_from vaultPath targetPath w file] else []),
       with_log log w).
Proof.
  unfold backlinks_in, links_back, backlink_from. fold K.
  destruct (Str.eqb file targetPath) eqn:E; cbn [negb andb].
  - exists []. now rewrite app_nil_r, with_log_nil.
  - unfold try_catch, bind, links_of, Fs.readFile. case_bool_decide as Hr.
    + eexists [_]. now rewrite app_nil_r.
    + destruct (files w !! file) as [content|] eqn:Ef.
      * destruct (relevantLinks K (findWikiLinks content file)) as [|l ls] eqn:Erel.
        -- exists []. now rewrite app_nil_r, with_log_nil.
        -- exists []. now rewrite with_log_nil.
      * eexists [_]. now rewrite app_nil_r.
Qed.

Lemma backlinks_in_walk fs : forall bls w,
  exists log,
    for_each (backlinks_in vaultPath targetPath K) fs bls w
    = (Ok (bls ++ map (backlink_from vaultPath targetPath w)
                      (List.filter (links_back targetPath w) fs)),
       with_log log w).
Proof.
  induction fs as [|f fs IH]; intros bls w; cbn [for_each].
  - exists []. now rewrite app_nil_r, with_log_nil.
  - unfold bind. destruct (backlinks_in_step bls f w) as (l1 & ->).
    destruct (IH (bls ++ (if links_back targetPath w f
                          then [backlink_from vaultPath targetPath w f] else []))
                 (with_log l1 w)) as (l2 & ->).
    exists (l1 ++ l2). rewrite with_log_log, <- app_assoc.
    change (links_back targetPath (with_log l1 w)) with (links_back targetPath w).
    change (backlink_from vaultPath targetPath (with_log l1 w))
      with (backlink_from vaultPath targetPath w).
    cbn [List.filter]. now destruct (links_back targetPath w f).
Qed.

Lemma findBacklinks_walk fs w :
  validateVaultPath vaultPath targetPath = None ->
  getAllMarkdownFiles vaultPath w = Ok fs ->
  exists log,
    findBacklinks vaultPath targetPath w
    = (Ok (map (backlink_from vaultPath targetPath w)
               (List.filter (links_back targetPath w) fs)),
       with_log log w).
Proof.
  intros Hv Hfs. unfold findBacklinks, guarded, try_catch, bind, validate, enumerate.
  rewrite Hv. unfold ret at 1. rewrite Hfs. fold K.
  destruct (backlinks_in_walk fs [] w) as (log & ->). now exists log.
Qed.

Lemma count_backlinks fs w :
  count_links (map (backlink_from vaultPath targetPath w)
                   (List.filter (links_back targetPath w) fs))
  = length (relevantLinks K
              (concat (map (links_of w)
                         (List.filter (fun f => negb (Str.eqb f targetPath)) fs)))).
Proof.
  induction fs as [|f fs IH]; [reflexivity|]. cbn [List.filter].
  unfold links_back at 1. fold K.
  destruct (Str.eqb f targetPath); cbn [negb andb]; [exact IH|].
  cbn [map concat]. unfold relevantLinks at 2. rewrite List.filter_app, length_app.
  fold (relevantLinks K (links_of w f)).
  fold (relevantLinks K (concat (map (links_of w)
          (List.filter (fun f => negb (Str.eqb f targetPath)) fs)))).
  rewrite <- IH.
  destruct (relevantLinks K (links_of w f)) as [|l ls] eqn:E; cbn [length Nat.ltb Nat.leb].
  - reflexivity.
  - cbn [map]. rewrite count_links_cons. unfold backlink_from at 1. cbn [links].
    fold K. now rewrite E.
Qed.

Lemma without_the_target (g : str -> list WikiLink) (fs : list str) :
  NoDup fs ->
  length (relevantLinks K (concat (map g fs)))
  = length (relevantLinks K
              (concat (map g (List.filter (fun f => negb (Str.eqb f targetPath)) fs))))
    + (if bool_decide (targetPath ∈ fs) then length (relevantLinks K (g targetPath))
       else 0).
Proof.
  induction 1 as [|f fs Hf Hnd IH]; [reflexivity|].
  cbn [map concat List.filter]. unfold relevantLinks in *.
  rewrite List.filter_app, length_app, IH.
  destruct (Str.eqb f targetPath) eqn:E; cbn [negb].
  - apply str_eqb_eq in E. subst f.
    rewrite (bool_decide_eq_true_2 (targetPath ∈ targetPath :: fs)) by left.
    rewrite (bool_decide_eq_false_2 (targetPath ∈ fs)) by assumption. lia.
  - apply str_eqb_neq in E. cbn [map concat]. rewrite List.filter_app, length_app.
    assert (Hin : bool_decide (targetPath ∈ f :: fs) = bool_decide (targetPath ∈ fs)).
    { apply bool_decide_ext. rewrite elem_of_cons. intuition congruence. }
    rewrite Hin. lia.
Qed.

(** X19: [findBacklinks], once the path is accepted and the files are
    enumerated, cannot fail and changes nothing but the console: it
    returns, in the order of the enumeration, one entry for every file
    other than the target that holds a link to the target's base name, with
    exactly those links and the file's path relative to the vault.  A file
    that cannot be read has no entry. *)
Theorem findBacklinks_lists_the_linking_files (fs : list str) (w : world) :
  validateVaultPath vaultPath targetPath = None ->
  getAllMarkdownFiles vaultPath w = Ok fs ->
  exists log,
    findBacklinks vaultPath targetPath w
    = (Ok (map (backlink_from vaultPath targetPath w)
               (List.filter (links_back targetPath w) fs)),
       with_log log w).
Proof. apply findBacklinks_walk. Qed.

(** X20: the index and [findBacklinks] count the same links to a note, up to
    the links the note holds to itself: [findBacklinks] passes the target
    file over, the index does not.  (No link points to a name that a
    dictionary inherits, and each file is enumerated once.) *)
Theorem index_agrees_with_findBacklinks (fs : list str) (w : world) :
  validateVaultPath vaultPath targetPath = None ->
  getAllMarkdownFiles vaultPath w = Ok fs ->
  NoDup fs ->
  Forall (fun f => ordinary_targets (links_of w f)) fs ->
  exists bls m,
    fst (findBacklinks vaultPath targetPath w) = Ok bls
    /\ fst (createWikiLinkMap vaultPath w) = Ok m
    /\ links_to (Path.basename targetPath ".md") m
       = count_links bls
         + (if bool_decide (targetPath ∈ fs)
            then length (relevantLinks (Path.basename targetPath ".md")
                           (links_of w targetPath))
            else 0).
Proof.
  intros Hv Hfs Hnd Hord.
  destruct (findBacklinks_walk fs w Hv Hfs) as (log & Hb).
  destruct (index_files_links_to K vaultPath fs [] w Hord) as (m & log' & Hm & Hc).
  eexists _, m. rewrite Hb. split; [reflexivity|]. split.
  - unfold createWikiLinkMap, guarded, try_catch, bind, enumerate.
    now rewrite Hfs, Hm.
  - fold K. rewrite Hc, count_backlinks, (without_the_target (links_of w) fs Hnd).
    reflexivity.
Qed.

End Backlinks.


(** ** Relative paths *)

Lemma split_no_sep sep s :
  Forall (fun seg => Str.starts_with [sep] seg = false) (Str.split sep s).
Proof.
  induction s as [|c s IH]; cbn [Str.split].
  - constructor; [reflexivity|constructor].
  - destruct (Ascii.eqb c sep) eqn:E.
    + constructor; [reflexivity|exact IH].
    + destruct (Str.split sep s) as [|h t]; [constructor; [|constructor]|].
      * cbn. now rewrite E.
      * apply Forall_cons in IH as [_ IH]. constructor; [|exact IH].
        cbn. now rewrite E.
Qed.

Lemma normalize_segments_proper allow segs : forall acc,
  Forall (fun seg => Str.starts_with "/" seg = false) segs ->
  Forall proper_segment acc ->
  Forall proper_segment (Path.normalize_segments allow segs acc).
Proof.
  induction segs as [|seg segs IH]; intros acc Hs Ha; cbn [Path.normalize_segments].
  - now apply Forall_rev.
  - apply Forall_cons in Hs as [Hseg Hs].
    destruct (Str.eqb seg [] || Str.eqb seg ".") eqn:E1; [now apply IH|].
    apply orb_false_elim in E1 as [E0 _]. apply str_eqb_neq in E0.
    assert (Hp : proper_segment seg) by now split.
    destruct (Str.eqb seg "..").
    + destruct acc as [|last acc'].
      * destruct allow; apply IH; try assumption; now repeat constructor.
      * destruct (Str.eqb last "..").
        -- apply IH; [assumption|]. now constructor.
        -- apply IH; [assumption|]. now apply Forall_cons in Ha as [_ Ha].
    + apply IH; [assumption|]. now constructor.
Qed.

Lemma strip_common_proper (a b : list str) :
  Forall proper_segment a -> Forall proper_segment b ->
  Forall proper_segment (fst (Path.strip_common a b))
  /\ Forall proper_segment (snd (Path.strip_common a b)).
Proof.
  revert b. induction a as [|x a IH]; intros b Ha Hb; cbn [Path.strip_common].
  - now split.
  - destruct b as [|y b]; [now split|].
    destruct (Str.eqb x y); [|now split].
    apply Forall_cons in Ha as [_ Ha]. apply Forall_cons in Hb as [_ Hb].
    now apply IH.
Qed.

Lemma join_proper (l : list str) :
  Forall proper_segment l -> Str.starts_with "/" (Str.join "/" l) = false.
Proof.
  destruct l as [|x l]; [reflexivity|]. intros Hl.
  apply Forall_cons in Hl as [[Hx0 Hx] _]. cbn [Str.join].
  destruct l; [exact Hx|]. destruct x as [|c x]; [congruence|]. exact Hx.
Qed.

(** [path.relative] never yields an absolute path. *)
Lemma relative_not_absolute (from to : str) :
  Path.is_absolute (Path.relative from to) = false.
Proof.
  unfold Path.is_absolute, Path.relative.
  assert (Hsegs : forall p,
    Forall proper_segment (Path.normalize_segments false (Str.split Path.sep p) [])).
  { intros p. apply normalize_segments_proper; [apply split_no_sep|constructor]. }
  destruct (strip_common_proper _ _ (Hsegs from) (Hsegs to)) as [Hup Hdown].
  destruct (Path.strip_common _ _) as [up down]. cbn [fst snd] in *.
  apply join_proper. apply Forall_app_2; [|exact Hdown].
  clear. induction up; cbn; constructor; [now split|assumption].
Qed.


(** ** One entry per link *)

Lemma obj_set_Forall {V} (P : str * V -> Prop) k v (o : list (str * V)) :
  Forall P o -> P (k, v) -> Forall P (Obj.set k v o).
Proof.
  intros Ho Hv. induction Ho as [|[k' v'] o Hx Ho IH]; cbn [Obj.set].
  - now repeat constructor.
  - destruct (Str.eqb k' k); constructor; assumption.
Qed.

Lemma obj_get_Forall {V} (P : str * V -> Prop) k (o : list (str * V)) v :
  Forall P o -> Obj.get k o = Some v -> exists k', P (k', v).
Proof.
  unfold Obj.get. intros Ho. induction Ho as [|[k' v'] o Hx Ho IH]; cbn [List.find fst snd].
  - discriminate.
  - destruct (Str.eqb k' k); [|exact IH]. cbn. intros [= <-]. eauto.
Qed.

Lemma find_index_none {A} (p : A -> bool) (l : list A) :
  Forall (fun x => p x = false) l -> find_index p l = None.
Proof.
  induction 1 as [|x l Hx _ IH]; cbn [find_index]; [reflexivity|].
  now rewrite Hx, IH.
Qed.

Section OneEntryPerLink.

Context `{Collaborators}.

Lemma add_link_ungrouped vaultPath file m link m' :
  Path.is_absolute file = true -> ungrouped m ->
  add_link vaultPath file m link = Some m' -> ungrouped m'.
Proof.
  intros Hf Hm. unfold add_link.
  set (tn := Path.basename (target link) ".md"). cbv zeta.
  destruct (Obj.is_inherited tn); [discriminate|]. intros [= <-].
  assert (Hold : Forall lone_link (default [] (Obj.get tn m))).
  { destruct (Obj.get tn m) as [bls|] eqn:E; [|constructor].
    destruct (obj_get_Forall _ _ _ _ Hm E) as [k' Hk]. exact Hk. }
  rewrite find_index_none.
  2:{ eapply Forall_impl; [exact Hold|]. intros bl [Hb _]. apply str_eqb_neq.
      intros Heq. congruence. }
  apply obj_set_Forall; [exact Hm|]. cbn [snd].
  apply Forall_app_2; [exact Hold|]. constructor; [|constructor].
  split; [apply relative_not_absolute|reflexivity].
Qed.

Lemma add_links_ungrouped vaultPath file ls : forall m,
  Path.is_absolute file = true -> ungrouped m ->
  ungrouped (fst (add_links vaultPath file m ls)).
Proof.
  induction ls as [|l ls IH]; intros m Hf Hm; cbn [add_links]; [exact Hm|].
  destruct (add_link vaultPath file m l) as [m1|] eqn:E; [|exact Hm].
  apply IH; [assumption|]. eapply add_link_ungrouped; eassumption.
Qed.

Lemma index_file_ungrouped vaultPath m file w m' w' :
  Path.is_absolute file = true -> ungrouped m ->
  index_file vaultPath m file w = (Ok m', w') -> ungrouped m'.
Proof.
  intros Hf Hm. unfold index_file.
  destruct (Fs.readFile file w) as [[content|e] w0].
  - pose proof (add_links_ungrouped vaultPath file (findWikiLinks content file) m Hf Hm) as Hu.
    destruct (add_links _ _ _ _) as [m1 [e|]]; intros [= <- <-]; exact Hu.
  - now intros [= <- <-].
Qed.

Lemma index_files_ungrouped vaultPath fs : forall m w m' w',
  Forall (fun f => Path.is_absolute f = true) fs -> ungrouped m ->
  for_each (index_file vaultPath) fs m w = (Ok m', w') -> ungrouped m'.
Proof.
  induction fs as [|f fs IH]; intros m w m' w' Hfs Hm; cbn [for_each].
  - unfold ret. now intros [= <- <-].
  - apply Forall_cons in Hfs as [Hf Hfs]. unfold bind.
    destruct (index_file vaultPath m f w) as [[m1|e] w1] eqn:E; [|discriminate].
    apply IH; [assumption|]. eapply index_file_ungrouped; eassumption.
Qed.

(** X21: the index never groups the links of a source file.  The loop looks for
    the entry of the file under its absolute path and stores a new entry
    under the path relative to the vault, so the search never succeeds:
    when the enumerated paths are absolute, every entry of the index holds
    exactly one link, and a file with several links to a note has as many
    entries under that note. *)
Theorem createWikiLinkMap_makes_one_entry_per_link
  (vaultPath : str) (fs : list str) (w : world) :
  getAllMarkdownFiles vaultPath w = Ok fs ->
  Forall (fun f => Path.is_absolute f = true) fs ->
  exists m log,
    createWikiLinkMap vaultPath w = (Ok m, with_log log w)
    /\ Forall (fun entry =>
                 Forall (fun bl => length (links bl) = 1) (snd entry)
                 /\ count_links (snd entry) = length (snd entry)) m.
Proof.
  intros Hfs Habs. destruct (createWikiLinkMap_log vaultPath fs w Hfs) as (m & log & Hm).
  exists m, log. split; [exact Hm|].
  assert (Hu : ungrouped m).
  { unfold createWikiLinkMap, guarded, try_catch, bind, enumerate in Hm.
    rewrite Hfs in Hm.
    destruct (for_each (index_file vaultPath) fs [] w) as [[m0|e] w0] eqn:E;
      [|discriminate].
    injection Hm as <- _.
    eapply index_files_ungrouped; [exact Habs| |exact E]. constructor. }
  eapply Forall_impl; [exact Hu|]. intros [k bls] Hb. cbn [snd] in *. split.
  - eapply Forall_impl; [exact Hb|]. now intros bl [_ Hl].
  - induction Hb as [|bl bls [_ Hl] _ IH]; [reflexivity|].
    rewrite count_links_cons, Hl, IH. reflexivity.
Qed.

End OneEntryPerLink.


(** ** Base names *)

Lemma last_segment_behind (dir T : str) :
  T <> [] -> avoids "/" T = true ->
  Path.last_segment (dir ++ "/" ++ T) = T /\ Path.last_segment T = T.
Proof.
  intros HT Hs.
  assert (Hrev : exists c r, rev T = c :: r /\ Ascii.eqb c Path.sep = false).
  { destruct (rev T) as [|c r] eqn:E.
    - apply (f_equal (@rev ascii)) in E. rewrite rev_involutive in E. now subst T.
    - exists c, r. split; [reflexivity|].
      assert (Hc : c ∈ T).
      { apply list_elem_of_In, in_rev. rewrite E. now left. }
      unfold avoids in Hs. rewrite forallb_forall in Hs.
      apply list_elem_of_In in Hc. specialize (Hs c Hc). cbn in Hs.
      unfold Path.sep. now destruct (Ascii.eqb c "/"). }
  destruct Hrev as (c & r & Hr & Hc).
  assert (Hall : Forall (fun x => negb (Ascii.eqb x Path.sep) = true) (rev T)).
  { apply Forall_forall. intros x Hx. apply list_elem_of_In, in_rev in Hx.
    unfold avoids in Hs. rewrite forallb_forall in Hs. specialize (Hs x Hx).
    cbn in Hs. unfold Path.sep. now destruct (Ascii.eqb x "/"). }
  assert (Hstrip : forall rest, Path.strip_trailing_rev (rev T ++ rest) = rev T ++ rest).
  { intros rest. rewrite Hr. cbn [app Path.strip_trailing_rev]. now rewrite Hc. }
  unfold Path.last_segment. split.
  - replace (rev (dir ++ "/" ++ T)) with (rev T ++ "/"%char :: rev dir).
    2:{ rewrite !rev_app_distr. cbn [rev app]. now rewrite <- app_assoc. }
    rewrite Hstrip.
    rewrite span_app; [cbn [fst]; apply rev_involutive|exact Hall|reflexivity].
  - rewrite <- (app_nil_r (rev T)), Hstrip.
    rewrite span_app; [cbn [fst]; apply rev_involutive|exact Hall|exact I].
Qed.

Lemma basename_behind (dir T : str) :
  T <> [] -> avoids "/" T = true -> Str.ends_with ".md" T = false ->
  Path.basename (dir ++ "/" ++ T ++ ".md") ".md" = T
  /\ Path.basename T ".md" = T.
Proof.
  intros HT Hs He.
  assert (HT' : T ++ ".md" <> []) by now destruct T.
  assert (Hs' : avoids "/" (T ++ ".md") = true) by now rewrite avoids_app, Hs.
  destruct (last_segment_behind dir (T ++ ".md") HT' Hs') as [Hl _].
  destruct (last_segment_behind dir T HT Hs) as [_ Hl'].
  unfold Path.basename. split.
  - rewrite Hl.
    assert (Hne : Str.eqb (dir ++ "/" ++ T ++ ".md") ".md" = false).
    { apply str_eqb_neq. intros Heq. apply (f_equal (@length ascii)) in Heq.
      rewrite !length_app in Heq. cbn in Heq. destruct T; [congruence|cbn in Heq; lia]. }
    rewrite Hne.
    assert (Hend : Str.ends_with ".md" (T ++ ".md") = true).
    { unfold Str.ends_with. rewrite rev_app_distr. apply starts_with_app. }
    assert (Hne' : Str.eqb (T ++ ".md") ".md" = false).
    { apply str_eqb_neq. intros Heq. apply (f_equal (@length ascii)) in Heq.
      rewrite length_app in Heq. cbn in Heq. destruct T; [congruence|cbn in Heq; lia]. }
    rewrite Hend, Hne'. cbn [negb andb]. rewrite length_app.
    replace (length T + length (".md" : str) - length (".md" : str)) with (length T) by lia.
    now rewrite take_app_length.
  - rewrite Hl', He. cbn [andb].
    destruct (Str.eqb T ".md") eqn:E; [|reflexivity].
    apply str_eqb_eq in E. subst T. discriminate.
Qed.

Section Targets.

Context `{Collaborators}.

(** X22: a link target is looked up under its base name at the root of the
    vault: the folder in front of the name and the extension behind it
    play no part, so [folder/Name.md] is answered as [Name] is. *)
Theorem validateWikiLinkTarget_goes_by_the_base_name
  (vaultPath dir T : str) (w : world) :
  T <> [] -> avoids "/" T = true -> Str.ends_with ".md" T = false ->
  validateWikiLinkTarget vaultPath (dir ++ "/" ++ T ++ ".md") w
  = validateWikiLinkTarget vaultPath T w
  /\ validateWikiLinkTarget vaultPath T w
     = match validateVaultPath vaultPath (Path.join vaultPath (T ++ ".md")) with
       | Some e => (Throw (rethrow "Failed to validate wikilink target" e), w)
       | None =>
           (Ok (bool_decide (is_Some (files w !! Path.join vaultPath (T ++ ".md")))), w)
       end.
Proof.
  intros HT Hs He. destruct (basename_behind dir T HT Hs He) as [Hb Hb'].
  unfold validateWikiLinkTarget. rewrite Hb, Hb'. split; [reflexivity|].
  unfold guarded, try_catch, bind, validate.
  destruct (validateVaultPath vaultPath _) as [e|]; reflexivity.
Qed.

End Targets.

(** ** The warning of the integrity check *)

Lemma expand_plain (t m b a : str) : avoids "$" t = true -> expand t m b a = t.
Proof.
  induction t as [|c t IH]; intros Ht; [reflexivity|].
  rewrite avoids_cons in Ht. apply andb_true_iff in Ht as [Hc Ht].
  assert (Hd : Ascii.eqb c "$" = false) by (cbn in Hc; now destruct (Ascii.eqb c "$")).
  cbn [expand].
  destruct c as [[] [] [] [] [] [] [] []]; try discriminate Hd; now rewrite IH.
Qed.

Lemma find_first_split (p s u v : str) :
  Str.find_first p s = Some (u, v) -> s = u ++ p ++ v.
Proof.
  revert u v. induction s as [|c s IH]; intros u v; cbn [Str.find_first].
  - destruct (Str.starts_with p []) eqn:E; [|discriminate].
    intros [= <- <-]. destruct p; [reflexivity|discriminate].
  - destruct (Str.starts_with p (c :: s)) eqn:E.
    + intros [= <- <-]. cbn [app]. now apply starts_with_drop.
    + destruct (Str.find_first p s) as [[a b]|]; [|discriminate].
      intros [= <- <-]. cbn [app]. f_equal. now apply IH.
Qed.

(** X23: the warning is put right behind the first occurrence of the link's
    text in the document, wherever the link itself stands, and nothing
    else changes.  (The text holds no [$]: in the second argument of
    [String.prototype.replace] a dollar sign is a pattern of its own.) *)
Theorem annotate_marks_the_first_occurrence
  (content before after : str) (link : WikiLink) :
  Str.find_first (text link) content = Some (before, after) ->
  avoids "$" (text link) = true ->
  content = before ++ text link ++ after
  /\ annotate content link = before ++ text link ++ broken_warning ++ after.
Proof.
  intros Hf Hd. split; [now apply find_first_split|].
  unfold annotate, replace_first. rewrite Hf.
  rewrite expand_plain; [now rewrite <- app_assoc|].
  rewrite avoids_app, Hd. reflexivity.
Qed.

Lemma annotate_marks_the_first_occurrence_witness :
  ("- [[M#a]]" ++ [newline] ++ "- again [[M#a]]" : str)
  = "- " ++ "[[M#a]]" ++ ([newline] ++ "- again [[M#a]]")
  /\ annotate ("- [[M#a]]" ++ [newline] ++ "- again [[M#a]]")
       (mkWikiLink "[[M#a]]" "M" None 2 "- again [[M#a]]" true (Some ("a" : str)))
     = "- " ++ "[[M#a]]" ++ broken_warning ++ ([newline] ++ "- again [[M#a]]").
Proof.
  apply (annotate_marks_the_first_occurrence
           ("- [[M#a]]" ++ [newline] ++ "- again [[M#a]]") "- "
           ([newline] ++ "- again [[M#a]]")
           (mkWikiLink "[[M#a]]" "M" None 2 "- again [[M#a]]" true (Some ("a" : str))));
    reflexivity.
Defined.


Section Callers.

Context `{Collaborators}.

(** The text a file holds after [updateVaultLinks], for one enumerated
    file that the loop can rewrite. *)
Lemma rewritten_file
  (vaultPath : str) (oldPath newPath : nullable) (src dst : option str)
  (fs : list str) (w : world) (p content : str) :
  validateVaultPath vaultPath
    (or_else (to_option oldPath) (or_else (to_option newPath) vaultPath)) = None ->
  getAllMarkdownFiles vaultPath w = Ok fs ->
  NoDup fs -> p ∈ fs -> rewritable vaultPath newPath w p = true ->
  files w !! p = Some content ->
  files (snd (updateVaultLinks vaultPath oldPath newPath src dst w)) !! p
  = Some (finalContent (options_for oldPath newPath src dst p) content).
Proof.
  intros Hv Hfs Hnd Hp Hr Hc.
  destruct (updateVaultLinks_walk vaultPath oldPath newPath src dst fs w Hv Hfs)
    as (m & log & _ & ->). cbn [snd].
  destruct (walk_effect vaultPath oldPath newPath src dst fs 0
              (with_cache m (now w) (with_log log w)) Hnd) as [_ Hf].
  rewrite Hf. rewrite bool_decide_eq_true_2 by assumption.
  change (rewritable vaultPath newPath (with_cache m (now w) (with_log log w)) p)
    with (rewritable vaultPath newPath w p).
  rewrite Hr. cbn [andb files with_cache with_log]. now rewrite Hc.
Qed.

(** X24: the call the removal of a directory makes for each of its notes,
    [updateVaultLinks(vaultPath, relativePath, null)], for a note whose
    base name holds no pattern metacharacter, no [#] and no [!]: no file is
    passed over, so every enumerated file that can be read and written,
    the removed note itself among them, ends up with the links to the
    note's base name struck through. *)
Theorem removal_strikes_links_in_every_file
  (vaultPath relativePath : str) (fs : list str) (w : world) (p content : str) :
  plain_name (Path.basename relativePath ".md") = true ->
  validateVaultPath vaultPath
    (or_else (Some relativePath) (or_else None vaultPath)) = None ->
  getAllMarkdownFiles vaultPath w = Ok fs ->
  NoDup fs -> p ∈ fs ->
  p ∉ unreadable w -> p ∉ unwritable w ->
  files w !! p = Some content ->
  files (snd (updateVaultLinks vaultPath (Given relativePath) Null None None w)) !! p
  = Some (updateWikiLinks content relativePath None no_options).
Proof.
  intros _ Hv Hfs Hnd Hp Hr Hw Hc.
  rewrite (rewritten_file vaultPath (Given relativePath) Null None None fs w p content);
    try assumption.
  - f_equal. unfold finalContent, options_for.
    cbn [oldPath newPath isMovedFromOtherVault sourceVaultName destVaultName
         isMovedToOtherVault to_option or_null truthy movedFromOtherVault is_null
         andb negb].
    assert (Ho : or_else (Some relativePath) [] = relativePath) by now destruct relativePath.
    rewrite Ho. reflexivity.
  - unfold rewritable, is_destination. cbn [to_option truthy andb negb].
    now rewrite !bool_decide_eq_false_2 by assumption.
Qed.

(** X25: a note that arrives from elsewhere has no old path, and the empty old
    name matches the links with an empty target: in every other document
    that is rewritten, a link to a heading of the document itself,
    [[[#h]]], becomes a link to the arrived note, [[[New#h]]]; the note
    of the move is appended when both vault names are given. *)
Theorem arrival_retargets_links_without_target
  (vaultPath newFile : str) (src dst : option str) (fs : list str) (w : world)
  (p pre post : str) (hd al : option str) :
  let Y := Path.basename newFile ".md" in
  validateVaultPath vaultPath (or_else None (or_else (Some newFile) vaultPath)) = None ->
  getAllMarkdownFiles vaultPath w = Ok fs ->
  NoDup fs -> p ∈ fs -> rewritable vaultPath (Given newFile) w p = true ->
  wordy Y ->
  avoids "[" pre = true -> avoids "[" post = true ->
  good_heading hd = true -> good_alias al = true ->
  files w !! p = Some (pre ++ "[[" ++ hash hd ++ bar al ++ "]]" ++ post) ->
  files (snd (updateVaultLinks vaultPath Null (Given newFile) src dst w)) !! p
  = Some ((pre ++ "[[" ++ Y ++ hash hd ++ bar al ++ "]]" ++ post)
          ++ if truthy src && truthy dst then moved_note (default [] src) else []).
Proof.
  intros Y Hv Hfs Hnd Hp Hr HY Hpre Hpost Hh Ha Hc.
  assert (Hnew : newFile <> []).
  { intros ->. destruct HY as [HY _]. apply HY. apply basename_nil. }
  assert (Ht : truthy (Some newFile) = true) by now destruct newFile.
  rewrite (rewritten_file vaultPath Null (Given newFile) src dst fs w p _ Hv Hfs Hnd Hp Hr Hc).
  f_equal. unfold finalContent, options_for.
  cbn [oldPath newPath isMovedFromOtherVault sourceVaultName destVaultName
       isMovedToOtherVault to_option movedFromOtherVault movedToOtherVault is_null
       andb negb].
  unfold or_null. rewrite Ht. unfold or_else. cbn [truthy].
  assert (Hu : updateWikiLinks (pre ++ "[[" ++ hash hd ++ bar al ++ "]]" ++ post) []
                 (Some newFile) (mkUpdateOptions dst (Some false))
               = pre ++ "[[" ++ Y ++ hash hd ++ bar al ++ "]]" ++ post).
  { unfold updateWikiLinks. rewrite Ht. cbn [negb opt_moveToOtherVault default from_option
      option_map andb]. unfold id. rewrite basename_nil.
    apply (rewrite_links_one_link [] Y pre post hd al); try assumption. reflexivity. }
  rewrite Hu. unfold movedFromOtherVault. cbn [is_null negb andb].
  destruct newFile as [|c n]; [congruence|].
  destruct (truthy src), (truthy dst); cbn [andb]; now rewrite ?app_nil_r.
Qed.

End Callers.


(** ** The properties at work on small vaults *)

Lemma linked_files_NoDup : NoDup linked_files.
Proof. apply (bool_decide_unpack _). vm_compute. exact I. Qed.

Lemma updateVaultLinks_rewrites_each_file_witness :
  fst (@updateVaultLinks permissive "/v" (Given "Note.md") Null None None linked_vault)
  = Ok 3
  /\ forall p,
       files (snd (@updateVaultLinks permissive "/v" (Given "Note.md") Null None None
                     linked_vault)) !! p
       = if bool_decide (p ∈ linked_files) && rewritable "/v" Null linked_vault p
         then finalContent (options_for (Given "Note.md") Null None None p)
                <$> files linked_vault !! p
         else files linked_vault !! p.
Proof.
  apply (@updateVaultLinks_rewrites_each_file permissive "/v" (Given "Note.md") Null
           None None linked_files linked_vault).
  - reflexivity.
  - reflexivity.
  - vm_compute. reflexivity.
  - exact linked_files_NoDup.
Defined.

Lemma updateVaultLinks_indexes_before_rewriting_witness :
  exists m,
    fst (@createWikiLinkMap permissive "/v" linked_vault) = Ok m
    /\ cachedLinkMap
         (snd (@updateVaultLinks permissive "/v" (Given "Note.md") Null None None
                 linked_vault)) = Some m
    /\ lastUpdateTime
         (snd (@updateVaultLinks permissive "/v" (Given "Note.md") Null None None
                 linked_vault)) = now linked_vault.
Proof.
  apply (@updateVaultLinks_indexes_before_rewriting permissive "/v" (Given "Note.md")
           Null None None linked_vault _ 3).
  vm_compute. reflexivity.
Defined.

Lemma batch_counts_links_before_the_update_witness :
  exists m,
    fst (@createWikiLinkMap permissive "/v" linked_vault) = Ok m
    /\ @count_affected_links permissive "/v" (0, 0) (mkUpdate "Note.md" None None None)
         3 linked_vault_later
       = (Ok (0 + 3,
              0 + count_links (default [] (Obj.get (Path.basename "Note.md" ".md") m))),
          linked_vault_later).
Proof.
  apply (@batch_counts_links_before_the_update permissive "/v"
           (mkUpdate "Note.md" None None None) (0, 0) linked_vault
           linked_vault_updated linked_vault_later 3).
  - vm_compute. reflexivity.
  - reflexivity.
  - reflexivity.
  - vm_compute. discriminate.
  - reflexivity.
Defined.

Lemma updateLinksInFile_reports_change_witness :
  exists content,
    files linked_vault !! filePath rename_in_a = Some content
    /\ finalContent rename_in_a content <> content
    /\ with_files (<[("/v/a.md" : str) := ("[[New]] and [[New|n]]" : str)]>
                     (files linked_vault)) linked_vault
       = with_files (<[filePath rename_in_a := finalContent rename_in_a content]>
                       (files linked_vault)) linked_vault.
Proof.
  assert (E : @updateLinksInFile rename_in_a linked_vault
              = (Ok true,
                 with_files (<[("/v/a.md" : str) := ("[[New]] and [[New|n]]" : str)]>
                               (files linked_vault)) linked_vault))
    by (vm_compute; reflexivity).
  pose proof (updateLinksInFile_reports_change rename_in_a linked_vault eq_refl) as Hw.
  rewrite E in Hw. exact Hw.
Defined.

Lemma validateVaultLinks_leaves_an_intact_vault_witness :
  @validateVaultLinks permissive "/v" intact_vault
  = (Ok (mkValidation 0 0 0),
     snd (@getOrUpdateLinkMap permissive "/v" true intact_vault))
  /\ files (snd (@getOrUpdateLinkMap permissive "/v" true intact_vault))
     = files intact_vault.
Proof.
  apply (@validateVaultLinks_leaves_an_intact_vault permissive "/v" intact_vault _
           (match fst (@getOrUpdateLinkMap permissive "/v" true intact_vault) with
            | Ok m => m
            | Throw _ => []
            end)).
  - reflexivity.
  - vm_compute. reflexivity.
  - vm_compute. repeat constructor; eexists; reflexivity.
Defined.

Lemma index_failure_stops_check_and_batch_witness :
  @validateVaultLinks unlistable "/v" linked_vault
  = (Throw (McpError InternalError
              "Failed to create wikilink map: EACCES: permission denied, scandir"),
     linked_vault)
  /\ @batchUpdateLinks unlistable "/v" [mkUpdate "Note.md" None None None] linked_vault
     = (Throw (McpError InternalError
                 "Failed to create wikilink map: EACCES: permission denied, scandir"),
        linked_vault).
Proof.
  apply (@index_failure_stops_check_and_batch unlistable "/v"
           [mkUpdate "Note.md" None None None] linked_vault
           (JsError "EACCES: permission denied, scandir")); reflexivity.
Defined.

Lemma findBacklinks_lists_the_linking_files_witness :
  exists log,
    @findBacklinks permissive "/v" "/v/Note.md" linked_vault
    = (Ok (map (backlink_from "/v" "/v/Note.md" linked_vault)
               (List.filter (links_back "/v/Note.md" linked_vault) linked_files)),
       with_log log linked_vault).
Proof.
  apply (@findBacklinks_lists_the_linking_files permissive "/v" "/v/Note.md"
           linked_files linked_vault).
  - reflexivity.
  - vm_compute. reflexivity.
Defined.

Lemma ordinary_linked_vault :
  Forall (fun f => ordinary_targets (links_of linked_vault f)) linked_files.
Proof. vm_compute. repeat constructor. Qed.

Lemma index_agrees_with_findBacklinks_witness :
  exists bls m,
    fst (@findBacklinks permissive "/v" "/v/Note.md" linked_vault) = Ok bls
    /\ fst (@createWikiLinkMap permissive "/v" linked_vault) = Ok m
    /\ links_to (Path.basename "/v/Note.md" ".md") m
       = count_links bls
         + (if bool_decide (("/v/Note.md" : str) ∈ linked_files)
            then length (relevantLinks (Path.basename "/v/Note.md" ".md")
                           (links_of linked_vault "/v/Note.md"))
            else 0).
Proof.
  apply (@index_agrees_with_findBacklinks permissive "/v" "/v/Note.md"
           linked_files linked_vault).
  - reflexivity.
  - vm_compute. reflexivity.
  - exact linked_files_NoDup.
  - exact ordinary_linked_vault.
Defined.

Lemma createWikiLinkMap_makes_one_entry_per_link_witness :
  exists m log,
    @createWikiLinkMap permissive "/v" linked_vault = (Ok m, with_log log linked_vault)
    /\ Forall (fun entry =>
                 Forall (fun bl => length (links bl) = 1) (snd entry)
                 /\ count_links (snd entry) = length (snd entry)) m.
Proof.
  apply (@createWikiLinkMap_makes_one_entry_per_link permissive "/v" linked_files
           linked_vault).
  - vm_compute. reflexivity.
  - vm_compute. repeat constructor.
Defined.

Lemma removal_strikes_links_in_every_file_witness :
  files (snd (@updateVaultLinks permissive "/v" (Given "Note.md") Null None None
                linked_vault)) !! ("/v/Note.md" : str)
  = Some (updateWikiLinks "see [[Note#top]]" "Note.md" None no_options).
Proof.
  apply (@removal_strikes_links_in_every_file permissive "/v" "Note.md" linked_files
           linked_vault "/v/Note.md" "see [[Note#top]]").
  - reflexivity.
  - reflexivity.
  - vm_compute. reflexivity.
  - exact linked_files_NoDup.
  - unfold linked_files. set_solver.
  - apply not_elem_of_empty.
  - apply not_elem_of_empty.
  - vm_compute. reflexivity.
Defined.

Lemma arrival_retargets_links_without_target_witness :
  files (snd (@updateVaultLinks permissive "/v" Null (Given "New.md")
                (Some ("Src" : str)) (Some ("Dst" : str)) heading_vault))
    !! ("/v/Other.md" : str)
  = Some (("see " ++ "[[" ++ "New" ++ "#Intro" ++ [] ++ "]]" ++ [])
          ++ moved_note "Src").
Proof.
  apply (@arrival_retargets_links_without_target permissive "/v" "New.md"
           (Some ("Src" : str)) (Some ("Dst" : str))
           ["/v/New.md" : str; "/v/Other.md" : str] heading_vault "/v/Other.md"
           "see " [] (Some ("Intro" : str)) None).
  - reflexivity.
  - vm_compute. reflexivity.
  - apply (bool_decide_unpack _). vm_compute. exact I.
  - set_solver.
  - vm_compute. reflexivity.
  - split; [discriminate|reflexivity].
  - reflexivity.
  - reflexivity.
  - reflexivity.
  - reflexivity.
  - vm_compute. reflexivity.
Defined.

Lemma validateWikiLinkTarget_goes_by_the_base_name_witness :
  @validateWikiLinkTarget permissive "/v" ("sub" ++ "/" ++ "Note" ++ ".md") linked_vault
  = @validateWikiLinkTarget permissive "/v" "Note" linked_vault
  /\ @validateWikiLinkTarget permissive "/v" "Note" linked_vault
     = (Ok true, linked_vault).
Proof.
  apply (@validateWikiLinkTarget_goes_by_the_base_name permissive "/v" "sub" "Note"
           linked_vault); [discriminate|reflexivity|reflexivity].
Defined.

